(** * swayimg: viewport transform engine and event loop

    A shallow embedding of [src/canvas.c] (viewport: clamp pass, fit modes,
    zoom, pan, drag) and of [src/application.c] (event queue with its
    coalescing rules, poll loop), with the properties that the specification
    states about them.

    Target model: LP64.  [size_t] is an unsigned 64-bit integer, [ssize_t] a
    signed 64-bit integer, [int] a signed 32-bit integer, [float] is IEEE-754
    binary32 and [double] is binary64, every floating operation being
    rounded to nearest-even in the format of its C type (no wider
    evaluation, no contraction into fused operations).  Integers are [Z]
    with the wrap-around written out; floats are [spec_float] values.

    Undefined behaviour is [None]: the conversion of a floating value to an
    integer type that cannot hold it (NaN and the infinities included) and
    the overflow of a signed addition.  Division of floats follows IEEE-754
    (a zero divisor gives an infinity or NaN). *)

From Stdlib Require Import ZArith Lia List Bool String Ascii Sorted.
From Stdlib Require Import Floats.SpecFloat.
From Stdlib Require Reals Psatz.
Import ListNotations.

Local Open Scope Z_scope.

(** ** Machine integers *)

Module CInt.

Definition size_mod : Z := 2 ^ 64.
Definition ssize_half : Z := 2 ^ 63.
Definition int_mod : Z := 2 ^ 32.
Definition int_half : Z := 2 ^ 31.

(** Value of an integer expression computed in [size_t]. *)
Definition to_size (z : Z) : Z := z mod size_mod.

(** Conversion to [ssize_t] (two's complement, as gcc and clang define
    the out-of-range case). *)
Definition to_ssize (z : Z) : Z := (z + ssize_half) mod size_mod - ssize_half.

Definition is_size (z : Z) : Prop := 0 <= z < size_mod.
Definition is_ssize (z : Z) : Prop := - ssize_half <= z < ssize_half.
Definition is_int (z : Z) : Prop := - int_half <= z < int_half.

(** Result of a signed [ssize_t] operation: overflow is undefined
    behaviour, rendered as [None]. *)
Definition ssize_checked (z : Z) : option Z :=
  if (- ssize_half <=? z) && (z <? ssize_half) then Some z else None.

(** The same for [int]. *)
Definition int_checked (z : Z) : option Z :=
  if (- int_half <=? z) && (z <? int_half) then Some z else None.

End CInt.

(** ** Floating point: binary32 and binary64 on [spec_float] *)

Module F32.

Definition prec : Z := 24.
Definition emax : Z := 128.
Definition dprec : Z := 53.
Definition demax : Z := 1024.

Definition float : Type := spec_float.

(** Integer to [float] conversion, rounded to nearest-even. *)
Definition of_Z (z : Z) : float := binary_normalize prec emax z 0 false.

Definition add (a b : float) : float := SFadd prec emax a b.
Definition sub (a b : float) : float := SFsub prec emax a b.
Definition mul (a b : float) : float := SFmul prec emax a b.
Definition div (a b : float) : float := SFdiv prec emax a b.

(** Promotion of a [float] to [double]: exact. *)
Definition to_double (a : float) : spec_float :=
  match a with
  | S754_finite s m e => binary_normalize dprec demax (cond_Zopp s (Zpos m)) e s
  | _ => a
  end.

(** Conversion of a [double] to [float]: rounded. *)
Definition of_double (d : spec_float) : float :=
  match d with
  | S754_finite s m e => binary_normalize prec emax (cond_Zopp s (Zpos m)) e s
  | _ => d
  end.

Definition dof_Z (z : Z) : spec_float := binary_normalize dprec demax z 0 false.
Definition ddiv (a b : spec_float) : spec_float := SFdiv dprec demax a b.

(** [a < b] and [a > b] on operands of one format. *)
Definition ltb (a b : spec_float) : bool := SFltb a b.
Definition gtb (a b : spec_float) : bool := SFltb b a.

(** Truncation toward zero of a finite value; [None] for NaN and the
    infinities. *)
Definition trunc (a : spec_float) : option Z :=
  match a with
  | S754_zero _ => Some 0
  | S754_finite s m e =>
      Some (cond_Zopp s (if 0 <=? e then Zpos m * 2 ^ e
                         else Zpos m / 2 ^ (- e)))
  | _ => None
  end.

(** Conversion to [size_t]: defined only when the truncated value fits
    (C11 6.3.1.4); [None] stands for undefined behaviour. *)
Definition to_size (a : spec_float) : option Z :=
  match trunc a with
  | Some z => if (0 <=? z) && (z <? CInt.size_mod) then Some z else None
  | None => None
  end.

(** Conversion to [ssize_t], same rule. *)
Definition to_ssize (a : spec_float) : option Z :=
  match trunc a with
  | Some z =>
      if (- CInt.ssize_half <=? z) && (z <? CInt.ssize_half) then Some z
      else None
  | None => None
  end.

(** Exact rational value [n / d] (with [d > 0]) of a finite float, for
    stating numeric properties without rounding. *)
Definition num_den (a : spec_float) : option (Z * Z) :=
  match a with
  | S754_zero _ => Some (0, 1)
  | S754_finite s m e =>
      Some (if 0 <=? e then (cond_Zopp s (Zpos m * 2 ^ e), 1)
            else (cond_Zopp s (Zpos m), 2 ^ (- e)))
  | _ => None
  end.

Definition zero : float := S754_zero false.
Definition one : float := of_Z 1.

(** Neither NaN nor an infinity. *)
Definition is_finite (a : spec_float) : bool :=
  match a with
  | S754_zero _ | S754_finite _ _ _ => true
  | _ => false
  end.

(** A finite number other than zero: what a division needs as divisor
    to stay clear of the division by zero. *)
Definition is_finite_nonzero (a : spec_float) : bool :=
  match a with
  | S754_finite _ _ _ => true
  | _ => false
  end.

End F32.

Notation "x <- e ;; k" :=
  (match e with Some x => k | None => None end)
  (at level 61, e at next level, right associativity).
Notation "' pat <- e ;; k" :=
  (match e with Some pat => k | None => None end)
  (at level 61, pat pattern, e at next level, right associativity).

(** ** Real values of floating-point numbers *)

Module FVal.

Import Reals.

(** [2 ^ e] as a real. *)
Definition bpow (e : Z) : R := powerRZ 2 e.

Definition B2R (x : spec_float) : R :=
  match x with
  | S754_finite s m e => (IZR (cond_Zopp s (Zpos m)) * bpow e)%R
  | _ => 0%R
  end.

(** What [binary_round_aux] returns for the rounded mantissa [mr] at
    exponent [e]. *)
Definition round_result (prec emax : Z) (s : bool) (mr e : Z) : spec_float :=
  match mr with
  | Z0 => S754_zero s
  | Zpos p =>
      if mr <? 2 ^ prec then
        if e <=? emax - prec then S754_finite s p e else S754_infinity s
      else
        if e + 1 <=? emax - prec
        then S754_finite s (Z.to_pos (2 ^ (prec - 1))) (e + 1)
        else S754_infinity s
  | Zneg _ => S754_nan
  end.

(** The facts about the mantissa [m'] cut to exponent [e'] and the rounded
    mantissa [mr] that make the result a number of the format. *)
Definition rounded (prec emax : Z) (mr m' e' : Z) : Prop :=
  0 <= m' /\ (mr = m' \/ mr = m' + 1) /\ m' < 2 ^ prec
  /\ SpecFloat.emin prec emax <= e'
  /\ (SpecFloat.emin prec emax < e' -> 2 ^ (prec - 1) <= m').

Definition finite_valid (prec emax : Z) (x : spec_float) : Prop :=
  F32.is_finite x = true /\ valid_binary prec emax x = true.

(** [r] is the magnitude [a] with the sign [s], rounded to one of the two
    numbers of the format around it. *)
Definition rounds (prec emax : Z) (s : bool) (a : R) (r : spec_float)
  : Prop :=
  exists mr m' e',
    rounded prec emax mr m' e'
    /\ r = round_result prec emax s mr e'
    /\ (IZR m' * bpow e' <= a < IZR (m' + 1) * bpow e')%R.

Definition signed (s : bool) (a : R) : R := if s then (- a)%R else a.

(** [r] is a number of the format next to the real [x]. *)
Definition approx (prec emax : Z) (x : R) (r : spec_float) : Prop :=
  finite_valid prec emax r
  /\ (Rabs (B2R r - x)
      <= Rabs x * bpow (1 - prec) + bpow (SpecFloat.emin prec emax))%R
  /\ (0 <= x -> 0 <= B2R r)%R
  /\ (x <= 0 -> B2R r <= 0)%R.

(** The same for binary32. *)
Abbreviation fv32 := (finite_valid 24 128).
Abbreviation approx32 := (approx 24 128).

End FVal.

(** ** The canvas ([src/canvas.c]) *)

Module Canvas.

Import CInt.

(** Scale thresholds. *)
Definition MIN_SCALE : Z := 10.
Definition MAX_SCALE : spec_float := F32.dof_Z 100.

Definition COLOR_TRANSPARENT : Z := 0xff000000.
Definition BACKGROUND_GRID : Z := 0xfe000000.

(** Scaling operations, in the order of [enum canvas_scale]. *)
Inductive canvas_scale :=
| scale_fit_optimal
| scale_fit_window
| scale_fit_width
| scale_fit_height
| scale_fill_window
| scale_real_size.

Definition scale_name (sc : canvas_scale) : string :=
  match sc with
  | scale_fit_optimal => "optimal"
  | scale_fit_window => "fit"
  | scale_fit_width => "width"
  | scale_fit_height => "height"
  | scale_fill_window => "fill"
  | scale_real_size => "real"
  end.

Definition scale_names : list canvas_scale :=
  [scale_fit_optimal; scale_fit_window; scale_fit_width;
   scale_fit_height; scale_fill_window; scale_real_size].

(** Modelled from the spec: the declarations of [struct rect] and
    [struct size] (pixmap.h), "x, y: signed; width, height: unsigned":
    [x], [y] are [ssize_t], the sizes are [size_t]. *)
Record rect := { x : Z; y : Z; width : Z; height : Z }.
Record size := { swidth : Z; sheight : Z }.

(** Canvas context. *)
Record canvas := {
  image_bkg : Z;
  window_bkg : Z;
  antialiasing : bool;
  initial_scale : canvas_scale;
  scale : F32.float;
  image : rect;
  window : size;
  wnd_scale : Z
}.

(** The zero-initialised static context. *)
Definition ctx0 : canvas :=
  {| image_bkg := BACKGROUND_GRID;
     window_bkg := COLOR_TRANSPARENT;
     antialiasing := false;
     initial_scale := scale_fit_optimal;
     scale := F32.zero;
     image := {| x := 0; y := 0; width := 0; height := 0 |};
     window := {| swidth := 0; sheight := 0 |};
     wnd_scale := 0 |}.

(** The fields hold values of their C types. *)
Definition wf (c : canvas) : Prop :=
  is_ssize (x (image c)) /\ is_ssize (y (image c)) /\
  is_size (width (image c)) /\ is_size (height (image c)) /\
  is_size (swidth (window c)) /\ is_size (sheight (window c)).

Definition set_pos (c : canvas) (nx ny : Z) : canvas :=
  {| image_bkg := image_bkg c;
     window_bkg := window_bkg c;
     antialiasing := antialiasing c;
     initial_scale := initial_scale c;
     scale := scale c;
     image := {| x := nx; y := ny;
                 width := width (image c); height := height (image c) |};
     window := window c;
     wnd_scale := wnd_scale c |}.

Definition set_scale_field (c : canvas) (s : F32.float) : canvas :=
  {| image_bkg := image_bkg c;
     window_bkg := window_bkg c;
     antialiasing := antialiasing c;
     initial_scale := initial_scale c;
     scale := s;
     image := image c;
     window := window c;
     wnd_scale := wnd_scale c |}.

(** [(size_t)(ctx.scale * ctx.image.width)] and the same for the height. *)
Definition scaled_width (c : canvas) : option Z :=
  F32.to_size (F32.mul (scale c) (F32.of_Z (width (image c)))).
Definition scaled_height (c : canvas) : option Z :=
  F32.to_size (F32.mul (scale c) (F32.of_Z (height (image c)))).

Definition set_x (c : canvas) (nx : Z) : canvas := set_pos c nx (y (image c)).
Definition set_y (c : canvas) (ny : Z) : canvas := set_pos c (x (image c)) ny.

(** Fix viewport position to minimize gap between image and window edge.
    [img_x + img_w] and the differences are computed in [size_t]; the
    tests against [0] are on the signed position. *)
Definition fix_viewport (c : canvas) : option canvas :=
  img_w <- scaled_width c ;;
  img_h <- scaled_height c ;;
  let img_x := x (image c) in
  let img_y := y (image c) in
  let wnd_w := swidth (window c) in
  let wnd_h := sheight (window c) in
  let c := if (img_x >? 0) && (to_size (img_x + img_w) >? wnd_w)
           then set_x c 0 else c in
  let c := if (img_y >? 0) && (to_size (img_y + img_h) >? wnd_h)
           then set_y c 0 else c in
  let c := if (img_x <? 0) && (to_size (img_x + img_w) <? wnd_w)
           then set_x c (to_ssize (to_size (wnd_w - img_w))) else c in
  let c := if (img_y <? 0) && (to_size (img_y + img_h) <? wnd_h)
           then set_y c (to_ssize (to_size (wnd_h - img_h))) else c in
  let c := if img_w <=? wnd_w
           then set_x c (to_ssize (to_size (wnd_w / 2 - img_w / 2))) else c in
  let c := if img_h <=? wnd_h
           then set_y c (to_ssize (to_size (wnd_h / 2 - img_h / 2))) else c in
  Some c.

Definition fmin (a b : F32.float) : F32.float := if F32.ltb a b then a else b.
Definition fmax (a b : F32.float) : F32.float := if F32.gtb a b then a else b.

(** Set fixed scale for the image.  [1.0 / (...)] is a [double] division
    whose result is stored in a [float]. *)
Definition set_scale (sc : canvas_scale) (c : canvas) : option canvas :=
  let inv (img wnd : Z) : F32.float :=
    F32.of_double
      (F32.ddiv (F32.dof_Z 1)
         (F32.to_double (F32.div (F32.of_Z img) (F32.of_Z wnd)))) in
  let scale_w := inv (width (image c)) (swidth (window c)) in
  let scale_h := inv (height (image c)) (sheight (window c)) in
  let s :=
    match sc with
    | scale_fit_optimal =>
        let m := fmin scale_w scale_h in
        if F32.gtb (F32.to_double m) (F32.dof_Z 1) then F32.one else m
    | scale_fit_window => fmin scale_w scale_h
    | scale_fit_width => scale_w
    | scale_fit_height => scale_h
    | scale_fill_window => fmax scale_w scale_h
    | scale_real_size => F32.one
    end in
  let c := set_scale_field c s in
  (* center viewport *)
  let center (wnd img : Z) : option Z :=
    F32.to_ssize
      (F32.sub (F32.of_Z (wnd / 2))
         (F32.div (F32.mul s (F32.of_Z img)) (F32.of_Z 2))) in
  nx <- center (swidth (window c)) (width (image c)) ;;
  ny <- center (sheight (window c)) (height (image c)) ;;
  fix_viewport (set_pos c nx ny).

(** The scale computed by [zoom], before the viewport is moved. *)
Definition zoom_scale (percent : Z) (c : canvas) : F32.float :=
  let step := F32.mul (F32.div (scale c) (F32.of_Z 100)) (F32.of_Z percent) in
  if percent >? 0 then
    let s := F32.add (scale c) step in
    if F32.gtb (F32.to_double s) MAX_SCALE then F32.of_double MAX_SCALE else s
  else
    let scale_w := F32.div (F32.of_Z MIN_SCALE) (F32.of_Z (width (image c))) in
    let scale_h := F32.div (F32.of_Z MIN_SCALE) (F32.of_Z (height (image c))) in
    let scale_min := fmax scale_w scale_h in
    let s := F32.add (scale c) step in
    if F32.ltb s scale_min then scale_min else s.

(** [pos += ((float)cntr / old) * delta], the compound assignment being
    computed in [float] and converted back to [ssize_t]. *)
Definition zoom_shift (pos cntr old delta : Z) : option Z :=
  F32.to_ssize
    (F32.add (F32.of_Z pos)
       (F32.mul (F32.div (F32.of_Z cntr) (F32.of_Z old)) (F32.of_Z delta))).

(** [zoom] up to, and not including, its final call of [fix_viewport]. *)
Definition zoom_move (percent : Z) (c : canvas) : option canvas :=
  old_w <- scaled_width c ;;
  old_h <- scaled_height c ;;
  let c1 := set_scale_field c (zoom_scale percent c) in
  (* move viewport to save the center of previous coordinates *)
  new_w <- scaled_width c1 ;;
  new_h <- scaled_height c1 ;;
  let delta_w := to_ssize (to_size (old_w - new_w)) in
  let delta_h := to_ssize (to_size (old_h - new_h)) in
  let cntr_x := to_ssize (to_size (swidth (window c1) / 2 - x (image c1))) in
  let cntr_y := to_ssize (to_size (sheight (window c1) / 2 - y (image c1))) in
  nx <- zoom_shift (x (image c1)) cntr_x old_w delta_w ;;
  ny <- zoom_shift (y (image c1)) cntr_y old_h delta_h ;;
  Some (set_pos c1 nx ny).

(** Zoom in/out. *)
Definition zoom (percent : Z) (c : canvas) : option canvas :=
  c1 <- zoom_move percent c ;;
  fix_viewport c1.

(** [font_set_scale] acts on the font module only and is left out. *)
Definition canvas_reset_window (width height scale : Z) (c : canvas)
  : option (bool * canvas) :=
  let first := swidth (window c) =? 0 in
  let c := {| image_bkg := image_bkg c;
              window_bkg := window_bkg c;
              antialiasing := antialiasing c;
              initial_scale := initial_scale c;
              scale := Canvas.scale c;
              image := image c;
              window := {| swidth := width; sheight := height |};
              wnd_scale := scale |} in
  c <- fix_viewport c ;;
  Some (first, c).

Definition canvas_reset_image (width height : Z) (c : canvas) : option canvas :=
  let c := {| image_bkg := image_bkg c;
              window_bkg := window_bkg c;
              antialiasing := antialiasing c;
              initial_scale := initial_scale c;
              scale := F32.zero;
              image := {| x := 0; y := 0; width := width; height := height |};
              window := window c;
              wnd_scale := wnd_scale c |} in
  set_scale (initial_scale c) c.

Definition canvas_swap_image_size (c : canvas) : option canvas :=
  let diff :=
    to_ssize (to_size (to_ssize (width (image c)) - height (image c))) in
  shift <- F32.to_ssize
             (F32.div (F32.mul (scale c) (F32.of_Z diff)) (F32.of_Z 2)) ;;
  let old_width := width (image c) in
  nx <- ssize_checked (x (image c) + shift) ;;
  ny <- ssize_checked (y (image c) - shift) ;;
  let c := {| image_bkg := image_bkg c;
              window_bkg := window_bkg c;
              antialiasing := antialiasing c;
              initial_scale := initial_scale c;
              scale := scale c;
              image := {| x := nx; y := ny;
                          width := height (image c); height := old_width |};
              window := window c;
              wnd_scale := wnd_scale c |} in
  fix_viewport c.

Definition moved (old_x old_y : Z) (c : canvas) : bool :=
  negb (x (image c) =? old_x) || negb (y (image c) =? old_y).

(** The step [(window / 100) * percent] is computed in [size_t]. *)
Definition canvas_move (horizontal : bool) (percent : Z) (c : canvas)
  : option (bool * canvas) :=
  let old_x := x (image c) in
  let old_y := y (image c) in
  let c1 :=
    if horizontal
    then set_x c (to_ssize (to_size
                    (x (image c) + swidth (window c) / 100 * percent)))
    else set_y c (to_ssize (to_size
                    (y (image c) + sheight (window c) / 100 * percent))) in
  c2 <- fix_viewport c1 ;;
  Some (moved old_x old_y c2, c2).

Definition canvas_drag (dx dy : Z) (c : canvas) : option (bool * canvas) :=
  let old_x := x (image c) in
  let old_y := y (image c) in
  nx <- ssize_checked (x (image c) + dx) ;;
  ny <- ssize_checked (y (image c) + dy) ;;
  c2 <- fix_viewport (set_pos c nx ny) ;;
  Some (moved old_x old_y c2, c2).

(** What [canvas_zoom] prints on [stderr]. *)
Inductive diagnostic := Invalid_zoom_operation (op : string).

Section CanvasZoom.

(** [str_to_num(op, 0, &percent, 0)] of str.c, which is not part of the
    sources at hand: [Some n] when it returns [true] and stores [n]. *)
Variable str_to_num : string -> option Z.

(** [op] is [None] for a null pointer.  The result carries the lines
    written to [stderr]. *)
Definition canvas_zoom (op : option string) (c : canvas)
  : option (canvas * list diagnostic) :=
  match op with
  | None => Some (c, [])
  | Some EmptyString => Some (c, [])
  | Some op =>
      match find (fun sc => String.eqb op (scale_name sc)) scale_names with
      | Some sc => c <- set_scale sc c ;; Some (c, [])
      | None =>
          match str_to_num op with
          | Some percent =>
              if negb (percent =? 0) && (percent >? -1000)
                 && (percent <? 1000)
              then c <- zoom percent c ;; Some (c, [])
              else Some (c, [Invalid_zoom_operation op])
          | None => Some (c, [Invalid_zoom_operation op])
          end
      end
  end.

(** The tokens that [canvas_zoom] acts on: a scale name, or a number
    strictly between -1000 and 1000 other than 0. *)
Definition zoom_token_valid (op : string) : Prop :=
  (exists sc, op = scale_name sc)
  \/ (exists n, str_to_num op = Some n /\ n <> 0 /\ -1000 < n < 1000).

End CanvasZoom.

(** A reading of decimal numbers with an optional sign, to run
    [canvas_zoom] on. *)
Fixpoint digits_to_num (acc : Z) (s : string) : option Z :=
  match s with
  | EmptyString => Some acc
  | String ch rest =>
      let d := Z.of_nat (nat_of_ascii ch) - 48 in
      if (0 <=? d) && (d <=? 9) then digits_to_num (10 * acc + d) rest
      else None
  end.

Definition decimal_to_num (s : string) : option Z :=
  match s with
  | EmptyString => None
  | String "-" (String ch rest) =>
      option_map Z.opp (digits_to_num 0 (String ch rest))
  | String "+" (String ch rest) => digits_to_num 0 (String ch rest)
  | _ => digits_to_num 0 s
  end.

Definition canvas_get_scale (c : canvas) : F32.float := scale c.

(** *** Vocabulary of the properties *)

(** What [fix_viewport] does on one axis: [p] is the image position, [sz]
    the scaled image size and [wnd] the window size on that axis. *)
Definition fix_axis (p sz wnd : Z) : Z :=
  let p1 := if (p >? 0) && (to_size (p + sz) >? wnd) then 0 else p in
  let p2 := if (p <? 0) && (to_size (p + sz) <? wnd)
            then to_ssize (to_size (wnd - sz)) else p1 in
  if sz <=? wnd then to_ssize (to_size (wnd / 2 - sz / 2)) else p2.

(** No positive gap on an axis where the scaled image is larger than the
    window: the near edge is at or before the window's near edge and the
    far edge at or after its far edge. *)
Definition no_gap_axis (p sz wnd : Z) : bool :=
  (sz <=? wnd) || ((p <=? 0) && (wnd <=? p + sz)).

Definition no_gap (c : canvas) : bool :=
  match scaled_width c, scaled_height c with
  | Some w, Some h =>
      no_gap_axis (x (image c)) w (swidth (window c))
      && no_gap_axis (y (image c)) h (sheight (window c))
  | _, _ => false
  end.

(** A run of [canvas_reset_window] calls, each given as
    [(width, height, scale)], with the values they return. *)
Fixpoint reset_window_calls (calls : list (Z * Z * Z)) (c : canvas)
  : option (list bool * canvas) :=
  match calls with
  | [] => Some ([], c)
  | (w, h, s) :: rest =>
      match canvas_reset_window w h s c with
      | Some (first, c1) =>
          match reset_window_calls rest c1 with
          | Some (firsts, c2) => Some (first :: firsts, c2)
          | None => None
          end
      | None => None
      end
  end.

(** The flags such a run returns when the window width before it is
    [prev]: a call tells whether the width it finds is 0. *)
Fixpoint first_flags (prev : Z) (calls : list (Z * Z * Z)) : list bool :=
  match calls with
  | [] => []
  | (w, _, _) :: rest => (prev =? 0) :: first_flags w rest
  end.

(** The lower bound that [zoom] applies when zooming out. *)
Definition scale_floor (c : canvas) : F32.float :=
  fmax (F32.div (F32.of_Z MIN_SCALE) (F32.of_Z (width (image c))))
       (F32.div (F32.of_Z MIN_SCALE) (F32.of_Z (height (image c)))).

(** Anchor of a zoom on one axis.  Before the zoom the image point under
    the window center [wnd / 2] is [u = (wnd / 2 - p) / s]; after it, with
    position [p'] and scale [s'], that point lies at [p' + u * s'].  For
    [s = sn / sd] and [s' = sn' / sd'] this tells whether
    [|p' + u * s' - wnd / 2| <= tn / td], in exact arithmetic. *)
Definition anchor_axis_within (tn td : Z) (wnd p p' : Z)
           (sn sd sn' sd' : Z) : bool :=
  Z.abs ((p' - wnd / 2) * (sd' * sn) + (wnd / 2 - p) * (sn' * sd)) * td
  <=? tn * (sd' * sn).

(** The same on both axes of a canvas before ([c]) and after ([c']) the
    zoom; [false] when a scale is not a positive finite number. *)
Definition anchor_within (tn td : Z) (c c' : canvas) : bool :=
  match F32.num_den (scale c), F32.num_den (scale c') with
  | Some (sn, sd), Some (sn', sd') =>
      (0 <? sn) && (0 <? sn')
      && anchor_axis_within tn td (swidth (window c))
           (x (image c)) (x (image c')) sn sd sn' sd'
      && anchor_axis_within tn td (sheight (window c))
           (y (image c)) (y (image c')) sn sd sn' sd'
  | _, _ => false
  end.

(** The zoom anchor property with tolerance [tn / td] window pixels, for
    every state with a positive scale and scaled sizes of at least one
    pixel. *)
Definition anchor_preserving (tn td : Z) : Prop :=
  forall (c : canvas) (percent : Z) (w h : Z),
    wf c ->
    F32.ltb F32.zero (scale c) = true ->
    scaled_width c = Some w -> 1 <= w ->
    scaled_height c = Some h -> 1 <= h ->
    -1000 < percent < 1000 -> percent <> 0 ->
    exists c', zoom_move percent c = Some c'
               /\ anchor_within tn td c c' = true.

(** A canvas with the default settings. *)
Definition canvas_at (s : F32.float) (ix iy iw ih ww wh : Z) : canvas :=
  {| image_bkg := BACKGROUND_GRID;
     window_bkg := COLOR_TRANSPARENT;
     antialiasing := false;
     initial_scale := scale_fit_optimal;
     scale := s;
     image := {| x := ix; y := iy; width := iw; height := ih |};
     window := {| swidth := ww; sheight := wh |};
     wnd_scale := 1 |}.

(** Window 800x600, image 1600x1200 at scale 0.5, which fills the window. *)
Definition half : F32.float := F32.div (F32.of_Z 1) (F32.of_Z 2).
Definition example_800x600 : canvas := canvas_at half 0 0 1600 1200 800 600.

(** Window 100x100, image 200x200 shown at real size (so placed at
    (-50, -50)), then dragged horizontally by [dx]. *)
Definition drag_run (dx : Z) : option canvas :=
  '(_, c) <- canvas_reset_window 100 100 1 ctx0 ;;
  c <- canvas_reset_image 200 200 c ;;
  '(c, _) <- canvas_zoom decimal_to_num (Some "real"%string) c ;;
  '(_, c) <- canvas_drag dx 0 c ;;
  Some c.

(** Dragged 300 pixels to the left, wholly out of the window. *)
Definition far_drag_run : option canvas := drag_run (-300).

(** Window 800x600 and a 2x2 image fitted to it: the fit scale is 300. *)
Definition fit_tiny_run : option canvas :=
  '(_, c) <- canvas_reset_window 800 600 1 ctx0 ;;
  c <- canvas_reset_image 2 2 c ;;
  '(c, _) <- canvas_zoom decimal_to_num (Some "fit"%string) c ;;
  Some c.

(** Window 800x1 and a 1x2000 image: the optimal scale is 1/2000 and the
    scaled width truncates to 0. *)
Definition thin_run : option canvas :=
  '(_, c) <- canvas_reset_window 800 1 1 ctx0 ;;
  canvas_reset_image 1 2000 c.

Definition thin_canvas : canvas :=
  match thin_run with
  | Some c => c
  | None => ctx0
  end.

(** Window 800x600 and a 37x23 image, shown at real size and zoomed in by
    8 percent. *)
Definition small_image_run : option canvas :=
  '(_, c) <- canvas_reset_window 800 600 1 ctx0 ;;
  c <- canvas_reset_image 37 23 c ;;
  '(c, _) <- canvas_zoom decimal_to_num (Some "8"%string) c ;;
  Some c.

Definition small_image_canvas : canvas :=
  match small_image_run with
  | Some c => c
  | None => ctx0
  end.

(** Whether [zoom_move] by [percent] keeps the anchor of [c] within
    [tn / td] window pixels; 0 is not a zoom. *)
Definition anchor_check (tn td : Z) (c : canvas) (percent : Z) : bool :=
  (percent =? 0)
  || match zoom_move percent c with
     | Some c' => anchor_within tn td c c'
     | None => false
     end.

(** The integers from [lo], [n] of them. *)
Fixpoint zrange (lo : Z) (n : nat) : list Z :=
  match n with
  | O => []
  | S n' => lo :: zrange (lo + 1) n'
  end.

(** *** The remaining entry points and the vocabulary of their properties *)

Definition canvas_switch_aa (c : canvas) : bool * canvas :=
  let aa := negb (antialiasing c) in
  (aa,
   {| image_bkg := image_bkg c;
      window_bkg := window_bkg c;
      antialiasing := aa;
      initial_scale := initial_scale c;
      scale := scale c;
      image := image c;
      window := window c;
      wnd_scale := wnd_scale c |}).

(** The factor [1.0 / ((float)img / wnd)] that [set_scale] computes for one
    axis. *)
Definition fit_factor (img wnd : Z) : F32.float :=
  F32.of_double
    (F32.ddiv (F32.dof_Z 1)
       (F32.to_double (F32.div (F32.of_Z img) (F32.of_Z wnd)))).

(** A state that the clamp pass leaves as it is. *)
Definition clamped (c : canvas) : Prop := fix_viewport c = Some c.

(** The calls that change the viewport, with their arguments. *)
Inductive operation :=
| op_reset_window (width height scale : Z)
| op_reset_image (width height : Z)
| op_swap_image_size
| op_move (horizontal : bool) (percent : Z)
| op_drag (dx dy : Z)
| op_zoom (op : option string).

(** The arguments hold values of the C parameter types that matter for the
    state: sizes are [size_t]. *)
Definition operation_wf (o : operation) : Prop :=
  match o with
  | op_reset_window w h _ => is_size w /\ is_size h
  | op_reset_image w h => is_size w /\ is_size h
  | _ => True
  end.

Definition apply_operation (str_to_num : string -> option Z)
           (o : operation) (c : canvas) : option canvas :=
  match o with
  | op_reset_window w h s => '(_, c') <- canvas_reset_window w h s c ;; Some c'
  | op_reset_image w h => canvas_reset_image w h c
  | op_swap_image_size => canvas_swap_image_size c
  | op_move hz p => '(_, c') <- canvas_move hz p c ;; Some c'
  | op_drag dx dy => '(_, c') <- canvas_drag dx dy c ;; Some c'
  | op_zoom op => '(c', _) <- canvas_zoom str_to_num op c ;; Some c'
  end.

Fixpoint apply_operations (str_to_num : string -> option Z)
         (os : list operation) (c : canvas) : option canvas :=
  match os with
  | [] => Some c
  | o :: rest =>
      c' <- apply_operation str_to_num o c ;;
      apply_operations str_to_num rest c'
  end.

(** The state of [drag_run (-120)], before the drag: window 100x100, image
    200x200 at real size. *)
Definition real_200_in_100 : canvas := canvas_at F32.one (-50) (-50) 200 200 100 100.

(** A 100x100 image at real size in a window of 90x90. *)
Definition tiny_window : canvas := canvas_at F32.one (-5) (-5) 100 100 90 90.

(** A 10x10 image at real size, centered in a window of 800x600. *)
Definition small_centered : canvas := canvas_at F32.one 395 295 10 10 800 600.

(** *** Vocabulary of the bounds of the scale and of the flag of
    [canvas_reset_window] *)

(** A finite number of the binary32 format. *)
Definition is_binary32 (a : F32.float) : bool :=
  F32.is_finite a && valid_binary F32.prec F32.emax a.

(** A binary32 number that is neither negative nor greater than
    [MAX_SCALE]. *)
Definition scale_in_bounds (a : F32.float) : bool :=
  is_binary32 a && negb (F32.ltb a F32.zero)
  && negb (F32.gtb (F32.to_double a) MAX_SCALE).

(** [zoom] calls one after the other. *)
Fixpoint zooms (percents : list Z) (c : canvas) : option canvas :=
  match percents with
  | [] => Some c
  | percent :: rest => c1 <- zoom percent c ;; zooms rest c1
  end.

(** The values that the [canvas_reset_window] calls among [os] return, in
    a run of any operations. *)
Fixpoint operations_flags (str_to_num : string -> option Z)
         (os : list operation) (c : canvas) : option (list bool * canvas) :=
  match os with
  | [] => Some ([], c)
  | op_reset_window w h s :: rest =>
      '(first, c1) <- canvas_reset_window w h s c ;;
      '(firsts, c2) <- operations_flags str_to_num rest c1 ;;
      Some (first :: firsts, c2)
  | o :: rest =>
      c1 <- apply_operation str_to_num o c ;;
      operations_flags str_to_num rest c1
  end.

(** What these values are when the window width before the run is [prev]:
    a call tells whether the width it finds is 0, and only
    [canvas_reset_window] changes the width. *)
Fixpoint stored_width_flags (prev : Z) (os : list operation) : list bool :=
  match os with
  | [] => []
  | op_reset_window w _ _ :: rest => (prev =? 0) :: stored_width_flags w rest
  | _ :: rest => stored_width_flags prev rest
  end.

(** The anchor of a zoom with a tolerance that grows with the zoom
    factor: [k] window pixels and [s' / s] of a pixel more, the part of
    the old scaled size that its truncation drops being magnified by the
    zoom.  For [s = sn / sd] and [s' = sn' / sd'] the tolerance is
    [(k * (sd' * sn) + sn' * sd) / (sd' * sn)]. *)
Definition anchor_within_ratio (k : Z) (c c' : canvas) : bool :=
  match F32.num_den (scale c), F32.num_den (scale c') with
  | Some (sn, sd), Some (sn', sd') =>
      (0 <? sn) && (0 <? sn')
      && anchor_axis_within (k * (sd' * sn) + sn' * sd) (sd' * sn)
           (swidth (window c)) (x (image c)) (x (image c')) sn sd sn' sd'
      && anchor_axis_within (k * (sd' * sn) + sn' * sd) (sd' * sn)
           (sheight (window c)) (y (image c)) (y (image c')) sn sd sn' sd'
  | _, _ => false
  end.

(** *** Drawing *)

Definition GRID_STEP : Z := 10.
Definition GRID_COLOR1 : Z := 0xff333333.
Definition GRID_COLOR2 : Z := 0xff4c4c4c.

(** The calls that [canvas_draw] makes on the window pixmap, with the
    values of their argument expressions. *)
Inductive draw_call :=
| pixmap_fill (x y width height color : Z)
| pixmap_grid (x y width height tail_sz color1 color2 : Z)
| pixmap_put (x y src_x src_y : Z) (scale : F32.float)
             (alpha antialiasing : bool).

(** The locals [wnd_x0], [wnd_y0], [wnd_x1], [wnd_y1], [width] and
    [height] of [canvas_draw]: the part of the window under the image. *)
Record draw_area := {
  wnd_x0 : Z;
  wnd_y0 : Z;
  wnd_x1 : Z;
  wnd_y1 : Z;
  area_width : Z;
  area_height : Z
}.

(** [ctx.image.x + ctx.scale * ctx.image.width] is a [float] sum, converted
    to [ssize_t]; [max] and [min] are the macros of the file. *)
Definition draw_area_of (c : canvas) : option draw_area :=
  scaled_x <- F32.to_ssize
                (F32.add (F32.of_Z (x (image c)))
                   (F32.mul (scale c) (F32.of_Z (width (image c))))) ;;
  scaled_y <- F32.to_ssize
                (F32.add (F32.of_Z (y (image c)))
                   (F32.mul (scale c) (F32.of_Z (height (image c))))) ;;
  let x0 := if 0 >? x (image c) then 0 else x (image c) in
  let y0 := if 0 >? y (image c) then 0 else y (image c) in
  let x1 := if to_ssize (swidth (window c)) <? scaled_x
            then to_ssize (swidth (window c)) else scaled_x in
  let y1 := if to_ssize (sheight (window c)) <? scaled_y
            then to_ssize (sheight (window c)) else scaled_y in
  dw <- ssize_checked (x1 - x0) ;;
  dh <- ssize_checked (y1 - y0) ;;
  Some {| wnd_x0 := x0; wnd_y0 := y0; wnd_x1 := x1; wnd_y1 := y1;
          area_width := to_size dw; area_height := to_size dh |}.

Section CanvasDraw.

(** The macro [ARGB_SET_A] of pixmap.h. *)
Variable ARGB_SET_A : Z -> Z.

Definition wnd_color (c : canvas) : Z :=
  if window_bkg c =? COLOR_TRANSPARENT then 0
  else Z.lor (ARGB_SET_A 0xff) (window_bkg c).

(** Clear window background.  [pm_wnd] has the size of the window. *)
Definition clear_background (c : canvas) (r : draw_area) : list draw_call :=
  let pm_width := swidth (window c) in
  let pm_height := sheight (window c) in
  (if area_height r <? pm_height then
     [pixmap_fill 0 0 pm_width (wnd_y0 r) (wnd_color c);
      pixmap_fill 0 (wnd_y1 r) pm_width (to_size (pm_height - wnd_y1 r))
        (wnd_color c)]
   else [])
  ++ (if area_width r <? pm_width then
        [pixmap_fill 0 (wnd_y0 r) (wnd_x0 r) (area_height r) (wnd_color c);
         pixmap_fill (wnd_x1 r) (wnd_y0 r) (to_size (pm_width - wnd_x1 r))
           (area_height r) (wnd_color c)]
      else []).

(** Clear image background and put image on window surface. *)
Definition paint_image (alpha : bool) (c : canvas) (r : draw_area)
  : list draw_call :=
  (if alpha then
     if image_bkg c =? BACKGROUND_GRID then
       [pixmap_grid (wnd_x0 r) (wnd_y0 r) (area_width r) (area_height r)
          (to_size (GRID_STEP * wnd_scale c)) GRID_COLOR1 GRID_COLOR2]
     else
       [pixmap_fill (wnd_x0 r) (wnd_y0 r) (area_width r) (area_height r)
          (if image_bkg c =? COLOR_TRANSPARENT then wnd_color c
           else Z.lor (ARGB_SET_A 0xff) (image_bkg c))]
   else [])
  ++ [pixmap_put (wnd_x0 r) (wnd_y0 r) (x (image c)) (y (image c)) (scale c)
        alpha (antialiasing c)].

Definition canvas_draw (alpha : bool) (c : canvas) : option (list draw_call) :=
  r <- draw_area_of c ;;
  Some (clear_background c r ++ paint_image alpha c r).

End CanvasDraw.

(** The pixel [(px, py)] lies in the rectangle that a fill or a grid call
    is given. *)
Definition covers (px py : Z) (call : draw_call) : bool :=
  match call with
  | pixmap_fill x y w h _ | pixmap_grid x y w h _ _ _ =>
      (x <=? px) && (px <? x + w) && (y <=? py) && (py <? y + h)
  | pixmap_put _ _ _ _ _ _ _ => false
  end.

Definition in_area (r : draw_area) (px py : Z) : bool :=
  (wnd_x0 r <=? px) && (px <? wnd_x1 r)
  && (wnd_y0 r <=? py) && (py <? wnd_y1 r).

(** *** Text in the middle of the window *)

(** Text padding: space between text layout and window edge. *)
Definition TEXT_PADDING : Z := 10.

(** [n / d + (n % d ? 1 : 0)] in [size_t]; a division by zero is
    undefined. *)
Definition div_up (n d : Z) : option Z :=
  if d =? 0 then None
  else Some (n / d + (if n mod d =? 0 then 0 else 1)).

Section CanvasPrint.

(** [font_height()], and the width that [font_print] returns for a text,
    whether it draws it or only measures it (font.c). *)
Variable font_height : Z.
Variable font_print : string -> Z.

(** [columns] and [rows] of [canvas_print_center]. *)
Definition center_layout (lines_num : Z) (c : canvas) : option (Z * Z) :=
  if font_height =? 0 then None
  else
    let row_max :=
      to_size (sheight (window c) - TEXT_PADDING * 2) / font_height in
    columns <- div_up lines_num row_max ;;
    rows <- div_up lines_num columns ;;
    Some (columns, rows).

(** The inner [for] of [canvas_print_center] from row [r] on, for column
    [col]: the lines printed, each with its point, and the greatest
    width.  [n] is the number of rows left.  The measuring pass runs the
    same loop without a point. *)
Fixpoint print_rows (n : nat) (r col rows : Z) (lines : list string)
         (pt_x pt_y : Z) (col_width : Z) : list (Z * Z * string) * Z :=
  match n with
  | O => ([], col_width)
  | S n' =>
      let index := to_size (r + to_size (col * rows)) in
      if index >=? Z.of_nat (List.length lines) then ([], col_width)
      else
        let line := nth (Z.to_nat index) lines EmptyString in
        let width := font_print line in
        let col_width := if col_width <? width then width else col_width in
        let (out, w) :=
          print_rows n' (r + 1) col rows lines pt_x
            (to_ssize (to_size (pt_y + font_height))) col_width in
        ((pt_x, pt_y, line) :: out, w)
  end.

(** Calculate total width: the outer [for] of the first pass. *)
Fixpoint total_width_from (n : nat) (col rows : Z) (lines : list string)
         (total_width : Z) : Z :=
  match n with
  | O => total_width
  | S n' =>
      let max_width :=
        snd (print_rows (Z.to_nat rows) 0 col rows lines 0 0 0) in
      total_width_from n' (col + 1) rows lines
        (to_size (total_width + max_width))
  end.

(** Print text block: the outer [for] of the second pass. *)
Fixpoint print_columns (n : nat) (col rows : Z) (lines : list string)
         (top_x top_y col_space : Z) : list (Z * Z * string) :=
  match n with
  | O => []
  | S n' =>
      let (out, col_width) :=
        print_rows (Z.to_nat rows) 0 col rows lines top_x top_y 0 in
      out ++ print_columns n' (col + 1) rows lines
               (to_ssize (to_size (top_x + to_size (col_width + col_space))))
               top_y col_space
  end.

(** The result lists the [font_print] calls on the window: point and
    text. *)
Definition canvas_print_center (lines : list string) (c : canvas)
  : option (list (Z * Z * string)) :=
  let lines_num := Z.of_nat (List.length lines) in
  let height := font_height in
  '(columns, rows) <- center_layout lines_num c ;;
  let col_space := font_print "  " in
  let total_width := total_width_from (Z.to_nat columns) 0 rows lines 0 in
  let total_width :=
    to_size (total_width + to_size (col_space * to_size (columns - 1))) in
  (* top left corner of the centered text block *)
  let top_x :=
    if total_width <? swidth (window c)
    then to_ssize (to_size (swidth (window c) / 2 - total_width / 2))
    else TEXT_PADDING in
  let top_y :=
    if to_size (rows * height) <? sheight (window c)
    then to_ssize (to_size (sheight (window c) / 2
                            - to_size (rows * height) / 2))
    else TEXT_PADDING in
  Some (print_columns (Z.to_nat columns) 0 rows lines top_x top_y col_space).

End CanvasPrint.

(** A font of height 20 that is 8 pixels wide per character. *)
Definition mono_width (s : string) : Z := 8 * Z.of_nat (String.length s).

Definition help_lines : list string :=
  ["q: exit"; "f: fullscreen"; "n: next"; "p: previous"; "r: reload"]%string.

(** A window of 800x80 holds two lines of height 20 within the padding. *)
Definition low_window : canvas := canvas_at F32.one 0 0 0 0 800 80.

(** *** Info text *)

Inductive info_position :=
| info_top_left
| info_top_right
| info_bottom_left
| info_bottom_right.

(** A line of the info block; [None] is a null pointer. *)
Record info_line := { key : option string; value : option string }.

(** [key && *key] *)
Definition has_text (text : option string) : bool :=
  match text with
  | Some (String _ _) => true
  | _ => false
  end.

Section CanvasInfo.

(** [font_height()], and the width that [font_print] returns for a text
    that may be a null pointer (font.c). *)
Variable font_height : Z.
Variable font_print : option string -> Z.

Definition colon : option string := Some ": "%string.

(** Calc max width of keys. *)
Definition max_key_width (lines : list info_line) : Z :=
  fold_left
    (fun max_key_width l =>
       if has_text (key l) then
         let width := to_size (font_print (key l) + font_print colon) in
         if width >? max_key_width then width else max_key_width
       else max_key_width)
    lines 0.

(** One turn of the loop that draws the info block: the [font_print]
    calls on the window for line [i], each with its point. *)
Definition print_line (pos : info_position) (c : canvas)
           (lines_num max_key_width i : Z) (l : info_line)
  : list (Z * Z * option string) :=
  let height := font_height in
  let key_width := font_print (key l) in
  let val_width := font_print (value l) in
  let key_width :=
    if negb (key_width =? 0) then to_size (key_width + font_print colon)
    else key_width in
  let keyed := negb (key_width =? 0) in
  (* calculate line position *)
  let top := to_ssize (to_size (TEXT_PADDING + i * height)) in
  let bottom :=
    to_ssize (to_size (sheight (window c) - TEXT_PADDING
                       - height * lines_num + i * height)) in
  let right :=
    to_ssize (to_size (swidth (window c) - TEXT_PADDING - val_width)) in
  let '(pt_key, pt_val) :=
    match pos with
    | info_top_left =>
        if keyed
        then ((TEXT_PADDING, top),
              (to_ssize (to_size (TEXT_PADDING + max_key_width)), top))
        else ((0, 0), (TEXT_PADDING, top))
    | info_top_right =>
        (if keyed then (to_ssize (to_size (right - key_width)), top)
         else (0, 0),
         (right, top))
    | info_bottom_left =>
        if keyed
        then ((TEXT_PADDING, bottom),
              (to_ssize (to_size (TEXT_PADDING + max_key_width)), bottom))
        else ((0, 0), (TEXT_PADDING, bottom))
    | info_bottom_right =>
        (if keyed then (to_ssize (to_size (right - key_width)), bottom)
         else (0, 0),
         (right, bottom))
    end in
  (if keyed then
     [(fst pt_key, snd pt_key, key l);
      (to_ssize (to_size (fst pt_key + font_print (key l))), snd pt_key,
       colon)]
   else [])
  ++ [(fst pt_val, snd pt_val, value l)].

Fixpoint print_lines (pos : info_position) (c : canvas)
         (lines_num max_key_width i : Z) (lines : list info_line)
  : list (Z * Z * option string) :=
  match lines with
  | [] => []
  | l :: rest =>
      print_line pos c lines_num max_key_width i l
      ++ print_lines pos c lines_num max_key_width (i + 1) rest
  end.

Definition canvas_print (lines : list info_line) (pos : info_position)
           (c : canvas) : list (Z * Z * option string) :=
  print_lines pos c (Z.of_nat (List.length lines)) (max_key_width lines)
    0 lines.

End CanvasInfo.

(** The width of a text that may be absent, in the font of
    [mono_width]. *)
Definition mono_width_opt (text : option string) : Z :=
  match text with
  | Some s => mono_width s
  | None => 0
  end.

Definition info_lines : list info_line :=
  [{| key := Some "File"%string; value := Some "a.png"%string |};
   {| key := None; value := Some "100%"%string |};
   {| key := Some "Image size"%string; value := Some "10x10"%string |}].

(** The state that [far_drag_run] ends in. *)
Definition far_dragged : canvas :=
  canvas_at F32.one (-350) (-50) 200 200 100 100.

End Canvas.

(** ** The application: event queue and main loop ([src/application.c])

    The mutex [events_lock] serialises the queue operations; each operation
    below is one such critical section, so the model is their sequential
    interleaving.

    Modelled from the spec: the intrusive list of list.h is a Rocq list,
    [list_append] adding at the tail and the drain loop taking the head
    ("appends to the tail of a shared intrusive list", "pop the head
    node"); the notification of [event_signal] is the count of its raises
    since the last reset. *)

Module App.

Import CInt.

(** Main loop state *)
Inductive loop_state := loop_run | loop_stop | loop_error.

(** Modelled from the spec: the action types of keybind.h that
    application.c names, whatever else the table holds being
    [action_other]. *)
Inductive action_type :=
| action_info
| action_status
| action_fullscreen
| action_help
| action_exit
| action_reload
| action_other (id : nat).

Record action := { type : action_type; params : string }.

(** Modelled from the spec: [struct event] of application.h, "a tagged
    union of variants: redraw, resize, drag {dx, dy: int}, activate
    {index}, load {image, index}, action".  An image is known by its
    handle. *)
Inductive event :=
| event_redraw
| event_resize
| event_drag (dx dy : Z)
| event_activate (index : Z)
| event_load (image : Z) (index : Z)
| event_action (a : action).

Definition is_redraw (e : event) : bool :=
  match e with event_redraw => true | _ => false end.
Definition is_drag (e : event) : bool :=
  match e with event_drag _ _ => true | _ => false end.

(** A callback is known by its identity: the queue handler of this file,
    or a function of another module. *)
Inductive fd_callback := handle_event_queue_cb | extern_cb (id : nat).

(** File descriptor and its handler. *)
Record watchfd := { fd : Z; data : Z; callback : fd_callback }.

(** Event handler for the current mode, a pointer to one of two
    functions. *)
Inductive event_handler := viewer_handle | gallery_handle.

(** What [poll] reports in one cycle: the [POLLIN] bit of each [revents],
    an interruption ([EINTR]) or another failure. *)
Inductive poll_result :=
| poll_ready (revents : list bool)
| poll_eintr
| poll_failed.

Definition is_run (s : loop_state) : bool :=
  match s with loop_run => true | _ => false end.
Definition is_error (s : loop_state) : bool :=
  match s with loop_error => true | _ => false end.

Section Application.

(** State of the collaborators (info, ui, viewer, gallery, the
    allocator), reached only through their interfaces. *)
Variable World : Type.

(** Application context; [notification] counts the
    [notification_raise] calls on [event_signal] since its last reset. *)
Record application := {
  state : loop_state;
  wfds : list watchfd;
  events : list event;
  notification : nat;
  ehandler : event_handler;
  world : World
}.

Definition set_state (a : application) (s : loop_state) : application :=
  {| state := s; wfds := wfds a; events := events a;
     notification := notification a; ehandler := ehandler a;
     world := world a |}.
Definition set_wfds (a : application) (l : list watchfd) : application :=
  {| state := state a; wfds := l; events := events a;
     notification := notification a; ehandler := ehandler a;
     world := world a |}.
Definition set_events (a : application) (q : list event) : application :=
  {| state := state a; wfds := wfds a; events := q;
     notification := notification a; ehandler := ehandler a;
     world := world a |}.
Definition set_notification (a : application) (n : nat) : application :=
  {| state := state a; wfds := wfds a; events := events a;
     notification := n; ehandler := ehandler a; world := world a |}.
Definition set_world (a : application) (w : World) : application :=
  {| state := state a; wfds := wfds a; events := events a;
     notification := notification a; ehandler := ehandler a;
     world := w |}.

(** Whether [malloc], [calloc] or [realloc] succeeds. *)
Variable alloc_ok : World -> bool.
Variable info_switch : string -> World -> World.
Variable info_update_status : string -> World -> World.
Variable info_switch_help : World -> World.
Variable info_help_active : World -> bool.
Variable ui_toggle_fullscreen : World -> World.

(** [viewer_handle] and [gallery_handle]; they may call back into the
    functions of this file. *)
Variable handle : event_handler -> event -> application -> application.

(** The callbacks that other modules register with [app_watch]; [None]
    when the call does not come back. *)
Variable extern_callback : nat -> application -> option application.

Definition app_exit (rc : Z) (a : application) : application :=
  set_state a (if rc =? 0 then loop_stop else loop_error).

(** Append event to queue. *)
Definition append_event (ev : event) (a : application) : application :=
  if alloc_ok (world a) then
    (* add to queue tail *)
    let a := set_events a (events a ++ [ev]) in
    set_notification a (S (notification a))
  else a.

(** The scan of [app_redraw]: [None] when the first redraw entry is the
    last entry of the list, else the list without its first redraw
    entry. *)
Fixpoint remove_redraw (q : list event) : option (list event) :=
  match q with
  | [] => Some []
  | it :: rest =>
      if is_redraw it then
        match rest with
        | [] => None
        | _ :: _ => Some rest
        end
      else
        match remove_redraw rest with
        | Some rest' => Some (it :: rest')
        | None => None
        end
  end.

Definition app_redraw (a : application) : application :=
  (* remove the same event to append new one to tail *)
  match remove_redraw (events a) with
  | None => a
  | Some q => append_event event_redraw (set_events a q)
  end.

Definition app_on_resize (a : application) : application :=
  append_event event_resize a.

Definition app_reload (a : application) : application :=
  append_event
    (event_action {| type := action_reload; params := EmptyString |}) a.

Definition app_on_load (image index : Z) (a : application) : application :=
  append_event (event_load image index) a.

(** The scan of [app_on_drag]: the list with [dx], [dy] added to its
    first drag entry; [None] when it has no drag entry.  The inner
    option is the [int] addition. *)
Fixpoint merge_drag (dx dy : Z) (q : list event)
  : option (option (list event)) :=
  match q with
  | [] => None
  | event_drag x0 y0 :: rest =>
      Some (nx <- int_checked (x0 + dx) ;;
            ny <- int_checked (y0 + dy) ;;
            Some (event_drag nx ny :: rest))
  | it :: rest =>
      match merge_drag dx dy rest with
      | Some r => Some (rest' <- r ;; Some (it :: rest'))
      | None => None
      end
  end.

Definition app_on_drag (dx dy : Z) (a : application) : option application :=
  (* merge with existing event *)
  match merge_drag dx dy (events a) with
  | Some r => q <- r ;; Some (set_events a q)
  | None => Some (append_event (event_drag dx dy) a)
  end.

(** Apply common action: the flag tells whether the action was
    handled. *)
Definition apply_common_action (act : action) (a : application)
  : bool * application :=
  match type act with
  | action_info =>
      (true, app_redraw (set_world a (info_switch (params act) (world a))))
  | action_status =>
      (true, app_redraw
               (set_world a (info_update_status (params act) (world a))))
  | action_fullscreen =>
      (true, set_world a (ui_toggle_fullscreen (world a)))
  | action_help =>
      (true, app_redraw (set_world a (info_switch_help (world a))))
  | action_exit =>
      if info_help_active (world a)
      then (true, app_redraw (set_world a (info_switch_help (world a))))
      else (true, app_exit 0 a)
  | _ => (false, a)
  end.

(** The body of one turn of the drain loop, on the entry taken from the
    head of the queue. *)
Definition dispatch_event (entry : event) (a : application) : application :=
  match entry with
  | event_action act =>
      let (handled, a') := apply_common_action act a in
      if handled then a' else handle (ehandler a') entry a'
  | _ => handle (ehandler a) entry a
  end.

(** The loop of [handle_event_queue], with the events it handed out in
    order; [None] when [fuel] turns do not empty the queue. *)
Fixpoint drain (fuel : nat) (a : application)
  : option (application * list event) :=
  match events a with
  | [] => Some (a, [])
  | entry :: rest =>
      if is_run (state a) then
        match fuel with
        | O => None
        | S fuel' =>
            match drain fuel' (dispatch_event entry (set_events a rest)) with
            | Some (a', out) => Some (a', entry :: out)
            | None => None
            end
        end
      else Some (a, [])
  end.

(** Notification callback: handle event queue. *)
Definition handle_event_queue (fuel : nat) (a : application)
  : option (application * list event) :=
  drain fuel (set_notification a 0).

Definition app_watch (fd : Z) (cb : fd_callback) (data : Z)
           (a : application) : application :=
  if alloc_ok (world a)
  then set_wfds a (wfds a ++ [{| fd := fd; data := data; callback := cb |}])
  else a.

Definition invoke (fuel : nat) (w : watchfd) (a : application)
  : option application :=
  match callback w with
  | handle_event_queue_cb =>
      match handle_event_queue fuel a with
      | Some (a', _) => Some a'
      | None => None
      end
  | extern_cb id => extern_callback id a
  end.

(** The [for] loop of [app_run] from index [i] on, [fds] being the
    entries [i], [i+1], ... of the poll array.  The result lists the
    callbacks called, each with the loop state it left.  Reading past
    the end of the array is [None]. *)
Fixpoint call_handlers (fuel : nat) (i : nat) (fds : list bool)
         (a : application)
  : option (application * list (nat * loop_state)) :=
  if is_run (state a) && (i <? List.length (wfds a))%nat then
    match fds with
    | [] => None
    | pollin :: fds' =>
        if pollin then
          match nth_error (wfds a) i with
          | Some w =>
              match invoke fuel w a with
              | Some a' =>
                  match call_handlers fuel (S i) fds' a' with
                  | Some (a'', calls) => Some (a'', (i, state a') :: calls)
                  | None => None
                  end
              | None => None
              end
          | None => None
          end
        else call_handlers fuel (S i) fds' a
    end
  else Some (a, []).

(** The [while] loop of [app_run] over a script of [poll] results.
    [ui_event_prepare] and [ui_event_done] do not touch the context.  An
    interrupted [poll] has found no descriptor ready and stores 0 in every
    [revents], so the [for] loop that follows it calls nothing.  [None]:
    the script ends while the loop still waits, a callback does not come
    back, or [poll] is called with more descriptors than the array
    holds. *)
Fixpoint main_loop (fuel : nat) (polls : list poll_result)
         (fds : list bool) (a : application)
  : option (application * list (nat * loop_state)) :=
  if is_run (state a) then
    match polls with
    | [] => None
    | p :: polls' =>
        if negb (List.length (wfds a) =? List.length fds)%nat then None
        else
          let cycle (fds : list bool) :=
            match call_handlers fuel 0 fds a with
            | Some (a', calls) =>
                match main_loop fuel polls' fds a' with
                | Some (a'', calls') => Some (a'', calls ++ calls')
                | None => None
                end
            | None => None
            end in
          match p with
          | poll_failed => Some (set_state a loop_error, [])
          | poll_eintr => cycle (map (fun _ => false) fds)
          | poll_ready revents =>
              if (List.length revents =? List.length fds)%nat then cycle revents
              else None
          end
    end
  else Some (a, []).

Definition app_run (fuel : nat) (polls : list poll_result)
           (a : application)
  : option (bool * application * list (nat * loop_state)) :=
  if alloc_ok (world a) then
    (* file descriptors to poll *)
    let fds := map (fun _ => false) (wfds a) in
    (* main event loop *)
    match main_loop fuel polls fds (set_state a loop_run) with
    | Some (a', calls) => Some (negb (is_error (state a')), a', calls)
    | None => None
    end
  else Some (false, a, []).

(** *** Vocabulary of the properties *)

(** The handlers of both modes leave the queue and the loop state alone. *)
Definition quiet_handlers : Prop :=
  forall h ev a,
    events (handle h ev a) = events a /\ state (handle h ev a) = state a.

(** At most one redraw entry and at most one drag entry. *)
Definition tidy (q : list event) : Prop :=
  (List.length (filter is_redraw q) <= 1)%nat
  /\ (List.length (filter is_drag q) <= 1)%nat.

(** [app_redraw] and [app_on_drag] hold [events_lock] while they scan the
    queue, release it, and [append_event] takes it again.  The queue is
    therefore followed one locked section at a time: the context together
    with the events of the producers that stand between their scan and
    their [append_event]. *)
Record queue_state := { ctx : application; in_flight : list event }.

(** What can happen in one locked section: a producer without a scan
    appends its event ([app_on_resize], [app_reload], [app_on_load],
    [on_signal], [app_on_keyboard]); the scan of [app_redraw] finds the
    redraw entry last and returns, or removes the entry it finds and goes
    on to append; the scan of [app_on_drag] merges into the entry it
    finds, or finds none and goes on to append; a producer that went on
    appends; the drain loop takes the head; or something else happens
    that leaves the queue alone. *)
Inductive queue_step : queue_state -> queue_state -> Prop :=
| qs_append (ev : event) (a : application) (fl : list event) :
    is_redraw ev = false -> is_drag ev = false ->
    queue_step {| ctx := a; in_flight := fl |}
               {| ctx := append_event ev a; in_flight := fl |}
| qs_redraw_last (a : application) (fl : list event) :
    remove_redraw (events a) = None ->
    queue_step {| ctx := a; in_flight := fl |}
               {| ctx := a; in_flight := fl |}
| qs_redraw_scan (a : application) (fl q : list event) :
    remove_redraw (events a) = Some q ->
    queue_step {| ctx := a; in_flight := fl |}
               {| ctx := set_events a q; in_flight := event_redraw :: fl |}
| qs_drag_merge (dx dy : Z) (a : application) (fl q : list event) :
    merge_drag dx dy (events a) = Some (Some q) ->
    queue_step {| ctx := a; in_flight := fl |}
               {| ctx := set_events a q; in_flight := fl |}
| qs_drag_scan (dx dy : Z) (a : application) (fl : list event) :
    merge_drag dx dy (events a) = None ->
    queue_step {| ctx := a; in_flight := fl |}
               {| ctx := a; in_flight := event_drag dx dy :: fl |}
| qs_in_flight (ev : event) (a : application) (fl1 fl2 : list event) :
    queue_step {| ctx := a; in_flight := fl1 ++ ev :: fl2 |}
               {| ctx := append_event ev a; in_flight := fl1 ++ fl2 |}
| qs_pop (entry : event) (rest : list event) (a : application)
         (fl : list event) :
    events a = entry :: rest ->
    queue_step {| ctx := a; in_flight := fl |}
               {| ctx := set_events a rest; in_flight := fl |}
| qs_other (a a' : application) (fl : list event) :
    events a' = events a ->
    queue_step {| ctx := a; in_flight := fl |}
               {| ctx := a'; in_flight := fl |}.

(** The runs in which at most [n] producers stand between their scan and
    their [append_event] at any time. *)
Inductive queue_steps (n : nat) : queue_state -> queue_state -> Prop :=
| qs_refl (s : queue_state) : queue_steps n s s
| qs_then (s1 s2 s3 : queue_state) :
    queue_steps n s1 s2 -> queue_step s2 s3 ->
    (List.length (in_flight s3) <= n)%nat ->
    queue_steps n s1 s3.

(** The entries that are queued or about to be. *)
Definition pending (s : queue_state) : list event :=
  events (ctx s) ++ in_flight s.

(** Once a callback has left the loop state other than [loop_run], it is
    the last callback called and the loop ends in the state it left. *)
Fixpoint halts_at_end (calls : list (nat * loop_state)) (final : loop_state)
  : Prop :=
  match calls with
  | [] => True
  | (_, loop_run) :: rest => halts_at_end rest final
  | (_, st) :: rest => rest = [] /\ final = st
  end.

(** *** Producers of action events, mode switch and command output *)

(** The signal numbers that [on_signal] tells apart. *)
Inductive signal := SIGUSR1 | SIGUSR2 | SIG_other.

(** The loops of [on_signal] and [app_on_keyboard]: one action event per
    action of the sequence, in order. *)
Definition append_actions (seq : list action) (a : application)
  : application :=
  fold_left (fun a act => append_event (event_action act) a) seq a.

(** POSIX Signal handler.  [ctx.sigusr1] and [ctx.sigusr2] are written by
    [load_config] only and are passed as arguments. *)
Definition on_signal (sigusr1 sigusr2 : list action) (signum : signal)
           (a : application) : application :=
  match signum with
  | SIGUSR1 => append_actions sigusr1 a
  | SIGUSR2 => append_actions sigusr2 a
  | SIG_other => a
  end.

(** [keybind_find] gives the action sequence of a binding, [keybind_name]
    the name of a key, when it can allocate it. *)
Variable keybind_find : Z -> Z -> option (list action).
Variable keybind_name : Z -> Z -> option string.

Definition app_on_keyboard (key mods : Z) (a : application) : application :=
  match keybind_find key mods with
  | Some actions => append_actions actions a
  | None =>
      match keybind_name key mods with
      | Some name =>
          app_redraw
            (set_world a
               (info_update_status ("Key " ++ name ++ " is not bound")
                  (world a)))
      | None => a
      end
  end.

Definition set_ehandler (a : application) (h : event_handler) : application :=
  {| state := state a; wfds := wfds a; events := events a;
     notification := notification a; ehandler := h; world := world a |}.

Variable info_enabled : World -> bool.

(** The mode names of config.h. *)
Variable CFG_MODE_GALLERY : string.
Variable CFG_MODE_VIEWER : string.

Definition app_switch_mode (index : Z) (a : application) : application :=
  let (h, info_mode) :=
    match ehandler a with
    | viewer_handle => (gallery_handle, CFG_MODE_GALLERY)
    | gallery_handle => (viewer_handle, CFG_MODE_VIEWER)
    end in
  let a := set_ehandler a h in
  let a := handle (ehandler a) (event_activate index) a in
  let a := if info_enabled (world a)
           then set_world a (info_switch info_mode (world a)) else a in
  let a := if info_help_active (world a)
           then set_world a (info_switch_help (world a)) else a in
  app_redraw a.

Definition app_is_viewer (a : application) : bool :=
  match ehandler a with viewer_handle => true | gallery_handle => false end.

(** [shellcmd_expr]: the return code and the output, if any. *)
Variable shellcmd_expr : string -> string -> World -> Z * option string.
(** The text of [%d] and of [strerror]. *)
Variable show_int : Z -> string.
Variable strerror : Z -> string.

(** Trim long output text: [memcpy] writes the ellipsis and its
    terminator over the bytes 56 to 59. *)
Definition trim_output (out : string) : string :=
  let max_len := 60%nat in
  if (max_len <? String.length out)%nat then
    let ellipsis := "..."%string in
    let ellipsis_len := (String.length ellipsis + 1)%nat in
    (substring 0 (max_len - ellipsis_len) out ++ ellipsis)%string
  else out.

(** The result carries what is printed on [stdout]. *)
Definition app_execute (expr path : string) (a : application)
  : option string * application :=
  let (rc, out) := shellcmd_expr expr path (world a) in
  let shown := option_map trim_output out in
  (* show execution status *)
  let msg :=
    if negb (rc =? 0) then
      ("Error " ++ show_int rc ++ ": "
         ++ match shown with Some o => o | None => strerror rc end)%string
    else
      match shown with
      | Some o => o
      | None => ("Success: " ++ expr)%string
      end in
  (out, app_redraw (set_world a (info_update_status msg (world a)))).

(** *** More vocabulary *)

(** An event that the drain loop passes to the handler of the mode. *)
Definition for_handler (e : event) : bool :=
  match e with
  | event_action act =>
      match type act with
      | action_info | action_status | action_fullscreen
      | action_help | action_exit => false
      | _ => true
      end
  | _ => true
  end.

(** Drag reports one after the other. *)
Fixpoint app_on_drags (ds : list (Z * Z)) (a : application)
  : option application :=
  match ds with
  | [] => Some a
  | (dx, dy) :: rest => a' <- app_on_drag dx dy a ;; app_on_drags rest a'
  end.

(** The running sums of the deltas, from [(x, y)] on, are [int] values. *)
Fixpoint drag_sums_ok (x y : Z) (ds : list (Z * Z)) : Prop :=
  match ds with
  | [] => True
  | (dx, dy) :: rest =>
      is_int (x + dx) /\ is_int (y + dy)
      /\ drag_sums_ok (x + dx) (y + dy) rest
  end.

Definition sum_dx (ds : list (Z * Z)) : Z := fold_right Z.add 0 (map fst ds).
Definition sum_dy (ds : list (Z * Z)) : Z := fold_right Z.add 0 (map snd ds).

End Application.

Arguments state {World}.
Arguments wfds {World}.
Arguments events {World}.
Arguments notification {World}.
Arguments ehandler {World}.
Arguments world {World}.
Arguments set_state {World}.
Arguments set_wfds {World}.
Arguments set_events {World}.
Arguments set_notification {World}.
Arguments set_world {World}.
Arguments app_exit {World}.
Arguments set_ehandler {World}.
Arguments ctx {World}.
Arguments in_flight {World}.
Arguments Build_queue_state {World}.
Arguments pending {World}.
Arguments app_is_viewer {World}.

Definition is_action (e : event) : bool :=
  match e with event_action _ => true | _ => false end.

(** *** A closed instance: no collaborator state, allocation succeeds *)

Definition app0 : application unit :=
  {| state := loop_run; wfds := []; events := []; notification := 0;
     ehandler := viewer_handle; world := tt |}.

Definition always_ok (_ : unit) : bool := true.
Definition no_info (_ : string) (w : unit) : unit := w.
Definition no_effect (w : unit) : unit := w.
Definition no_help (_ : unit) : bool := false.
Definition quiet_handle (_ : event_handler) (_ : event)
           (a : application unit) : application unit := a.

(** Callback 1 calls [app_exit(1)]; the others do nothing. *)
Definition exit_callback (id : nat) (a : application unit)
  : option (application unit) :=
  match id with
  | 1%nat => Some (app_exit 1 a)
  | _ => Some a
  end.

(** Callback 1 calls [app_exit(rc)]; the others do nothing. *)
Definition exit_with (rc : Z) (id : nat) (a : application unit)
  : option (application unit) :=
  match id with
  | 1%nat => Some (app_exit rc a)
  | _ => Some a
  end.

(** Three watched descriptors, registered before the loop starts. *)
Definition three_watchers : application unit :=
  app_watch unit always_ok 12 (extern_cb 2) 0
    (app_watch unit always_ok 11 (extern_cb 1) 0
       (app_watch unit always_ok 10 (extern_cb 0) 0 app0)).

Definition run_three (polls : list poll_result)
  : option (bool * application unit * list (nat * loop_state)) :=
  app_run unit always_ok no_info no_info no_effect no_help no_effect
    quiet_handle exit_callback 0 polls three_watchers.

(** An exit action and two actions of the modes, with a key bound to the
    latter two. *)
Definition exit_action : action :=
  {| type := action_exit; params := EmptyString |}.
Definition reload_action : action :=
  {| type := action_reload; params := EmptyString |}.
Definition next_action : action :=
  {| type := action_other 7; params := "next" |}.
Definition demo_keybind (key mods : Z) : option (list action) :=
  if (key =? 113) && (mods =? 0) then Some [reload_action; next_action]
  else None.
Definition no_name (_ _ : Z) : option string := None.

(** A queue as [app_on_resize], [app_redraw], [app_on_load] leave it. *)
Definition pending_redraw : application unit :=
  {| state := loop_run; wfds := [];
     events := [event_resize; event_redraw; event_load 1 0];
     notification := 3; ehandler := viewer_handle; world := tt |}.

(** The allocator out of memory. *)
Definition never_ok (_ : unit) : bool := false.

(** An exit action at the head of the queue, a resize behind it. *)
Definition exit_pending : application unit :=
  {| state := loop_run; wfds := [];
     events := [event_action exit_action; event_resize];
     notification := 2; ehandler := viewer_handle; world := tt |}.

(** A command that writes its own text and succeeds. *)
Definition echo_cmd (expr _ : string) (_ : unit) : Z * option string :=
  (0, Some expr).
Definition no_text (_ : Z) : string := EmptyString.

End App.

(** * Properties of the binary32 operations *)

Module F32Facts.

Lemma digits2_pos_bounds (p : positive) :
  2 ^ (Zpos (digits2_pos p) - 1) <= Zpos p < 2 ^ Zpos (digits2_pos p).
Proof.
  induction p as [p IH|p IH|]; cbn [digits2_pos].
  - rewrite Pos2Z.inj_succ.
    replace (Z.succ (Zpos (digits2_pos p)) - 1) with (Zpos (digits2_pos p)) by lia.
    rewrite Z.pow_succ_r by lia.
    assert (2 ^ Zpos (digits2_pos p)
            = 2 * 2 ^ (Zpos (digits2_pos p) - 1)) as E.
    { rewrite <- Z.pow_succ_r by lia. f_equal. lia. }
    lia.
  - rewrite Pos2Z.inj_succ.
    replace (Z.succ (Zpos (digits2_pos p)) - 1) with (Zpos (digits2_pos p)) by lia.
    rewrite Z.pow_succ_r by lia.
    assert (2 ^ Zpos (digits2_pos p)
            = 2 * 2 ^ (Zpos (digits2_pos p) - 1)) as E.
    { rewrite <- Z.pow_succ_r by lia. f_equal. lia. }
    lia.
  - cbn. lia.
Qed.

(** A number below [2 ^ k] has at most [k] binary digits. *)
Lemma digits2_pos_le (p : positive) (k : Z) :
  0 <= k -> Zpos p < 2 ^ k -> Zpos (digits2_pos p) <= k.
Proof.
  intros Hk Hp. destruct (Z.le_gt_cases (Zpos (digits2_pos p)) k) as [|Hgt];
    [assumption|].
  pose proof (digits2_pos_bounds p) as [Hlo _].
  assert (2 ^ k <= 2 ^ (Zpos (digits2_pos p) - 1)).
  { apply Z.pow_le_mono_r; lia. }
  lia.
Qed.

Lemma shr_1_m (mrs : shr_record) :
  0 <= shr_m mrs -> shr_m (shr_1 mrs) = shr_m mrs / 2.
Proof.
  destruct mrs as [m r s]. cbn [shr_m]. intros Hm.
  destruct m as [|[p|p|]|p]; cbn [shr_1 shr_m]; try lia.
  - reflexivity.
  - rewrite Pos2Z.inj_xI.
    apply (Z.div_unique_pos _ _ _ 1); lia.
  - rewrite Pos2Z.inj_xO.
    apply (Z.div_unique_pos _ _ _ 0); lia.
  - reflexivity.
Qed.

Lemma shr_iter_m (n : positive) :
  forall mrs, 0 <= shr_m mrs ->
    shr_m (iter_pos shr_1 n mrs) = shr_m mrs / 2 ^ Zpos n.
Proof.
  assert (Hnn : forall mrs, 0 <= shr_m mrs -> 0 <= shr_m (shr_1 mrs)).
  { intros mrs H. rewrite shr_1_m by assumption.
    apply Z.div_pos; lia. }
  induction n as [n IH|n IH|]; intros mrs Hm; cbn [iter_pos].
  - rewrite IH.
    2:{ rewrite IH by auto. apply Z.div_pos; [auto|]. apply Z.pow_pos_nonneg; lia. }
    rewrite IH by auto. rewrite shr_1_m by assumption.
    rewrite !Z.div_div by (try apply Z.pow_pos_nonneg; lia).
    f_equal. change (Zpos n~1) with (2 * Zpos n + 1).
    replace (2 * Zpos n + 1) with (1 + Zpos n + Zpos n) by lia.
    rewrite !Z.pow_add_r by lia. lia.
  - rewrite IH.
    2:{ rewrite IH by auto. apply Z.div_pos; [auto|]. apply Z.pow_pos_nonneg; lia. }
    rewrite IH by auto.
    rewrite !Z.div_div by (try apply Z.pow_pos_nonneg; lia).
    f_equal. change (Zpos n~0) with (2 * Zpos n).
    replace (2 * Zpos n) with (Zpos n + Zpos n) by lia.
    rewrite !Z.pow_add_r by lia. lia.
  - rewrite shr_1_m by assumption. reflexivity.
Qed.

Lemma shr_record_of_loc_m (m : Z) (l : location) :
  shr_m (shr_record_of_loc m l) = m.
Proof. destruct l as [|[| |]]; reflexivity. Qed.

Lemma round_nearest_even_bounds (m : Z) (l : location) :
  m <= round_nearest_even m l <= m + 1.
Proof.
  destruct l as [|[| |]]; cbn [round_nearest_even];
    try destruct (Z.even m); lia.
Qed.

(** Away from the subnormal range, the alignment shift of binary32 keeps
    a positive mantissa positive and below [2 ^ 24]. *)
Lemma shr_fexp_spec (m : positive) (e : Z) (l : location) :
  -125 <= e ->
  exists mrs,
    shr_fexp F32.prec F32.emax (Zpos m) e l
    = (mrs, Z.max e (Zpos (digits2_pos m) + e - 24))
    /\ 0 < shr_m mrs < 2 ^ 24.
Proof.
  intros He. unfold shr_fexp, fexp, emin, F32.prec, F32.emax.
  cbn [Zdigits2]. set (d := Zpos (digits2_pos m)).
  assert (Hd : 1 <= d) by (unfold d; lia).
  replace (Z.max (d + e - 24) (3 - 128 - 24) - e) with (d - 24) by lia.
  pose proof (digits2_pos_bounds m) as [Hlo Hhi]. fold d in Hlo, Hhi.
  unfold shr. destruct (d - 24) as [|k|k] eqn:Hk.
  - eexists. split; [f_equal; lia|].
    rewrite shr_record_of_loc_m. replace d with 24 in Hhi by lia. lia.
  - eexists. split; [f_equal; lia|].
    rewrite shr_iter_m by (rewrite shr_record_of_loc_m; lia).
    rewrite shr_record_of_loc_m.
    assert (Hp : 0 < 2 ^ Zpos k) by (apply Z.pow_pos_nonneg; lia).
    assert (E1 : 2 ^ (d - 1) = 2 ^ 23 * 2 ^ Zpos k).
    { rewrite <- Z.pow_add_r by lia. f_equal. lia. }
    assert (E2 : 2 ^ d = 2 ^ 24 * 2 ^ Zpos k).
    { rewrite <- Z.pow_add_r by lia. f_equal. lia. }
    split.
    + apply Z.lt_le_trans with (2 ^ 23); [reflexivity|].
      apply Z.div_le_lower_bound; lia.
    + apply Z.div_lt_upper_bound; lia.
  - eexists. split; [f_equal; lia|].
    rewrite shr_record_of_loc_m.
    assert (2 ^ d <= 2 ^ 24) by (apply Z.pow_le_mono_r; lia). lia.
Qed.

(** Rounding a positive mantissa whose exponent is in the normal range
    gives a finite number other than zero, with a mantissa of at most 24
    bits. *)
Lemma binary_round_aux_finite (s : bool) (m : positive) (e : Z) (l : location) :
  -125 <= e <= 103 ->
  Zpos (digits2_pos m) + e <= 127 ->
  exists m' e',
    binary_round_aux F32.prec F32.emax s (Zpos m) e l = S754_finite s m' e'
    /\ e <= e' <= Z.max e (Zpos (digits2_pos m) + e - 24) + 1
    /\ Zpos m' < 2 ^ 24.
Proof.
  intros He Hd. unfold binary_round_aux.
  destruct (shr_fexp_spec m e l) as (mrs & E1 & Hpos & Hlt); [lia|].
  change (2 ^ 24) with 16777216 in Hlt.
  rewrite E1.
  pose proof (round_nearest_even_bounds (shr_m mrs) (loc_of_shr_record mrs))
    as Hr.
  destruct (round_nearest_even (shr_m mrs) (loc_of_shr_record mrs))
    as [|q|q] eqn:Eq; try lia.
  set (e1 := Z.max e (Zpos (digits2_pos m) + e - 24)) in *.
  destruct (shr_fexp_spec q e1 loc_Exact) as (mrs2 & E2 & Hpos2 & Hlt2);
    [unfold e1; lia|].
  rewrite E2.
  destruct (shr_m mrs2) as [|m'|m'] eqn:Em; try lia.
  assert (Hq : Zpos (digits2_pos q) <= 25).
  { apply digits2_pos_le; [lia|]. change (2 ^ 25) with 33554432. lia. }
  unfold F32.emax, F32.prec.
  replace (Z.max e1 (Zpos (digits2_pos q) + e1 - 24) <=? 128 - 24) with true.
  - eexists. eexists. split; [reflexivity|]. split; [lia|exact Hlt2].
  - symmetry. apply Z.leb_le. unfold e1 in *. lia.
Qed.

Lemma digits2_pos_iter_xO (k p : positive) :
  Zpos (digits2_pos (Pos.iter xO p k)) = Zpos (digits2_pos p) + Zpos k.
Proof.
  induction k as [|k IH] using Pos.peano_ind.
  - cbn [Pos.iter digits2_pos]. lia.
  - rewrite Pos.iter_succ. cbn [digits2_pos]. lia.
Qed.

(** Rounding an integer of magnitude below [2 ^ 64] to binary32. *)
Lemma binary_round_int (s : bool) (p : positive) :
  Zpos p < 2 ^ 64 ->
  exists m e,
    binary_round F32.prec F32.emax s p 0 = S754_finite s m e
    /\ -23 <= e <= 41 /\ Zpos m < 2 ^ 24.
Proof.
  intros Hp. unfold binary_round.
  assert (Hd : Zpos (digits2_pos p) <= 64)
    by (apply digits2_pos_le; [lia|assumption]).
  unfold fexp, emin, F32.prec, F32.emax.
  replace (Z.max (Zpos (digits2_pos p) + 0 - 24) (3 - 128 - 24))
    with (Zpos (digits2_pos p) - 24) by lia.
  unfold shl_align.
  destruct (Zpos (digits2_pos p) - 24 - 0) as [|k|k] eqn:Ek.
  - destruct (binary_round_aux_finite s p 0 loc_Exact)
      as (m & e & E & He & Hm); [lia|lia|].
    exists m, e. split; [exact E|]. split; [lia|exact Hm].
  - destruct (binary_round_aux_finite s p 0 loc_Exact)
      as (m & e & E & He & Hm); [lia|lia|].
    exists m, e. split; [exact E|]. split; [lia|exact Hm].
  - destruct (binary_round_aux_finite s (Pos.iter xO p k)
                (Zpos (digits2_pos p) - 24) loc_Exact)
      as (m & e & E & He & Hm).
    + lia.
    + rewrite digits2_pos_iter_xO. lia.
    + rewrite digits2_pos_iter_xO in He.
      exists m, e. split; [exact E|]. split; [lia|exact Hm].
Qed.

(** The conversion of a positive integer below [2 ^ 64] to [float] is a
    finite number other than zero. *)
Lemma of_Z_finite_nonzero (z : Z) :
  1 <= z < 2 ^ 64 -> F32.is_finite_nonzero (F32.of_Z z) = true.
Proof.
  intros Hz. destruct z as [|p|p]; try lia.
  unfold F32.of_Z, binary_normalize.
  destruct (binary_round_int false p) as (m & e & E & _); [lia|].
  rewrite E. reflexivity.
Qed.

(** The conversion of an integer of magnitude below [2 ^ 64]. *)
Lemma of_Z_shape (z : Z) :
  - 2 ^ 64 < z < 2 ^ 64 ->
  F32.of_Z z = S754_zero false
  \/ exists s m e, F32.of_Z z = S754_finite s m e
                   /\ -23 <= e <= 41 /\ Zpos m < 2 ^ 24.
Proof.
  intros Hz. unfold F32.of_Z, binary_normalize. destruct z as [|p|p].
  - left. reflexivity.
  - right. destruct (binary_round_int false p) as (m & e & E); [lia|].
    exists false, m, e. exact E.
  - right. destruct (binary_round_int true p) as (m & e & E); [lia|].
    exists true, m, e. exact E.
Qed.

Lemma Zdigits2_bound (z : Z) : 0 <= z -> z < 2 ^ Zdigits2 z.
Proof.
  intros Hz. destruct z as [|p|p]; [reflexivity| |lia].
  cbn [Zdigits2]. apply digits2_pos_bounds.
Qed.

Lemma Zdigits2_le (z k : Z) : 0 <= k -> 0 <= z < 2 ^ k -> Zdigits2 z <= k.
Proof.
  intros Hk Hz. destruct z as [|p|p]; [exact Hk| |lia].
  cbn [Zdigits2]. apply digits2_pos_le; lia.
Qed.

Lemma Zdigits2_nonneg (z : Z) : 0 <= Zdigits2 z.
Proof. destruct z; cbn; lia. Qed.

(** The alignment shift at any exponent: the mantissa stays below
    [2 ^ 24] and the exponent is bounded. *)
Lemma shr_fexp_gen (mz e : Z) (l : location) :
  0 <= mz ->
  exists mrs e1,
    shr_fexp F32.prec F32.emax mz e l = (mrs, e1)
    /\ 0 <= shr_m mrs < 2 ^ 24
    /\ e1 <= Z.max e (Z.max (Zdigits2 mz + e - 24) (-149)).
Proof.
  intros Hm. unfold shr_fexp, fexp, emin, F32.prec, F32.emax.
  pose proof (Zdigits2_bound mz Hm) as Hhi.
  pose proof (Zdigits2_nonneg mz) as Hd0.
  set (d := Zdigits2 mz) in *.
  replace (3 - 128 - 24) with (-149) by reflexivity.
  unfold shr.
  destruct (Z.max (d + e - 24) (-149) - e) as [|k|k] eqn:Hk.
  - eexists. eexists. split; [reflexivity|].
    rewrite shr_record_of_loc_m.
    assert (2 ^ d <= 2 ^ 24) by (apply Z.pow_le_mono_r; lia). lia.
  - eexists. eexists. split; [reflexivity|].
    rewrite shr_iter_m by (rewrite shr_record_of_loc_m; lia).
    rewrite shr_record_of_loc_m.
    assert (Hp : 0 < 2 ^ Zpos k) by (apply Z.pow_pos_nonneg; lia).
    split; [split|].
    + apply Z.div_pos; lia.
    + apply Z.div_lt_upper_bound; [lia|].
      rewrite <- Z.pow_add_r by lia.
      assert (2 ^ d <= 2 ^ (Zpos k + 24))
        by (apply Z.pow_le_mono_r; lia).
      lia.
    + lia.
  - eexists. eexists. split; [reflexivity|].
    rewrite shr_record_of_loc_m.
    assert (2 ^ d <= 2 ^ 24) by (apply Z.pow_le_mono_r; lia). lia.
Qed.

(** Rounding does not overflow when the exponent and the magnitude are
    within the range of binary32. *)
Lemma binary_round_aux_no_overflow (s : bool) (mz ez : Z) (l : location) :
  0 <= mz -> ez <= 103 -> Zdigits2 mz + ez <= 127 ->
  F32.is_finite (binary_round_aux F32.prec F32.emax s mz ez l) = true.
Proof.
  intros Hm He Hd. unfold binary_round_aux.
  destruct (shr_fexp_gen mz ez l Hm) as (mrs & e1 & E1 & Hm1 & He1).
  rewrite E1.
  change (2 ^ 24) with 16777216 in Hm1.
  pose proof (round_nearest_even_bounds (shr_m mrs) (loc_of_shr_record mrs))
    as Hr.
  set (m2 := round_nearest_even (shr_m mrs) (loc_of_shr_record mrs)) in *.
  destruct (shr_fexp_gen m2 e1 loc_Exact) as (mrs2 & e2 & E2 & Hm2 & He2);
    [lia|].
  rewrite E2.
  assert (Hd2 : Zdigits2 m2 <= 25).
  { apply Zdigits2_le; [lia|]. change (2 ^ 25) with 33554432. lia. }
  destruct (shr_m mrs2) as [|m'|m'] eqn:Em; [reflexivity| |lia].
  unfold F32.emax, F32.prec.
  replace (e2 <=? 128 - 24) with true; [reflexivity|].
  symmetry. apply Z.leb_le. lia.
Qed.

(** A quotient of two integers converted to [float], the divisor not
    zero, is finite. *)
Lemma div_is_finite (sa sb : bool) (ma mb : positive) (ea eb : Z) :
  ea <= 41 -> Zpos ma < 2 ^ 24 -> -23 <= eb ->
  F32.is_finite
    (F32.div (S754_finite sa ma ea) (S754_finite sb mb eb)) = true.
Proof.
  intros Hea Hma Heb. unfold F32.div, SFdiv, SFdiv_core_binary.
  set (e' := Z.min _ (ea - eb)).
  assert (He' : e' <= ea - eb) by (unfold e'; lia).
  set (m' := match ea - eb - e' with
             | 0 => Zpos ma
             | Zpos _ => Z.shiftl (Zpos ma) (ea - eb - e')
             | Zneg _ => 0
             end).
  assert (Hm' : 0 <= m' < 2 ^ (24 + (ea - eb - e'))).
  { unfold m'. destruct (ea - eb - e') as [|k|k] eqn:Ek; try lia.
    - rewrite Z.shiftl_mul_pow2 by lia.
      rewrite Z.pow_add_r by lia.
      assert (0 < 2 ^ Zpos k) by (apply Z.pow_pos_nonneg; lia).
      nia. }
  pose proof (Z_div_mod m' (Zpos mb) ltac:(lia)) as Hdm.
  destruct (Z.div_eucl m' (Zpos mb)) as [q r].
  destruct Hdm as [Hq Hr].
  assert (Hq0 : 0 <= q <= m') by nia.
  apply binary_round_aux_no_overflow.
  - lia.
  - lia.
  - assert (Zdigits2 q <= 24 + (ea - eb - e'))
      by (apply Zdigits2_le; lia).
    lia.
Qed.

Lemma to_size_some_range (a : spec_float) (z : Z) :
  F32.to_size a = Some z -> 0 <= z < 2 ^ 64.
Proof.
  unfold F32.to_size. destruct (F32.trunc a) as [t|]; [|discriminate].
  destruct ((0 <=? t) && (t <? CInt.size_mod)) eqn:Hb; [|discriminate].
  intros E. injection E as <-.
  apply andb_true_iff in Hb. destruct Hb as [H1 H2].
  apply Z.leb_le in H1. apply Z.ltb_lt in H2.
  unfold CInt.size_mod in H2. lia.
Qed.

Lemma to_ssize_not_finite (a : spec_float) :
  match a with S754_infinity _ | S754_nan => True | _ => False end ->
  F32.to_ssize a = None.
Proof. destruct a; intros H; try contradiction; reflexivity. Qed.

Lemma SFltb_irrefl (a : spec_float) : SFltb a a = false.
Proof.
  unfold SFltb, SFcompare.
  destruct a as [s|s| |s m e]; try destruct s; try reflexivity;
    rewrite Z.compare_refl, Pos.compare_cont_refl; reflexivity.
Qed.

End F32Facts.

(** * Rounding: the value of the result of an operation *)

Module FloatFacts.

Import Reals Psatz.
Import CInt F32Facts FVal.

Lemma bpow_gt_0 (e : Z) : (0 < bpow e)%R.
Proof. apply powerRZ_lt. lra. Qed.

Lemma bpow_add (a b : Z) : bpow (a + b) = (bpow a * bpow b)%R.
Proof. apply powerRZ_add. lra. Qed.

Lemma bpow_nonneg_Z (e : Z) : 0 <= e -> bpow e = IZR (2 ^ e).
Proof.
  intros He. unfold bpow. rewrite <- (Z2Nat.id e He) at 1.
  rewrite <- pow_powerRZ, pow_IZR, Z2Nat.id by exact He. reflexivity.
Qed.

Lemma bpow_0 : bpow 0 = 1%R.
Proof. reflexivity. Qed.

Lemma bpow_le (a b : Z) : a <= b -> (bpow a <= bpow b)%R.
Proof.
  intros H. replace b with (a + (b - a)) by lia. rewrite bpow_add.
  rewrite (bpow_nonneg_Z (b - a)) by lia.
  assert (1 <= IZR (2 ^ (b - a)))%R.
  { apply IZR_le. pose proof (Z.pow_pos_nonneg 2 (b - a)). lia. }
  pose proof (bpow_gt_0 a). nra.
Qed.

Lemma bpow_lt (a b : Z) : a < b -> (bpow a < bpow b)%R.
Proof.
  intros H. replace b with (a + (b - a)) by lia. rewrite bpow_add.
  rewrite (bpow_nonneg_Z (b - a)) by lia.
  assert (2 <= IZR (2 ^ (b - a)))%R.
  { apply IZR_le. replace (b - a) with (Z.succ (b - a - 1)) by lia.
    rewrite Z.pow_succ_r by lia.
    pose proof (Z.pow_pos_nonneg 2 (b - a - 1)). lia. }
  pose proof (bpow_gt_0 a). nra.
Qed.

Lemma bpow_succ (a : Z) : bpow (a + 1) = (2 * bpow a)%R.
Proof. rewrite bpow_add, (bpow_nonneg_Z 1) by lia. change (2 ^ 1) with 2. lra. Qed.

Lemma bpow_opp (a : Z) : (bpow (- a) * bpow a = 1)%R.
Proof. rewrite <- bpow_add. replace (- a + a) with 0 by lia. reflexivity. Qed.

(** Bounds of a nonnegative integer by its number of digits. *)
Lemma Zdigits2_lower (m : Z) : 0 < m -> 2 ^ (Zdigits2 m - 1) <= m.
Proof.
  destruct m as [|p|p]; try lia. intros _. cbn [Zdigits2].
  apply digits2_pos_bounds.
Qed.

Lemma Zdigits2_pos (m : Z) : 0 < m -> 0 < Zdigits2 m.
Proof. destruct m; cbn; lia. Qed.

Lemma Zdigits2_ge (m k : Z) : 0 <= k -> 2 ^ k <= m -> k < Zdigits2 m.
Proof.
  intros Hk Hm.
  assert (0 < m) by (pose proof (Z.pow_pos_nonneg 2 k); lia).
  pose proof (Zdigits2_bound m ltac:(lia)).
  destruct (Z.lt_ge_cases k (Zdigits2 m)) as [|Hge]; [assumption|].
  pose proof (Z.pow_le_mono_r 2 _ _ ltac:(lia) Hge). lia.
Qed.

Lemma Zdigits2_unique (m d : Z) :
  0 < d -> 2 ^ (d - 1) <= m < 2 ^ d -> Zdigits2 m = d.
Proof.
  intros Hd [Hlo Hhi].
  pose proof (Zdigits2_ge m (d - 1) ltac:(lia) Hlo).
  pose proof (Zdigits2_le m d ltac:(lia)
                ltac:(pose proof (Z.pow_pos_nonneg 2 (d - 1)); lia)).
  lia.
Qed.

Section Generic.

Variable prec emax : Z.
Hypothesis Hprec : 0 < prec.
Hypothesis Hemax : prec < emax.

Local Abbreviation emin := (SpecFloat.emin prec emax).
Local Abbreviation fexp := (SpecFloat.fexp prec emax).

Lemma fexp_ge_emin (e : Z) : emin <= fexp e.
Proof. unfold SpecFloat.fexp. lia. Qed.

Lemma fexp_mono (a b : Z) : a <= b -> fexp a <= fexp b.
Proof. unfold SpecFloat.fexp. lia. Qed.

(** What [shr_fexp] returns for a nonnegative mantissa. *)
Lemma shr_fexp_m (m e : Z) (l : location) :
  0 <= m ->
  exists mrs,
    shr_fexp prec emax m e l = (mrs, Z.max e (fexp (Zdigits2 m + e)))
    /\ shr_m mrs = m / 2 ^ (Z.max e (fexp (Zdigits2 m + e)) - e)
    /\ (fexp (Zdigits2 m + e) <= e -> mrs = shr_record_of_loc m l).
Proof.
  intros Hm. unfold shr_fexp, shr.
  destruct (fexp (Zdigits2 m + e) - e) as [|p|p] eqn:E.
  - eexists. split; [|split].
    + f_equal. lia.
    + rewrite shr_record_of_loc_m. replace (Z.max _ _ - e) with 0 by lia.
      rewrite Z.pow_0_r, Z.div_1_r. reflexivity.
    + reflexivity.
  - eexists. split; [|split].
    + f_equal. lia.
    + rewrite shr_iter_m by (rewrite shr_record_of_loc_m; exact Hm).
      rewrite shr_record_of_loc_m. f_equal. f_equal. lia.
    + lia.
  - eexists. split; [|split].
    + f_equal. lia.
    + rewrite shr_record_of_loc_m. replace (Z.max _ _ - e) with 0 by lia.
      rewrite Z.pow_0_r, Z.div_1_r. reflexivity.
    + reflexivity.
Qed.

Lemma second_stage (s : bool) (mr e : Z) :
  0 <= mr <= 2 ^ prec -> emin <= e ->
  (let '(mrs, e2) := shr_fexp prec emax mr e loc_Exact in
   match shr_m mrs with
   | Z0 => S754_zero s
   | Zpos m => if e2 <=? emax - prec then S754_finite s m e2
               else S754_infinity s
   | Zneg _ => S754_nan
   end) = round_result prec emax s mr e.
Proof.
  intros [Hm0 Hm1] He.
  destruct (shr_fexp_m mr e loc_Exact Hm0) as (mrs & -> & Hmrs & Hsame).
  destruct (Z.eq_dec mr (2 ^ prec)) as [E|NE].
  - (* carry *)
    assert (Hd : Zdigits2 mr = prec + 1).
    { apply Zdigits2_unique; [lia|]. replace (prec + 1 - 1) with prec by lia.
      rewrite E. replace (prec + 1) with (Z.succ prec) by lia.
      rewrite Z.pow_succ_r by lia.
      pose proof (Z.pow_pos_nonneg 2 prec). lia. }
    rewrite Hd in *.
    assert (Hf : fexp (prec + 1 + e) = e + 1) by (unfold SpecFloat.fexp in *; lia).
    rewrite Hf in *. replace (Z.max e (e + 1)) with (e + 1) in * by lia.
    replace (e + 1 - e) with 1 in Hmrs by lia.
    assert (E2 : 2 ^ prec = 2 * 2 ^ (prec - 1)).
    { rewrite <- Z.pow_succ_r by lia. f_equal. lia. }
    assert (Eh : 2 ^ prec / 2 ^ 1 = 2 ^ (prec - 1)).
    { change (2 ^ 1) with 2. rewrite E2, Z.mul_comm, Z.div_mul; lia. }
    rewrite Hmrs, E, Eh.
    unfold round_result.
    pose proof (Z.pow_pos_nonneg 2 (prec - 1) ltac:(lia) ltac:(lia)) as Hp.
    pose proof (Z.pow_pos_nonneg 2 prec ltac:(lia) ltac:(lia)) as Hp2.
    destruct (2 ^ prec) as [|q|q] eqn:Eq; try lia.
    rewrite Z.ltb_irrefl.
    destruct (2 ^ (prec - 1)) as [|p|p] eqn:Ep; try lia.
    reflexivity.
  - assert (Hlt : mr < 2 ^ prec) by lia.
    assert (Hd : Zdigits2 mr <= prec).
    { apply Zdigits2_le; lia. }
    assert (Hf : fexp (Zdigits2 mr + e) <= e) by (unfold SpecFloat.fexp; lia).
    rewrite (Hsame Hf), shr_record_of_loc_m.
    replace (Z.max e (fexp (Zdigits2 mr + e))) with e by lia.
    unfold round_result. destruct mr as [|p|p]; try lia; [reflexivity|].
    replace (Zpos p <? 2 ^ prec) with true by (symmetry; apply Z.ltb_lt; lia).
    reflexivity.
Qed.

Lemma binary_round_aux_spec (s : bool) (mx ex : Z) (l : location) :
  0 <= mx -> ex <= fexp (Zdigits2 mx + ex) ->
  exists mr,
    (mr = mx / 2 ^ (fexp (Zdigits2 mx + ex) - ex)
     \/ mr = mx / 2 ^ (fexp (Zdigits2 mx + ex) - ex) + 1)
    /\ (fexp (Zdigits2 mx + ex) = ex -> l = loc_Exact -> mr = mx)
    /\ binary_round_aux prec emax s mx ex l
       = round_result prec emax s mr (fexp (Zdigits2 mx + ex))
    /\ mx / 2 ^ (fexp (Zdigits2 mx + ex) - ex) < 2 ^ prec
    /\ (emin < fexp (Zdigits2 mx + ex) ->
        2 ^ (prec - 1) <= mx / 2 ^ (fexp (Zdigits2 mx + ex) - ex)).
Proof.
  intros Hm He.
  set (e' := fexp (Zdigits2 mx + ex)) in *.
  set (k := e' - ex).
  assert (Hk : 0 <= k) by (unfold k; lia).
  assert (Hpk : 0 < 2 ^ k) by (apply Z.pow_pos_nonneg; lia).
  assert (Hup : mx / 2 ^ k < 2 ^ prec).
  { apply Z.div_lt_upper_bound; [exact Hpk|].
    rewrite <- Z.pow_add_r by lia.
    pose proof (Zdigits2_bound mx Hm).
    assert (Zdigits2 mx <= k + prec)
      by (unfold k, e', SpecFloat.fexp; lia).
    pose proof (Z.pow_le_mono_r 2 (Zdigits2 mx) (k + prec) ltac:(lia)
                  ltac:(lia)). lia. }
  assert (Hlow : emin < e' -> 2 ^ (prec - 1) <= mx / 2 ^ k).
  { intros Hn.
    assert (Ek : k = Zdigits2 mx - prec)
      by (unfold k, e', SpecFloat.fexp in *; lia).
    assert (0 < mx).
    { destruct (Z.eq_dec mx 0) as [->|]; [|lia]. cbn in Ek. lia. }
    apply Z.div_le_lower_bound; [exact Hpk|].
    rewrite <- Z.pow_add_r by lia.
    pose proof (Zdigits2_lower mx ltac:(lia)).
    replace (k + (prec - 1)) with (Zdigits2 mx - 1) by lia. lia. }
  unfold binary_round_aux.
  destruct (shr_fexp_m mx ex l Hm) as (mrs & -> & Hmrs & Hsame).
  replace (Z.max ex (fexp (Zdigits2 mx + ex))) with e' in * by (fold e'; lia).
  fold k in Hmrs.
  pose proof (round_nearest_even_bounds (shr_m mrs) (loc_of_shr_record mrs))
    as Hr.
  exists (round_nearest_even (shr_m mrs) (loc_of_shr_record mrs)).
  rewrite Hmrs in *.
  split; [|split; [|split; [|split]]].
  - pose proof Hr. lia.
  - intros E ->. rewrite (Hsame ltac:(fold e'; lia)) in *.
    cbn [shr_record_of_loc loc_of_shr_record round_nearest_even].
    unfold k. rewrite E, Z.sub_diag, Z.pow_0_r, Z.div_1_r. reflexivity.
  - pose proof (Z.div_pos mx (2 ^ k) Hm Hpk).
    apply second_stage; [lia|]. apply fexp_ge_emin.
  - exact Hup.
  - exact Hlow.
Qed.

Lemma IZR_bpow (k : Z) : 0 <= k -> IZR (2 ^ k) = bpow k.
Proof. intros. symmetry. apply bpow_nonneg_Z. assumption. Qed.

Lemma canonical_digits (m : positive) (e : Z) :
  canonical_mantissa prec emax m e = true ->
  emin <= e /\ Zpos m < 2 ^ prec
  /\ (emin < e -> 2 ^ (prec - 1) <= Zpos m).
Proof.
  unfold canonical_mantissa. intros H. apply Z.eqb_eq in H.
  pose proof (digits2_pos_bounds m) as [Hlo Hhi].
  assert (Hd : Zpos (digits2_pos m) <= prec)
    by (unfold SpecFloat.fexp in H; lia).
  split; [unfold SpecFloat.fexp in H; lia|]. split.
  - pose proof (Z.pow_le_mono_r 2 _ _ ltac:(lia) Hd). lia.
  - intros Hn.
    assert (Zpos (digits2_pos m) = prec)
      by (unfold SpecFloat.fexp in H; lia).
    replace (prec - 1) with (Zpos (digits2_pos m) - 1) by lia. exact Hlo.
Qed.

Lemma round_result_valid (s : bool) (mr m' e' : Z) :
  rounded prec emax mr m' e' ->
  valid_binary prec emax (round_result prec emax s mr e') = true.
Proof.
  intros (H0 & Hmr & Hup & He & Hn). unfold round_result.
  destruct mr as [|p|p]; try reflexivity.
  destruct (Z.ltb_spec (Zpos p) (2 ^ prec)) as [Hlt|Hge].
  - destruct (Z.leb_spec e' (emax - prec)) as [Hle|]; [|reflexivity].
    cbn [valid_binary]. unfold bounded.
    apply andb_true_iff. split; [|apply Z.leb_le; exact Hle].
    unfold canonical_mantissa. apply Z.eqb_eq.
    pose proof (digits2_pos_bounds p) as [Hlo Hhi].
    assert (Hd : Zpos (digits2_pos p) <= prec)
      by (apply digits2_pos_le; lia).
    destruct (Z.eq_dec e' emin) as [->|Hne].
    + unfold SpecFloat.fexp. lia.
    + assert (2 ^ (prec - 1) <= Zpos p) by lia.
      assert (prec - 1 < Zpos (digits2_pos p)).
      { destruct (Z.lt_ge_cases (prec - 1) (Zpos (digits2_pos p)));
          [assumption|].
        pose proof (Z.pow_le_mono_r 2 (Zpos (digits2_pos p)) (prec - 1)
                      ltac:(lia) ltac:(lia)). lia. }
      unfold SpecFloat.fexp. lia.
  - destruct (Z.leb_spec (e' + 1) (emax - prec)) as [Hle|]; [|reflexivity].
    cbn [valid_binary]. unfold bounded.
    apply andb_true_iff. split; [|apply Z.leb_le; exact Hle].
    unfold canonical_mantissa. apply Z.eqb_eq.
    pose proof (Z.pow_pos_nonneg 2 (prec - 1) ltac:(lia) ltac:(lia)).
    assert (Hd : Zdigits2 (2 ^ (prec - 1)) = prec).
    { apply Zdigits2_unique; [lia|]. split; [lia|].
      apply Z.pow_lt_mono_r; lia. }
    destruct (2 ^ (prec - 1)) as [|q|q] eqn:Eq; try lia.
    cbn [Z.to_pos]. cbn [Zdigits2] in Hd. rewrite Hd.
    unfold SpecFloat.fexp. lia.
Qed.

Lemma round_result_value (s : bool) (mr m' e' : Z) :
  rounded prec emax mr m' e' ->
  (IZR mr * bpow e' < bpow emax)%R ->
  F32.is_finite (round_result prec emax s mr e') = true
  /\ B2R (round_result prec emax s mr e')
     = (IZR (cond_Zopp s mr) * bpow e')%R.
Proof.
  intros (H0 & Hmr & Hup & He & Hn) Hov. unfold round_result.
  destruct mr as [|p|p]; try lia.
  - split; [reflexivity|]. destruct s; cbn; lra.
  - destruct (Z.ltb_spec (Zpos p) (2 ^ prec)) as [Hlt|Hge].
    + destruct (Z.leb_spec e' (emax - prec)) as [Hle|Hgt];
        [split; reflexivity|].
      exfalso.
      assert (emin < e') by (unfold SpecFloat.emin; lia).
      assert (Hm : 2 ^ (prec - 1) <= Zpos p) by lia.
      apply IZR_le in Hm. rewrite IZR_bpow in Hm by lia.
      pose proof (bpow_le emax (prec - 1 + e') ltac:(lia)) as Hb.
      rewrite bpow_add in Hb. pose proof (bpow_gt_0 e'). nra.
    + assert (Ep : Zpos p = 2 ^ prec) by lia.
      assert (He1 : e' + 1 <= emax - prec).
      { destruct (Z.le_gt_cases (e' + 1) (emax - prec)); [assumption|].
        exfalso. rewrite Ep, IZR_bpow, <- bpow_add in Hov by lia.
        pose proof (bpow_le emax (prec + e') ltac:(lia)). lra. }
      replace (e' + 1 <=? emax - prec) with true
        by (symmetry; apply Z.leb_le; exact He1).
      split; [reflexivity|]. cbn [B2R].
      pose proof (Z.pow_pos_nonneg 2 (prec - 1) ltac:(lia) ltac:(lia)).
      assert (Eq : Zpos (Z.to_pos (2 ^ (prec - 1))) = 2 ^ (prec - 1))
        by (apply Z2Pos.id; lia).
      rewrite Ep.
      destruct s; cbn [cond_Zopp]; rewrite ?opp_IZR, Eq, !IZR_bpow by lia;
        rewrite bpow_succ;
        replace prec with (prec - 1 + 1) at 2 by lia;
        rewrite (bpow_succ (prec - 1)); lra.
Qed.

(** The mantissa cut by [k] bits brackets the value. *)
Lemma cut_bracket (mx ex k : Z) :
  0 <= mx -> 0 <= k ->
  (IZR (mx / 2 ^ k) * bpow (ex + k) <= IZR mx * bpow ex)%R
  /\ (IZR (mx + 1) * bpow ex <= IZR (mx / 2 ^ k + 1) * bpow (ex + k))%R.
Proof.
  intros Hm Hk.
  assert (Hpk : 0 < 2 ^ k) by (apply Z.pow_pos_nonneg; lia).
  pose proof (Z.div_mod mx (2 ^ k) ltac:(lia)) as Ed.
  pose proof (Z.mod_pos_bound mx (2 ^ k) Hpk) as Bd.
  rewrite bpow_add, <- (IZR_bpow k) by lia.
  pose proof (bpow_gt_0 ex) as Hb.
  assert (H1 : (IZR (mx / 2 ^ k) * IZR (2 ^ k) <= IZR mx)%R).
  { rewrite <- mult_IZR. apply IZR_le. lia. }
  assert (H2 : (IZR (mx + 1) <= IZR (mx / 2 ^ k + 1) * IZR (2 ^ k))%R).
  { rewrite <- mult_IZR. apply IZR_le. lia. }
  split; nra.
Qed.

Lemma binary_round_aux_rounds (s : bool) (mx ex : Z) (l : location) (a : R) :
  0 <= mx -> ex <= fexp (Zdigits2 mx + ex) ->
  (IZR mx * bpow ex <= a < IZR (mx + 1) * bpow ex)%R ->
  rounds prec emax s a (binary_round_aux prec emax s mx ex l).
Proof.
  intros Hm He [Ha1 Ha2].
  destruct (binary_round_aux_spec s mx ex l Hm He)
    as (mr & Hmr & _ & -> & Hup & Hlow).
  set (e' := fexp (Zdigits2 mx + ex)) in *.
  exists mr, (mx / 2 ^ (e' - ex)), e'.
  assert (Hpk : 0 < 2 ^ (e' - ex)) by (apply Z.pow_pos_nonneg; lia).
  split; [|split; [reflexivity|]].
  - split; [apply Z.div_pos; lia|]. split; [exact Hmr|].
    split; [exact Hup|]. split; [apply fexp_ge_emin|exact Hlow].
  - destruct (cut_bracket mx ex (e' - ex) Hm ltac:(lia)) as [H1 H2].
    replace (ex + (e' - ex)) with e' in * by lia. lra.
Qed.

Lemma binary_round_aux_exact (s : bool) (mx ex : Z) :
  0 <= mx -> fexp (Zdigits2 mx + ex) = ex ->
  binary_round_aux prec emax s mx ex loc_Exact
  = round_result prec emax s mx ex
  /\ rounded prec emax mx mx ex.
Proof.
  intros Hm He.
  destruct (binary_round_aux_spec s mx ex loc_Exact Hm ltac:(lia))
    as (mr & _ & Hex & -> & Hup & Hlow).
  rewrite He in *. rewrite (Hex eq_refl eq_refl).
  rewrite Z.sub_diag, Z.pow_0_r, Z.div_1_r in *.
  split; [reflexivity|].
  split; [exact Hm|]. split; [left; reflexivity|]. split; [exact Hup|].
  split; [rewrite <- He; apply fexp_ge_emin|exact Hlow].
Qed.

Lemma rounds_valid (s : bool) (a : R) (r : spec_float) :
  rounds prec emax s a r -> valid_binary prec emax r = true.
Proof.
  intros (mr & m' & e' & Hr & -> & _). exact (round_result_valid s _ _ _ Hr).
Qed.

Lemma emin_lt_emax : emin <= emax - 1.
Proof. unfold SpecFloat.emin. lia. Qed.

(** The step of the format at the rounded value. *)
Lemma rounded_ulp (mr m' e' : Z) (a : R) :
  rounded prec emax mr m' e' ->
  (IZR m' * bpow e' <= a)%R ->
  (bpow e' <= a * bpow (1 - prec) + bpow emin)%R
  /\ (emin < e' -> (bpow e' <= a * bpow (1 - prec))%R).
Proof.
  intros (H0 & Hmr & Hup & He & Hn) Ha.
  assert (Hnorm : emin < e' -> (bpow e' <= a * bpow (1 - prec))%R).
  { intros Hlt. specialize (Hn Hlt). apply IZR_le in Hn.
    rewrite IZR_bpow in Hn by lia.
    assert (E : (bpow (prec - 1) * bpow (1 - prec) = 1)%R).
    { rewrite <- bpow_add. replace (prec - 1 + (1 - prec)) with 0 by lia.
      reflexivity. }
    pose proof (bpow_gt_0 e'). pose proof (bpow_gt_0 (1 - prec)).
    pose proof (bpow_gt_0 (prec - 1)).
    assert (bpow (prec - 1) * bpow e' <= a)%R by nra.
    nra. }
  split; [|exact Hnorm].
  destruct (Z.eq_dec e' emin) as [->|Hne].
  - assert (0 <= a)%R.
    { pose proof (bpow_gt_0 emin). apply IZR_le in H0. nra. }
    pose proof (bpow_gt_0 (1 - prec)). nra.
  - pose proof (Hnorm ltac:(lia)). pose proof (bpow_gt_0 emin). lra.
Qed.

Lemma rounds_finite (s : bool) (a : R) (r : spec_float) :
  rounds prec emax s a r ->
  (a < bpow (emax - 1))%R ->
  F32.is_finite r = true
  /\ (Rabs (B2R r - signed s a) <= a * bpow (1 - prec) + bpow emin)%R
  /\ (0 <= signed s (B2R r))%R.
Proof.
  intros (mr & m' & e' & Hr & -> & [Ha1 Ha2]) Hov.
  pose proof Hr as (H0 & Hmr & Hup & He & Hn).
  destruct (rounded_ulp mr m' e' a Hr Ha1) as [Hulp Hnorm].
  pose proof (bpow_gt_0 e') as Hbe.
  assert (Ha0 : (0 <= a)%R) by (apply IZR_le in H0; nra).
  assert (Hmr' : (IZR m' <= IZR mr <= IZR m' + 1)%R).
  { destruct Hmr as [->| ->]; rewrite ?plus_IZR; lra. }
  rewrite plus_IZR in Ha2.
  assert (Hb1 : (bpow e' <= bpow (emax - 1))%R).
  { destruct (Z.eq_dec e' emin) as [->|Hne];
      [apply bpow_le, emin_lt_emax|].
    pose proof (Hnorm ltac:(lia)).
    assert (bpow (1 - prec) <= 1)%R.
    { rewrite <- bpow_0. apply bpow_le. lia. }
    nra. }
  assert (Hlt : (IZR mr * bpow e' < bpow emax)%R).
  { replace emax with (emax - 1 + 1) by lia. rewrite bpow_succ. nra. }
  destruct (round_result_value s mr m' e' Hr Hlt) as [Hfin ->].
  split; [exact Hfin|].
  assert (Hmr0 : (0 <= IZR mr)%R) by (apply IZR_le in H0; lra).
  split.
  - unfold signed. destruct s; cbn [cond_Zopp]; rewrite ?opp_IZR;
      apply Rabs_le; nra.
  - unfold signed. destruct s; cbn [cond_Zopp]; rewrite ?opp_IZR; nra.
Qed.

(** A number of the format above (below) the exact value is not below
    (above) the rounded value. *)
Lemma rounds_monotone (a : R) (r : spec_float) (my : positive) (ey : Z) :
  rounds prec emax false a r ->
  valid_binary prec emax (S754_finite false my ey) = true ->
  ((a < IZR (Zpos my) * bpow ey)%R ->
   F32.is_finite r = true /\ (B2R r <= IZR (Zpos my) * bpow ey)%R)
  /\ ((IZR (Zpos my) * bpow ey < a)%R -> F32.is_finite r = true ->
      (IZR (Zpos my) * bpow ey <= B2R r)%R).
Proof.
  intros (mr & m' & e' & Hr & -> & [Ha1 Ha2]) Hy.
  pose proof Hr as (H0 & Hmr & Hup & He & Hn).
  cbn [valid_binary] in Hy. unfold bounded in Hy.
  apply andb_true_iff in Hy. destruct Hy as [Hcan Hey].
  apply Z.leb_le in Hey.
  destruct (canonical_digits my ey Hcan) as (Hey0 & Hmy & Hyn).
  pose proof (bpow_gt_0 e') as Hbe. pose proof (bpow_gt_0 ey) as Hby.
  assert (Hmr' : (IZR m' <= IZR mr <= IZR m' + 1)%R).
  { destruct Hmr as [->| ->]; rewrite ?plus_IZR; lra. }
  rewrite plus_IZR in Ha2.
  assert (Hylt : (IZR (Zpos my) * bpow ey < bpow emax)%R).
  { apply IZR_lt in Hmy. rewrite IZR_bpow in Hmy by lia.
    pose proof (bpow_le (prec + ey) emax ltac:(lia)) as Hb.
    rewrite bpow_add in Hb. nra. }
  destruct (Z.le_gt_cases e' ey) as [Hle|Hgt].
  - (* the number is on the grid of the rounded value *)
    assert (Ey : bpow ey = (IZR (2 ^ (ey - e')) * bpow e')%R).
    { rewrite IZR_bpow, <- bpow_add by lia. f_equal. lia. }
    rewrite Ey. rewrite <- Rmult_assoc, <- mult_IZR.
    set (N := Zpos my * 2 ^ (ey - e')) in *.
    rewrite Ey, <- Rmult_assoc, <- mult_IZR in Hylt. fold N in Hylt.
    split.
    + intros Hlt.
      assert (IZR m' < IZR N)%R by nra.
      assert (m' + 1 <= N) by (apply lt_IZR in H; lia).
      assert (IZR mr <= IZR N)%R.
      { apply IZR_le. destruct Hmr; lia. }
      assert (Hov : (IZR mr * bpow e' < bpow emax)%R) by nra.
      destruct (round_result_value false mr m' e' Hr Hov) as [Hfin ->].
      split; [exact Hfin|]. cbn [cond_Zopp]. nra.
    + intros Hlt Hfin.
      assert (IZR N < IZR m' + 1)%R by nra.
      assert (N <= m').
      { rewrite <- plus_IZR in H. apply lt_IZR in H. lia. }
      apply IZR_le in H1.
      assert (Hval : B2R (round_result prec emax false mr e')
                     = (IZR mr * bpow e')%R \/
                     (bpow emax <= IZR mr * bpow e')%R).
      { destruct (Rlt_or_le (IZR mr * bpow e') (bpow emax)) as [Hov|Hov];
          [|right; exact Hov].
        left. apply (round_result_value false mr m' e' Hr Hov). }
      destruct Hval as [-> |Hov]; [nra|].
      exfalso. clear - Hov Hfin Hr Hprec Hemax.
      destruct Hr as (H0 & Hmr & Hup & He & Hn).
      unfold round_result in Hfin.
      destruct mr as [|p|p]; try discriminate;
        [pose proof (bpow_gt_0 emax); lra|].
      destruct (Z.ltb_spec (Zpos p) (2 ^ prec)) as [Hlt|Hge].
      * destruct (Z.leb_spec e' (emax - prec)); [|discriminate].
        apply IZR_lt in Hlt. rewrite IZR_bpow in Hlt by lia.
        pose proof (bpow_le (prec + e') emax ltac:(lia)) as Hb.
        rewrite bpow_add in Hb. pose proof (bpow_gt_0 e'). nra.
      * destruct (Z.leb_spec (e' + 1) (emax - prec)); [|discriminate].
        assert (Ep : Zpos p = 2 ^ prec) by lia.
        rewrite Ep, IZR_bpow, <- bpow_add in Hov by lia.
        pose proof (bpow_lt (prec + e') emax ltac:(lia)). lra.
  - (* the number lies below the binade of the rounded value *)
    assert (Hm' : (bpow (prec - 1) <= IZR m')%R).
    { rewrite <- IZR_bpow by lia. apply IZR_le. apply Hn. lia. }
    assert (Hyb : (IZR (Zpos my) * bpow ey < bpow (prec - 1) * bpow e')%R).
    { apply IZR_lt in Hmy. rewrite IZR_bpow in Hmy by lia.
      pose proof (bpow_le (prec + ey) (prec - 1 + e') ltac:(lia)) as Hb.
      rewrite !bpow_add in Hb. nra. }
    split.
    + intros Hlt. exfalso. nra.
    + intros Hlt Hfin.
      assert (Hval : B2R (round_result prec emax false mr e')
                     = (IZR mr * bpow e')%R \/
                     (bpow emax <= IZR mr * bpow e')%R).
      { destruct (Rlt_or_le (IZR mr * bpow e') (bpow emax)) as [Hov|Hov];
          [|right; exact Hov].
        left. apply (round_result_value false mr m' e' Hr Hov). }
      destruct Hval as [-> |Hov]; [nra|].
      exfalso. clear - Hov Hfin Hr Hprec Hemax.
      destruct Hr as (H0 & Hmr & Hup & He & Hn).
      unfold round_result in Hfin.
      destruct mr as [|p|p]; try discriminate;
        [pose proof (bpow_gt_0 emax); lra|].
      destruct (Z.ltb_spec (Zpos p) (2 ^ prec)) as [Hlt|Hge].
      * destruct (Z.leb_spec e' (emax - prec)); [|discriminate].
        apply IZR_lt in Hlt. rewrite IZR_bpow in Hlt by lia.
        pose proof (bpow_le (prec + e') emax ltac:(lia)) as Hb.
        rewrite bpow_add in Hb. pose proof (bpow_gt_0 e'). nra.
      * destruct (Z.leb_spec (e' + 1) (emax - prec)); [|discriminate].
        assert (Ep : Zpos p = 2 ^ prec) by lia.
        rewrite Ep, IZR_bpow, <- bpow_add in Hov by lia.
        pose proof (bpow_lt (prec + e') emax ltac:(lia)). lra.
Qed.

(** *** Comparison *)

Lemma canonical_bounds (m : positive) (e : Z) :
  canonical_mantissa prec emax m e = true ->
  (0 < IZR (Zpos m) * bpow e < bpow (prec + e))%R
  /\ (emin < e -> (bpow (prec - 1 + e) <= IZR (Zpos m) * bpow e)%R).
Proof.
  intros H. destruct (canonical_digits m e H) as (He & Hm & Hn).
  pose proof (bpow_gt_0 e).
  assert (0 < IZR (Zpos m))%R by (apply IZR_lt; lia).
  split; [split; [nra|]|].
  - apply IZR_lt in Hm. rewrite IZR_bpow in Hm by lia.
    rewrite bpow_add. nra.
  - intros Hlt. specialize (Hn Hlt). apply IZR_le in Hn.
    rewrite IZR_bpow in Hn by lia. rewrite bpow_add. nra.
Qed.

Lemma canonical_lt (m1 m2 : positive) (e1 e2 : Z) :
  canonical_mantissa prec emax m1 e1 = true ->
  canonical_mantissa prec emax m2 e2 = true ->
  e1 < e2 ->
  (IZR (Zpos m1) * bpow e1 < IZR (Zpos m2) * bpow e2)%R.
Proof.
  intros H1 H2 Hlt.
  destruct (canonical_bounds m1 e1 H1) as [[_ Hu] _].
  destruct (canonical_digits m1 e1 H1) as (He1 & _).
  destruct (canonical_bounds m2 e2 H2) as [_ Hl].
  specialize (Hl ltac:(lia)).
  pose proof (bpow_le (prec + e1) (prec - 1 + e2) ltac:(lia)). lra.
Qed.

Lemma SFcompare_finite_pos (m1 m2 : positive) (e1 e2 : Z) :
  canonical_mantissa prec emax m1 e1 = true ->
  canonical_mantissa prec emax m2 e2 = true ->
  match (match e1 ?= e2 with
         | Lt => Lt | Gt => Gt | Eq => Pos.compare_cont Eq m1 m2 end) with
  | Lt => (IZR (Zpos m1) * bpow e1 < IZR (Zpos m2) * bpow e2)%R
  | Eq => (IZR (Zpos m1) * bpow e1 = IZR (Zpos m2) * bpow e2)%R
  | Gt => (IZR (Zpos m2) * bpow e2 < IZR (Zpos m1) * bpow e1)%R
  end.
Proof.
  intros H1 H2. destruct (Z.compare_spec e1 e2) as [->|Hlt|Hgt].
  - change (Pos.compare_cont Eq m1 m2) with (Pos.compare m1 m2).
    pose proof (bpow_gt_0 e2).
    destruct (Pos.compare_spec m1 m2) as [->|Hm|Hm].
    + reflexivity.
    + assert (IZR (Zpos m1) < IZR (Zpos m2))%R by (apply IZR_lt; lia). nra.
    + assert (IZR (Zpos m2) < IZR (Zpos m1))%R by (apply IZR_lt; lia). nra.
  - apply canonical_lt; assumption.
  - apply canonical_lt; assumption || lia.
Qed.

Lemma valid_finite_canonical (s : bool) (m : positive) (e : Z) :
  valid_binary prec emax (S754_finite s m e) = true ->
  canonical_mantissa prec emax m e = true.
Proof.
  cbn [valid_binary]. unfold bounded. intros H.
  apply andb_true_iff in H. apply H.
Qed.

(** On numbers of the format [SFltb] is the order of their values. *)
Lemma SFltb_B2R (x y : spec_float) :
  finite_valid prec emax x -> finite_valid prec emax y ->
  SFltb x y = true <-> (B2R x < B2R y)%R.
Proof.
  intros [Hfx Hvx] [Hfy Hvy]. unfold SFltb, SFcompare.
  destruct x as [sx|sx| |sx mx ex]; try discriminate Hfx;
    destruct y as [sy|sy| |sy my ey]; try discriminate Hfy; cbn [B2R].
  - split; [discriminate|lra].
  - pose proof (valid_finite_canonical _ _ _ Hvy) as Hc.
    destruct (canonical_bounds my ey Hc) as [[Hp _] _].
    destruct sy; cbn [cond_Zopp]; rewrite ?opp_IZR;
      split; try discriminate; try reflexivity; lra.
  - pose proof (valid_finite_canonical _ _ _ Hvx) as Hc.
    destruct (canonical_bounds mx ex Hc) as [[Hp _] _].
    destruct sx; cbn [cond_Zopp]; rewrite ?opp_IZR;
      split; try discriminate; try reflexivity; lra.
  - pose proof (valid_finite_canonical _ _ _ Hvx) as Hcx.
    pose proof (valid_finite_canonical _ _ _ Hvy) as Hcy.
    destruct (canonical_bounds mx ex Hcx) as [[Hpx _] _].
    destruct (canonical_bounds my ey Hcy) as [[Hpy _] _].
    pose proof (SFcompare_finite_pos mx my ex ey Hcx Hcy) as Hc.
    destruct sx, sy; cbn [cond_Zopp]; rewrite ?opp_IZR.
    + destruct (ex ?= ey); [destruct (Pos.compare_cont Eq mx my)| |];
        cbn [CompOpp]; split; intros Hlt; try discriminate Hlt;
        try reflexivity; try lra; exfalso; lra.
    + split; [lra|reflexivity].
    + split; [discriminate|lra].
    + destruct (ex ?= ey); [destruct (Pos.compare_cont Eq mx my)| |];
        split; intros Hlt; try discriminate Hlt;
        try reflexivity; try lra; exfalso; lra.
Qed.

(** *** Rounding of an integer mantissa *)

Lemma iter_xO_value (d p : positive) :
  Zpos (Pos.iter xO p d) = Zpos p * 2 ^ Zpos d.
Proof.
  induction d as [|d IH] using Pos.peano_ind.
  - cbn [Pos.iter]. lia.
  - rewrite Pos.iter_succ, Pos2Z.inj_succ, Z.pow_succ_r by lia.
    change (Zpos (Pos.iter xO p d)~0) with (2 * Zpos (Pos.iter xO p d)).
    rewrite IH. lia.
Qed.

Lemma binary_round_rounds (s : bool) (mx : positive) (ex : Z) :
  rounds prec emax s (IZR (Zpos mx) * bpow ex) (binary_round prec emax s mx ex)
  /\ (fexp (Zpos (digits2_pos mx) + ex) <= ex ->
      binary_round prec emax s mx ex
      = round_result prec emax s
          (Zpos mx * 2 ^ (ex - fexp (Zpos (digits2_pos mx) + ex)))
          (fexp (Zpos (digits2_pos mx) + ex))
      /\ rounded prec emax
           (Zpos mx * 2 ^ (ex - fexp (Zpos (digits2_pos mx) + ex)))
           (Zpos mx * 2 ^ (ex - fexp (Zpos (digits2_pos mx) + ex)))
           (fexp (Zpos (digits2_pos mx) + ex))).
Proof.
  unfold binary_round, shl_align.
  set (e' := fexp (Zpos (digits2_pos mx) + ex)).
  pose proof (bpow_gt_0 ex) as Hb.
  assert (Hgen : e' - ex >= 0 ->
          rounds prec emax s (IZR (Zpos mx) * bpow ex)
            (binary_round_aux prec emax s (Zpos mx) ex loc_Exact)).
  { intros Hge. apply binary_round_aux_rounds; [lia| |].
    - cbn [Zdigits2]. fold e'. lia.
    - rewrite plus_IZR. lra. }
  destruct (e' - ex) as [|d|d] eqn:Ed.
  - split; [apply Hgen; lia|]. intros _.
    assert (E : e' = ex) by lia.
    replace (ex - e') with 0 by lia. rewrite Z.pow_0_r, Z.mul_1_r, E.
    apply binary_round_aux_exact; [lia|]. cbn [Zdigits2]. fold e'. exact E.
  - split; [apply Hgen; lia|]. intros Hle. lia.
  - assert (Ek : ex - e' = Zpos d) by lia.
    assert (Hval : Zpos (Pos.iter xO mx d) = Zpos mx * 2 ^ (ex - e')).
    { rewrite Ek. apply iter_xO_value. }
    assert (Hfe : fexp (Zdigits2 (Zpos (Pos.iter xO mx d)) + e') = e').
    { cbn [Zdigits2]. rewrite digits2_pos_iter_xO.
      replace (Zpos (digits2_pos mx) + Zpos d + e')
        with (Zpos (digits2_pos mx) + ex) by lia.
      reflexivity. }
    destruct (binary_round_aux_exact s (Zpos (Pos.iter xO mx d)) e'
                ltac:(lia) Hfe) as [Hres Hrd].
    split.
    + rewrite Hres. eexists _, _, _. split; [exact Hrd|].
      split; [reflexivity|].
      rewrite plus_IZR, Hval, mult_IZR, IZR_bpow by lia.
      assert (E : (bpow (ex - e') * bpow e' = bpow ex)%R).
      { rewrite <- bpow_add. f_equal. lia. }
      pose proof (bpow_gt_0 e').
      assert (0 < IZR (Z.pos mx))%R by (apply IZR_lt; lia). nra.
    + intros _. rewrite <- Hval. split; [exact Hres|exact Hrd].
Qed.

Lemma rounds_approx (s : bool) (a : R) (r : spec_float) :
  rounds prec emax s a r -> (0 < a < bpow (emax - 1))%R ->
  approx prec emax (signed s a) r.
Proof.
  intros Hr [Hpos Hov].
  assert (Ha0 : (0 <= a)%R) by lra.
  destruct (rounds_finite s a r Hr Hov) as (Hfin & Herr & Hsgn).
  split; [split; [exact Hfin|exact (rounds_valid s a r Hr)]|].
  unfold signed in *. destruct s.
  - rewrite Rabs_Ropp, (Rabs_pos_eq a Ha0).
    split; [exact Herr|]. split; intros; lra.
  - rewrite (Rabs_pos_eq a Ha0).
    split; [exact Herr|]. split; intros; lra.
Qed.

Lemma approx_exact (x : R) (r : spec_float) :
  finite_valid prec emax r -> B2R r = x -> approx prec emax x r.
Proof.
  intros Hf <-. split; [exact Hf|].
  replace (B2R r - B2R r)%R with 0%R by lra. rewrite Rabs_R0.
  pose proof (Rabs_pos (B2R r)). pose proof (bpow_gt_0 (1 - prec)).
  pose proof (bpow_gt_0 emin).
  split; [nra|]. split; intros; lra.
Qed.

Lemma finite_valid_zero (s : bool) : finite_valid prec emax (S754_zero s).
Proof. split; reflexivity. Qed.

(** *** [binary_normalize] *)

Lemma binary_normalize_rounds (m e : Z) (szero : bool) :
  m <> 0 ->
  rounds prec emax (m <? 0) (Rabs (IZR m) * bpow e)
    (binary_normalize prec emax m e szero).
Proof.
  intros Hm. destruct m as [|p|p]; [contradiction| |];
    cbn [binary_normalize Z.ltb Z.compare].
  - rewrite Rabs_pos_eq by (apply IZR_le; lia).
    apply binary_round_rounds.
  - change (Zneg p) with (- Zpos p). rewrite opp_IZR, Rabs_Ropp.
    rewrite Rabs_pos_eq by (apply IZR_le; lia).
    apply binary_round_rounds.
Qed.

Lemma signed_abs (m : Z) (b : R) :
  signed (m <? 0) (Rabs (IZR m) * b) = (IZR m * b)%R.
Proof.
  unfold signed. destruct (Z.ltb_spec m 0) as [H|H].
  - apply IZR_lt in H. rewrite Rabs_left by exact H. lra.
  - apply IZR_le in H. rewrite Rabs_pos_eq by exact H. reflexivity.
Qed.

Lemma binary_normalize_approx (m e : Z) (szero : bool) :
  (Rabs (IZR m) * bpow e < bpow (emax - 1))%R ->
  approx prec emax (IZR m * bpow e) (binary_normalize prec emax m e szero).
Proof.
  intros Hov. destruct (Z.eq_dec m 0) as [->|Hm].
  - cbn [binary_normalize]. apply approx_exact;
      [apply finite_valid_zero|cbn; lra].
  - rewrite <- signed_abs. apply rounds_approx.
    + apply binary_normalize_rounds. exact Hm.
    + split; [|exact Hov].
      pose proof (bpow_gt_0 e).
      assert (0 < Rabs (IZR m))%R by (apply Rabs_pos_lt, not_0_IZR; exact Hm).
      nra.
Qed.

(** A mantissa that needs no cut is kept as it is. *)
Lemma binary_normalize_exact (m e : Z) (szero : bool) :
  fexp (Zdigits2 m + e) <= e ->
  (Rabs (IZR m) * bpow e < bpow emax)%R ->
  finite_valid prec emax (binary_normalize prec emax m e szero)
  /\ B2R (binary_normalize prec emax m e szero) = (IZR m * bpow e)%R.
Proof.
  intros Hfe Hov.
  assert (Hpos : forall (s : bool) (p : positive),
            fexp (Zpos (digits2_pos p) + e) <= e ->
            (IZR (Zpos p) * bpow e < bpow emax)%R ->
            finite_valid prec emax (binary_round prec emax s p e)
            /\ B2R (binary_round prec emax s p e)
               = (IZR (cond_Zopp s (Zpos p)) * bpow e)%R).
  { intros s p Hf Hlt.
    destruct (binary_round_rounds s p e) as [_ Hex].
    destruct (Hex Hf) as [-> Hrd].
    set (e' := fexp (Zpos (digits2_pos p) + e)) in *.
    assert (Hv : (IZR (Zpos p * 2 ^ (e - e')) * bpow e'
                  = IZR (Zpos p) * bpow e)%R).
    { rewrite mult_IZR, IZR_bpow by lia.
      rewrite Rmult_assoc, <- bpow_add. do 2 f_equal. lia. }
    destruct (round_result_value s _ _ _ Hrd) as [Hfin Hval];
      [rewrite Hv; exact Hlt|].
    split; [split; [exact Hfin|exact (round_result_valid s _ _ _ Hrd)]|].
    rewrite Hval.
    destruct s; cbn [cond_Zopp]; rewrite ?opp_IZR; lra. }
  destruct m as [|p|p]; cbn [binary_normalize].
  - split; [apply finite_valid_zero|cbn; lra].
  - apply Hpos; [exact Hfe|].
    rewrite Rabs_pos_eq in Hov by (apply IZR_le; lia). exact Hov.
  - change (IZR (Zneg p)) with (IZR (cond_Zopp true (Zpos p))).
    apply Hpos; [exact Hfe|].
    change (Zneg p) with (- Zpos p) in Hov.
    rewrite opp_IZR, Rabs_Ropp, Rabs_pos_eq in Hov by (apply IZR_le; lia).
    exact Hov.
Qed.

(** *** Values of the numbers of the format *)

Lemma B2R_finite (s : bool) (m : positive) (e : Z) :
  B2R (S754_finite s m e) = signed s (IZR (Zpos m) * bpow e).
Proof. unfold signed. destruct s; cbn [B2R cond_Zopp]; rewrite ?opp_IZR; lra. Qed.

Lemma signed_xorb (s1 s2 : bool) (a b : R) :
  signed (xorb s1 s2) (a * b) = (signed s1 a * signed s2 b)%R.
Proof. unfold signed. destruct s1, s2; cbn; lra. Qed.

Lemma emin_le_0 : emin <= 0.
Proof. unfold SpecFloat.emin. lia. Qed.

(** *** Multiplication *)

Lemma mul_digits (mx my : positive) (ex ey : Z) :
  canonical_mantissa prec emax mx ex = true ->
  canonical_mantissa prec emax my ey = true ->
  ex + ey <= fexp (Zdigits2 (Zpos (mx * my)) + (ex + ey)).
Proof.
  intros Hx Hy.
  destruct (canonical_digits mx ex Hx) as (Hex & _ & Hnx).
  destruct (canonical_digits my ey Hy) as (Hey & _ & Hny).
  pose proof emin_le_0.
  destruct (Z.eq_dec ex emin) as [Ex|Nx].
  - destruct (Z.eq_dec ey emin) as [Ey|Ny].
    + pose proof (fexp_ge_emin (Zdigits2 (Zpos (mx * my)) + (ex + ey))). lia.
    + specialize (Hny ltac:(lia)).
      assert (prec - 1 < Zdigits2 (Zpos (mx * my))).
      { apply Zdigits2_ge; [lia|]. rewrite Pos2Z.inj_mul. nia. }
      unfold SpecFloat.fexp. lia.
  - specialize (Hnx ltac:(lia)).
    assert (prec - 1 < Zdigits2 (Zpos (mx * my))).
    { apply Zdigits2_ge; [lia|]. rewrite Pos2Z.inj_mul. nia. }
    unfold SpecFloat.fexp. lia.
Qed.

Theorem mul_correct (x y : spec_float) :
  finite_valid prec emax x -> finite_valid prec emax y ->
  (Rabs (B2R x * B2R y) < bpow (emax - 1))%R ->
  approx prec emax (B2R x * B2R y) (SFmul prec emax x y).
Proof.
  intros [Hfx Hvx] [Hfy Hvy] Hov.
  destruct x as [sx|sx| |sx mx ex]; try discriminate Hfx;
    destruct y as [sy|sy| |sy my ey]; try discriminate Hfy;
    cbn [SFmul];
    try (apply approx_exact; [apply finite_valid_zero|cbn [B2R]; lra]).
  pose proof (valid_finite_canonical _ _ _ Hvx) as Hcx.
  pose proof (valid_finite_canonical _ _ _ Hvy) as Hcy.
  destruct (canonical_bounds mx ex Hcx) as [[Hpx _] _].
  destruct (canonical_bounds my ey Hcy) as [[Hpy _] _].
  rewrite !B2R_finite in *. rewrite <- signed_xorb in *.
  assert (Ea : (IZR (Zpos mx) * bpow ex * (IZR (Zpos my) * bpow ey)
                = IZR (Zpos (mx * my)) * bpow (ex + ey))%R).
  { rewrite Pos2Z.inj_mul, mult_IZR, bpow_add. lra. }
  rewrite Ea in *.
  assert (Hpos : (0 < IZR (Zpos (mx * my)) * bpow (ex + ey))%R).
  { rewrite <- Ea. nra. }
  apply rounds_approx.
  - apply binary_round_aux_rounds; [lia|apply mul_digits; assumption|].
    rewrite plus_IZR. pose proof (bpow_gt_0 (ex + ey)). lra.
  - split; [exact Hpos|].
    unfold signed in Hov. destruct (xorb sx sy);
      rewrite ?Rabs_Ropp, Rabs_pos_eq in Hov by lra; exact Hov.
Qed.

(** *** Addition *)

Lemma shl_align_value (mx : positive) (ex ez : Z) :
  ez <= ex ->
  Zpos (fst (shl_align mx ex ez)) = Zpos mx * 2 ^ (ex - ez).
Proof.
  intros Hz. unfold shl_align.
  destruct (ez - ex) as [|d|d] eqn:Ed; cbn [fst].
  - replace (ex - ez) with 0 by lia. lia.
  - lia.
  - rewrite iter_xO_value. f_equal. f_equal. lia.
Qed.

Lemma aligned_value (s : bool) (mx : positive) (ex ez : Z) :
  ez <= ex ->
  (IZR (cond_Zopp s (Zpos (fst (shl_align mx ex ez)))) * bpow ez
   = B2R (S754_finite s mx ex))%R.
Proof.
  intros Hz. rewrite shl_align_value by exact Hz.
  assert (E : (IZR (Zpos mx * 2 ^ (ex - ez)) * bpow ez
               = IZR (Zpos mx) * bpow ex)%R).
  { rewrite mult_IZR, IZR_bpow, Rmult_assoc, <- bpow_add by lia.
    do 2 f_equal. lia. }
  cbn [B2R].
  destruct s; cbn [cond_Zopp]; rewrite ?opp_IZR; lra.
Qed.

(** The sum of two finite numbers other than zero, before rounding. *)
Lemma SFadd_finite (sx sy : bool) (mx my : positive) (ex ey : Z) :
  exists z : Z,
    SFadd prec emax (S754_finite sx mx ex) (S754_finite sy my ey)
    = binary_normalize prec emax z (Z.min ex ey) false
    /\ (IZR z * bpow (Z.min ex ey)
        = B2R (S754_finite sx mx ex) + B2R (S754_finite sy my ey))%R.
Proof.
  eexists. split; [reflexivity|].
  rewrite plus_IZR, Rmult_plus_distr_r.
  rewrite !aligned_value by lia. reflexivity.
Qed.

Theorem add_correct (x y : spec_float) :
  finite_valid prec emax x -> finite_valid prec emax y ->
  (Rabs (B2R x + B2R y) < bpow (emax - 1))%R ->
  approx prec emax (B2R x + B2R y) (SFadd prec emax x y).
Proof.
  intros [Hfx Hvx] [Hfy Hvy] Hov.
  destruct x as [sx|sx| |sx mx ex]; try discriminate Hfx;
    destruct y as [sy|sy| |sy my ey]; try discriminate Hfy.
  - apply approx_exact.
    + destruct sx, sy; apply finite_valid_zero.
    + destruct sx, sy; cbn; lra.
  - apply approx_exact; [split; assumption|cbn [SFadd B2R]; lra].
  - apply approx_exact; [split; assumption|cbn [SFadd B2R]; lra].
  - destruct (SFadd_finite sx sy mx my ex ey) as (z & -> & Ez).
    rewrite <- Ez in *. apply binary_normalize_approx.
    rewrite Rabs_mult, (Rabs_pos_eq (bpow _)) in Hov
      by (left; apply bpow_gt_0).
    exact Hov.
Qed.

(** Adding a number that is not positive does not increase a number that
    is not negative, and adding a number that is not negative does not
    decrease it. *)
Theorem add_monotone (x y : spec_float) :
  finite_valid prec emax x -> finite_valid prec emax y ->
  (0 <= B2R x)%R ->
  (Rabs (B2R x + B2R y) < bpow (emax - 1))%R ->
  ((B2R y <= 0)%R -> (B2R (SFadd prec emax x y) <= B2R x)%R)
  /\ ((0 <= B2R y)%R -> (B2R x <= B2R (SFadd prec emax x y))%R).
Proof.
  intros Hx Hy Hx0 Hov.
  destruct (add_correct x y Hx Hy Hov) as ([Hfin _] & _ & Hs1 & Hs2).
  destruct Hx as [Hfx Hvx]. destruct Hy as [Hfy Hvy].
  destruct x as [sx|sx| |sx mx ex]; try discriminate Hfx;
    destruct y as [sy|sy| |sy my ey]; try discriminate Hfy.
  - destruct sx, sy; cbn; split; intros; lra.
  - cbn [SFadd B2R] in *. split; intros; lra.
  - cbn [SFadd B2R] in *. split; intros; lra.
  - pose proof (valid_finite_canonical _ _ _ Hvx) as Hcx.
    pose proof (valid_finite_canonical _ _ _ Hvy) as Hcy.
    destruct (canonical_bounds mx ex Hcx) as [[Hpx _] _].
    destruct (canonical_bounds my ey Hcy) as [[Hpy _] _].
    assert (Esx : sx = false).
    { destruct sx; [|reflexivity]. rewrite B2R_finite in Hx0.
      unfold signed in Hx0. lra. }
    subst sx.
    destruct (SFadd_finite false sy mx my ex ey) as (z & Eadd & Ez).
    rewrite Eadd in *.
    set (sum := (B2R (S754_finite false mx ex)
                 + B2R (S754_finite sy my ey))%R) in *.
    assert (Hxv : B2R (S754_finite false mx ex)
                  = (IZR (Zpos mx) * bpow ex)%R) by reflexivity.
    assert (Hyv : B2R (S754_finite sy my ey)
                  = signed sy (IZR (Zpos my) * bpow ey))
      by apply B2R_finite.
    destruct (Z.eq_dec z 0) as [->|Hz].
    { cbn [binary_normalize]. change (B2R (S754_zero false)) with 0%R.
      rewrite Rmult_0_l in Ez. unfold sum in Ez.
      split; intros; lra. }
    pose proof (binary_normalize_rounds z (Z.min ex ey) false Hz) as Hr.
    pose proof (bpow_gt_0 (Z.min ex ey)) as Hbz.
    destruct (Z.ltb_spec z 0) as [Hneg|Hnn].
    + (* a negative sum *)
      assert (IZR z < 0)%R by (apply IZR_lt; exact Hneg).
      assert (sum < 0)%R by (rewrite <- Ez; nra).
      specialize (Hs2 ltac:(lra)).
      split; intros; [lra|].
      exfalso. unfold sum in *. lra.
    + assert (Hzp : (0 < IZR z)%R) by (apply IZR_lt; lia).
      rewrite Rabs_pos_eq, Ez in Hr by lra.
      destruct (rounds_monotone _ _ mx ex Hr Hvx) as [Hup Hlo].
      split; intros Hy0.
      * destruct (Req_dec (B2R (S754_finite sy my ey)) 0) as [E0|N0].
        { rewrite Hyv in E0. unfold signed in E0. destruct sy; lra. }
        rewrite Hxv. apply Hup. unfold sum. lra.
      * destruct (Req_dec (B2R (S754_finite sy my ey)) 0) as [E0|N0].
        { rewrite Hyv in E0. unfold signed in E0. destruct sy; lra. }
        rewrite Hxv. apply Hlo; [unfold sum; lra|exact Hfin].
Qed.

(** *** Division *)

Lemma SFdiv_core_spec (mx my : positive) (ex ey : Z) :
  exists (q : Z) (lz : location),
    SFdiv_core_binary prec emax (Zpos mx) ex (Zpos my) ey
    = (q, Z.min (fexp (Zpos (digits2_pos mx) + ex
                       - (Zpos (digits2_pos my) + ey))) (ex - ey), lz)
    /\ 0 <= q
    /\ Z.min (fexp (Zpos (digits2_pos mx) + ex
                    - (Zpos (digits2_pos my) + ey))) (ex - ey)
       <= fexp (Zdigits2 q
                + Z.min (fexp (Zpos (digits2_pos mx) + ex
                               - (Zpos (digits2_pos my) + ey))) (ex - ey))
    /\ (IZR q * bpow (Z.min (fexp (Zpos (digits2_pos mx) + ex
                                   - (Zpos (digits2_pos my) + ey)))
                            (ex - ey))
        <= IZR (Zpos mx) * bpow ex / (IZR (Zpos my) * bpow ey)
        < IZR (q + 1)
          * bpow (Z.min (fexp (Zpos (digits2_pos mx) + ex
                               - (Zpos (digits2_pos my) + ey)))
                        (ex - ey)))%R.
Proof.
  unfold SFdiv_core_binary. cbn [Zdigits2].
  set (d1 := Zpos (digits2_pos mx)). set (d2 := Zpos (digits2_pos my)).
  set (e' := Z.min (fexp (d1 + ex - (d2 + ey))) (ex - ey)).
  set (s := ex - ey - e').
  assert (Hs : 0 <= s) by (unfold s, e'; lia).
  assert (Em : match s with
               | 0 => Zpos mx
               | Zpos _ => Z.shiftl (Zpos mx) s
               | Zneg _ => 0
               end = Zpos mx * 2 ^ s).
  { destruct s as [|p|p] eqn:Es; try lia.
    rewrite Z.shiftl_mul_pow2 by lia. reflexivity. }
  rewrite Em.
  pose proof (Z.pow_pos_nonneg 2 s ltac:(lia) Hs) as Hps.
  pose proof (Z.div_eucl_eq (Zpos mx * 2 ^ s) (Zpos my) ltac:(lia)) as Hdiv.
  pose proof (Z.mod_pos_bound (Zpos mx * 2 ^ s) (Zpos my) ltac:(lia)) as Hmod.
  unfold Z.modulo in Hmod.
  destruct (Z.div_eucl (Zpos mx * 2 ^ s) (Zpos my)) as [q r] eqn:Eqr.
  assert (Hq : 0 <= q) by nia.
  exists q, (new_location (Zpos my) r). split; [reflexivity|].
  split; [exact Hq|]. split.
  - (* enough digits *)
    pose proof (digits2_pos_bounds mx) as [Hlx Hux]. fold d1 in Hlx, Hux.
    pose proof (digits2_pos_bounds my) as [Hly Huy]. fold d2 in Hly, Huy.
    assert (Hd1 : 0 < d1) by (unfold d1; lia).
    assert (Hd2 : 0 < d2) by (unfold d2; lia).
    destruct (Z.le_gt_cases d2 (d1 + s - 1)) as [Hbig|Hsmall].
    + assert (Hql : 2 ^ (d1 + s - 1 - d2) <= q).
      { assert (E : 2 ^ (d1 - 1) * 2 ^ s
                    = 2 ^ (d1 + s - 1 - d2) * 2 ^ d2).
        { rewrite <- !Z.pow_add_r by lia. f_equal. lia. }
        pose proof (Z.pow_pos_nonneg 2 (d1 + s - 1 - d2) ltac:(lia)
                      ltac:(lia)).
        assert (2 ^ (d1 + s - 1 - d2) * Zpos my < Zpos my * (q + 1)) by nia.
        nia. }
      pose proof (Zdigits2_ge q (d1 + s - 1 - d2) ltac:(lia) Hql).
      assert (e' <= fexp (d1 + ex - (d2 + ey))) by (unfold e'; lia).
      pose proof (fexp_mono (d1 + ex - (d2 + ey)) (Zdigits2 q + e')
                    ltac:(unfold s in *; lia)).
      lia.
    + pose proof (Zdigits2_nonneg q).
      pose proof (fexp_ge_emin (Zdigits2 q + e')).
      assert (e' <= fexp (d1 + ex - (d2 + ey))) by (unfold e'; lia).
      unfold SpecFloat.fexp in *. unfold s in *. lia.
  - assert (Eb : bpow ex = (bpow ey * IZR (2 ^ s) * bpow e')%R).
    { rewrite IZR_bpow, <- !bpow_add by lia. f_equal. unfold s. lia. }
    pose proof (bpow_gt_0 ey) as Hbey. pose proof (bpow_gt_0 e') as Hbe.
    assert (Hmy : (0 < IZR (Zpos my))%R) by (apply IZR_lt; lia).
    assert (Ea : (IZR (Zpos mx) * bpow ex / (IZR (Zpos my) * bpow ey)
                  = IZR (Zpos mx * 2 ^ s) / IZR (Zpos my) * bpow e')%R).
    { rewrite Eb, mult_IZR. field. lra. }
    rewrite Ea, Hdiv, plus_IZR, !mult_IZR.
    assert (0 <= IZR r < IZR (Zpos my))%R
      by (split; [apply IZR_le|apply IZR_lt]; lia).
    assert (Eq' : ((IZR (Zpos my) * IZR q + IZR r) / IZR (Zpos my)
                   = IZR q + IZR r / IZR (Zpos my))%R) by (field; lra).
    rewrite Eq'.
    assert (0 <= IZR r / IZR (Zpos my) < 1)%R.
    { split.
      - apply Rmult_le_pos; [lra|]. left. apply Rinv_0_lt_compat. lra.
      - apply (Rmult_lt_reg_r (IZR (Zpos my))); [lra|].
        unfold Rdiv. rewrite Rmult_assoc, Rinv_l by lra. lra. }
    rewrite plus_IZR. nra.
Qed.

Theorem div_correct (x y : spec_float) :
  finite_valid prec emax x -> finite_valid prec emax y ->
  B2R y <> 0%R ->
  (Rabs (B2R x / B2R y) < bpow (emax - 1))%R ->
  approx prec emax (B2R x / B2R y) (SFdiv prec emax x y).
Proof.
  intros [Hfx Hvx] [Hfy Hvy] Hy0 Hov.
  destruct y as [sy|sy| |sy my ey]; try discriminate Hfy;
    [elim Hy0; reflexivity|].
  destruct x as [sx|sx| |sx mx ex]; try discriminate Hfx.
  - cbn [SFdiv]. apply approx_exact; [apply finite_valid_zero|].
    cbn [B2R]. unfold Rdiv. lra.
  - pose proof (valid_finite_canonical _ _ _ Hvx) as Hcx.
    pose proof (valid_finite_canonical _ _ _ Hvy) as Hcy.
    destruct (canonical_bounds mx ex Hcx) as [[Hpx _] _].
    destruct (canonical_bounds my ey Hcy) as [[Hpy _] _].
    cbn [SFdiv].
    destruct (SFdiv_core_spec mx my ex ey) as (q & lz & -> & Hq & Hd & Ha).
    set (a := (IZR (Zpos mx) * bpow ex / (IZR (Zpos my) * bpow ey))%R) in *.
    assert (Hap : (0 < a)%R).
    { unfold a. apply Rdiv_lt_0_compat; lra. }
    assert (Ex : (B2R (S754_finite sx mx ex) / B2R (S754_finite sy my ey)
                  = signed (xorb sx sy) a)%R).
    { assert (IZR (Zpos my) <> 0)%R by (apply not_0_IZR; lia).
      assert (bpow ey <> 0)%R by (pose proof (bpow_gt_0 ey); lra).
      rewrite !B2R_finite. unfold a, signed.
      destruct sx, sy; cbn [xorb]; field; repeat split; assumption. }
    rewrite Ex in *.
    apply rounds_approx.
    + apply binary_round_aux_rounds; assumption.
    + split; [exact Hap|].
      unfold signed in Hov. destruct (xorb sx sy);
        rewrite ?Rabs_Ropp, Rabs_pos_eq in Hov by lra; exact Hov.
Qed.

End Generic.

(** *** binary32 and binary64 *)

Lemma bpow_IZR_inv (k : Z) : 0 <= k -> bpow (- k) = (/ IZR (2 ^ k))%R.
Proof.
  intros Hk. pose proof (bpow_opp k) as E.
  rewrite (IZR_bpow k Hk).
  pose proof (bpow_gt_0 k).
  apply (Rmult_eq_reg_r (bpow k)); [|lra].
  rewrite E, Rinv_l; lra.
Qed.

Lemma bpow_m23 : bpow (1 - 24) = (/ 8388608)%R.
Proof. exact (bpow_IZR_inv 23 ltac:(lia)). Qed.

Lemma bpow_emin32 : (bpow (SpecFloat.emin 24 128) <= / 1000000000000)%R.
Proof.
  apply Rle_trans with (bpow (-40)); [apply bpow_le; vm_compute; discriminate|].
  replace (bpow (-40)) with (/ IZR (2 ^ 40))%R
    by (symmetry; exact (bpow_IZR_inv 40 ltac:(lia))).
  apply Rinv_le_contravar; [lra|]. apply IZR_le. vm_compute. discriminate.
Qed.

Lemma bpow_127 : bpow (128 - 1) = IZR (2 ^ 127).
Proof. apply bpow_nonneg_Z. lia. Qed.

(** The bound that keeps binary32 operations away from overflow. *)
Lemma below_overflow (x : R) :
  (Rabs x <= IZR (2 ^ 100))%R -> (Rabs x < bpow (128 - 1))%R.
Proof.
  intros H. rewrite bpow_127.
  assert (IZR (2 ^ 100) < IZR (2 ^ 127))%R by (apply IZR_lt; reflexivity).
  lra.
Qed.

Lemma approx32_bound (x : R) (r : spec_float) :
  approx32 x r ->
  (Rabs (B2R r - x) <= Rabs x / 8388608 + / 1000000000000)%R.
Proof.
  intros (_ & H & _). rewrite bpow_m23 in H. pose proof bpow_emin32.
  unfold Rdiv. lra.
Qed.

Lemma of_Z_exact (z : Z) :
  Z.abs z < 2 ^ 24 ->
  fv32 (F32.of_Z z) /\ B2R (F32.of_Z z) = IZR z.
Proof.
  intros Hz. unfold F32.of_Z, F32.prec, F32.emax.
  destruct (binary_normalize_exact 24 128 ltac:(lia) ltac:(lia) z 0 false)
    as [Hf Hv].
  - assert (Zdigits2 z <= 24).
    { destruct z as [|p|p]; cbn [Zdigits2]; [lia| |];
        apply digits2_pos_le; lia. }
    unfold SpecFloat.fexp, SpecFloat.emin. lia.
  - rewrite bpow_0, Rmult_1_r, <- abs_IZR.
    apply Rlt_trans with (IZR (2 ^ 24)); [apply IZR_lt; exact Hz|].
    rewrite (bpow_nonneg_Z 128) by lia. apply IZR_lt. reflexivity.
  - split; [exact Hf|]. rewrite Hv, bpow_0. lra.
Qed.

Lemma of_Z_approx (z : Z) :
  Z.abs z <= 2 ^ 64 -> approx32 (IZR z) (F32.of_Z z).
Proof.
  intros Hz. unfold F32.of_Z, F32.prec, F32.emax.
  replace (IZR z) with (IZR z * bpow 0)%R by (rewrite bpow_0; lra).
  apply binary_normalize_approx; [lia|lia|].
  rewrite bpow_0, Rmult_1_r, <- abs_IZR.
  apply Rle_lt_trans with (IZR (2 ^ 64)); [apply IZR_le; exact Hz|].
  rewrite bpow_127. apply IZR_lt. reflexivity.
Qed.

Lemma mul32 (x y : spec_float) :
  fv32 x -> fv32 y -> (Rabs (B2R x * B2R y) <= IZR (2 ^ 100))%R ->
  approx32 (B2R x * B2R y) (F32.mul x y).
Proof.
  intros Hx Hy Hb. apply (mul_correct 24 128); try lia; try assumption.
  apply below_overflow. exact Hb.
Qed.

Lemma add32 (x y : spec_float) :
  fv32 x -> fv32 y -> (Rabs (B2R x + B2R y) <= IZR (2 ^ 100))%R ->
  approx32 (B2R x + B2R y) (F32.add x y).
Proof.
  intros Hx Hy Hb. apply (add_correct 24 128); try lia; try assumption.
  apply below_overflow. exact Hb.
Qed.

Lemma div32 (x y : spec_float) :
  fv32 x -> fv32 y -> B2R y <> 0%R ->
  (Rabs (B2R x / B2R y) <= IZR (2 ^ 100))%R ->
  approx32 (B2R x / B2R y) (F32.div x y).
Proof.
  intros Hx Hy Hy0 Hb. apply (div_correct 24 128); try lia; try assumption.
  apply below_overflow. exact Hb.
Qed.

Lemma add32_monotone (x y : spec_float) :
  fv32 x -> fv32 y -> (0 <= B2R x)%R ->
  (Rabs (B2R x + B2R y) <= IZR (2 ^ 100))%R ->
  ((B2R y <= 0)%R -> (B2R (F32.add x y) <= B2R x)%R)
  /\ ((0 <= B2R y)%R -> (B2R x <= B2R (F32.add x y))%R).
Proof.
  intros Hx Hy Hx0 Hb. apply (add_monotone 24 128); try lia; try assumption.
  apply below_overflow. exact Hb.
Qed.

(** *** Conversions to integers *)

Lemma trunc_spec (a : spec_float) :
  F32.is_finite a = true ->
  exists z : Z,
    F32.trunc a = Some z
    /\ ((0 <= B2R a)%R -> 0 <= z /\ (IZR z <= B2R a < IZR z + 1)%R)
    /\ ((B2R a <= 0)%R -> z <= 0 /\ (IZR z - 1 < B2R a <= IZR z)%R).
Proof.
  intros Hf. destruct a as [s|s| |s m e]; try discriminate Hf.
  - exists 0. cbn. repeat split; try lia; lra.
  - cbn [F32.trunc].
    assert (Hm : (0 < IZR (Zpos m))%R) by (apply IZR_lt; lia).
    pose proof (bpow_gt_0 e) as Hb.
    set (t := if 0 <=? e then Zpos m * 2 ^ e else Zpos m / 2 ^ (- e)).
    assert (Ht : 0 <= t /\ (IZR t <= IZR (Zpos m) * bpow e < IZR t + 1)%R).
    { unfold t. destruct (Z.leb_spec 0 e) as [He|He].
      - rewrite mult_IZR, IZR_bpow by lia. split; [nia|lra].
      - pose proof (cut_bracket (Zpos m) e (- e) ltac:(lia) ltac:(lia))
          as [H1 H2].
        replace (e + - e) with 0 in * by lia. rewrite bpow_0 in *.
        rewrite !plus_IZR in H2.
        split; [apply Z.div_pos; [lia|apply Z.pow_pos_nonneg; lia]|].
        split; [lra|]. nra. }
    destruct Ht as [Ht0 Ht].
    exists (cond_Zopp s t). split; [reflexivity|].
    rewrite B2R_finite. unfold signed.
    destruct s; cbn [cond_Zopp]; rewrite ?opp_IZR.
    + split; intros H; [exfalso; nra|]. split; [lia|lra].
    + split; intros H; [split; [lia|lra]|exfalso; nra].
Qed.

Lemma to_size_spec (a : spec_float) :
  F32.is_finite a = true -> (-1 < B2R a < IZR (2 ^ 64))%R ->
  exists z : Z,
    F32.to_size a = Some z /\ 0 <= z
    /\ (IZR z <= Rmax 0 (B2R a))%R /\ (B2R a < IZR z + 1)%R.
Proof.
  intros Hf [Hlo Hhi].
  destruct (trunc_spec a Hf) as (z & Ez & Hp & Hn).
  assert (Hz : 0 <= z < 2 ^ 64
               /\ (IZR z <= Rmax 0 (B2R a))%R /\ (B2R a < IZR z + 1)%R).
  { destruct (Rle_or_lt 0 (B2R a)) as [H0|H0].
    - destruct (Hp H0) as [Hz0 Hz1].
      rewrite Rmax_right by exact H0.
      split; [split; [exact Hz0|]|lra].
      apply lt_IZR. lra.
    - destruct (Hn ltac:(lra)) as [Hz0 Hz1].
      assert (-1 < IZR z)%R by lra.
      assert (z = 0).
      { apply lt_IZR in H. lia. }
      subst z. rewrite Rmax_left by lra.
      split; [lia|]. lra. }
  exists z. unfold F32.to_size. rewrite Ez.
  destruct Hz as ([Hz0 Hz1] & H1 & H2).
  replace (0 <=? z) with true by (symmetry; apply Z.leb_le; exact Hz0).
  replace (z <? size_mod) with true
    by (symmetry; apply Z.ltb_lt; exact Hz1).
  auto.
Qed.

Lemma to_ssize_spec (a : spec_float) :
  F32.is_finite a = true -> (Rabs (B2R a) < IZR (2 ^ 63))%R ->
  exists z : Z,
    F32.to_ssize a = Some z /\ (Rabs (IZR z - B2R a) < 1)%R
    /\ (Rabs (IZR z) <= Rabs (B2R a))%R.
Proof.
  intros Hf Hb.
  destruct (trunc_spec a Hf) as (z & Ez & Hp & Hn).
  assert (Hz : - 2 ^ 63 <= z < 2 ^ 63
               /\ (Rabs (IZR z - B2R a) < 1)%R
               /\ (Rabs (IZR z) <= Rabs (B2R a))%R).
  { destruct (Rle_or_lt 0 (B2R a)) as [H0|H0].
    - destruct (Hp H0) as [Hz0 Hz1].
      rewrite (Rabs_pos_eq (B2R a)) in * by exact H0.
      assert (0 <= IZR z)%R by (apply IZR_le; exact Hz0).
      rewrite (Rabs_pos_eq (IZR z)) by assumption.
      split; [|split; [apply Rabs_def1; lra|lra]].
      split; [lia|]. apply lt_IZR. lra.
    - destruct (Hn ltac:(lra)) as [Hz0 Hz1].
      rewrite (Rabs_left (B2R a)) in * by exact H0.
      assert (IZR z <= 0)%R by (apply IZR_le; exact Hz0).
      rewrite (Rabs_left1 (IZR z)) by assumption.
      split; [|split; [apply Rabs_def1; lra|lra]].
      split; [|lia].
      assert (IZR (- 2 ^ 63) < IZR z + 1)%R by (rewrite opp_IZR; lra).
      rewrite <- plus_IZR in H1. apply lt_IZR in H1. lia. }
  exists z. unfold F32.to_ssize. rewrite Ez.
  destruct Hz as ([Hz0 Hz1] & H1 & H2).
  replace (- ssize_half <=? z) with true
    by (symmetry; apply Z.leb_le; exact Hz0).
  replace (z <? ssize_half) with true
    by (symmetry; apply Z.ltb_lt; exact Hz1).
  auto.
Qed.

End FloatFacts.

(** * The scale and the anchor of [zoom] in exact values *)

Module ZoomFacts.

Import Reals Psatz.
Import CInt Canvas F32Facts FVal FloatFacts.

(** *** Promotion to [double] and the scale bounds *)

Lemma to_double_exact (a : spec_float) :
  fv32 a ->
  finite_valid 53 1024 (F32.to_double a) /\ B2R (F32.to_double a) = B2R a.
Proof.
  intros [Hf Hv]. destruct a as [s|s| |s m e]; try discriminate Hf.
  - split; [split; reflexivity|reflexivity].
  - cbn [F32.to_double]. unfold F32.dprec, F32.demax.
    pose proof (valid_finite_canonical 24 128 s m e Hv) as Hc.
    destruct (canonical_bounds 24 128 ltac:(lia) m e Hc)
      as [[_ Hub] _].
    cbn [valid_binary] in Hv. unfold bounded in Hv.
    apply andb_true_iff in Hv. destruct Hv as [_ Hb]. apply Z.leb_le in Hb.
    unfold canonical_mantissa in Hc. apply Z.eqb_eq in Hc.
    apply (binary_normalize_exact 53 1024 ltac:(lia) ltac:(lia)).
    + assert (Hd : Zdigits2 (cond_Zopp s (Zpos m)) = Zpos (digits2_pos m))
        by (destruct s; reflexivity).
      rewrite Hd. unfold SpecFloat.fexp, SpecFloat.emin in *. lia.
    + assert (Ha : Rabs (IZR (cond_Zopp s (Zpos m))) = IZR (Zpos m)).
      { destruct s; cbn [cond_Zopp].
        - change (Zneg m) with (- Zpos m). rewrite opp_IZR, Rabs_Ropp.
          apply Rabs_pos_eq. apply IZR_le. lia.
        - apply Rabs_pos_eq. apply IZR_le. lia. }
      rewrite Ha.
      pose proof (bpow_le (24 + e) 1024 ltac:(lia)). lra.
Qed.

Lemma MAX_SCALE_value :
  finite_valid 53 1024 MAX_SCALE /\ B2R MAX_SCALE = 100%R.
Proof.
  unfold MAX_SCALE, F32.dof_Z, F32.dprec, F32.demax.
  destruct (binary_normalize_exact 53 1024 ltac:(lia) ltac:(lia) 100 0 false)
    as [Hf Hv].
  - vm_compute. discriminate.
  - rewrite bpow_0. rewrite Rabs_pos_eq by lra.
    apply Rlt_le_trans with (bpow 7).
    + rewrite (bpow_nonneg_Z 7) by lia. rewrite Rmult_1_r.
      apply (IZR_lt 100 (2 ^ 7)). reflexivity.
    + apply bpow_le. lia.
  - split; [exact Hf|]. rewrite Hv, bpow_0. lra.
Qed.

Lemma of_double_MAX_SCALE :
  fv32 (F32.of_double MAX_SCALE) /\ B2R (F32.of_double MAX_SCALE) = 100%R.
Proof.
  replace (F32.of_double MAX_SCALE) with (F32.of_Z 100)
    by (vm_compute; reflexivity).
  apply of_Z_exact. reflexivity.
Qed.

Lemma gtb_MAX_SCALE (a : spec_float) :
  fv32 a ->
  F32.gtb (F32.to_double a) MAX_SCALE = true <-> (100 < B2R a)%R.
Proof.
  intros Ha. destruct (to_double_exact a Ha) as [Hf Hv].
  destruct MAX_SCALE_value as [Hmf Hmv].
  unfold F32.gtb.
  rewrite (SFltb_B2R 53 1024 ltac:(lia) _ _ Hmf Hf).
  rewrite Hmv, Hv. reflexivity.
Qed.

Lemma ltb32 (a b : spec_float) :
  fv32 a -> fv32 b -> F32.ltb a b = true <-> (B2R a < B2R b)%R.
Proof.
  intros Ha Hb. unfold F32.ltb.
  apply (SFltb_B2R 24 128 ltac:(lia) _ _ Ha Hb).
Qed.

Lemma ltb32_false (a b : spec_float) :
  fv32 a -> fv32 b -> F32.ltb a b = false <-> (B2R b <= B2R a)%R.
Proof.
  intros Ha Hb. pose proof (ltb32 a b Ha Hb) as H.
  destruct (F32.ltb a b).
  - split; [discriminate|]. intros Hle.
    assert (B2R a < B2R b)%R by (apply H; reflexivity). lra.
  - split; [|reflexivity]. intros _.
    destruct (Rle_or_lt (B2R b) (B2R a)) as [Hle|Hlt]; [exact Hle|].
    apply H in Hlt. discriminate Hlt.
Qed.

Lemma is_binary32_fv32 (a : spec_float) : is_binary32 a = true <-> fv32 a.
Proof.
  unfold is_binary32, finite_valid, F32.prec, F32.emax.
  rewrite andb_true_iff. reflexivity.
Qed.

Lemma scale_in_bounds_real (a : spec_float) :
  scale_in_bounds a = true <-> fv32 a /\ (0 <= B2R a <= 100)%R.
Proof.
  unfold scale_in_bounds. rewrite !andb_true_iff, !negb_true_iff.
  rewrite is_binary32_fv32. split.
  - intros [[Ha Hlo] Hhi]. split; [exact Ha|].
    apply (ltb32_false a F32.zero Ha (finite_valid_zero 24 128 false)) in Hlo.
    cbn [B2R F32.zero] in Hlo. split; [exact Hlo|].
    pose proof (gtb_MAX_SCALE a Ha) as Hg. rewrite Hhi in Hg.
    destruct (Rle_or_lt (B2R a) 100) as [Hle|Hlt]; [exact Hle|].
    apply Hg in Hlt. discriminate Hlt.
  - intros [Ha [Hlo Hhi]]. split; [split; [exact Ha|]|].
    + apply (ltb32_false a F32.zero Ha (finite_valid_zero 24 128 false)).
      exact Hlo.
    + pose proof (gtb_MAX_SCALE a Ha) as Hg.
      destruct (F32.gtb (F32.to_double a) MAX_SCALE); [|reflexivity].
      assert (100 < B2R a)%R by (apply Hg; reflexivity). lra.
Qed.

(** The exact fraction of a finite number is its value. *)
Lemma num_den_B2R (a : spec_float) :
  F32.is_finite a = true ->
  exists sn sd : Z,
    F32.num_den a = Some (sn, sd) /\ 0 < sd
    /\ (B2R a * IZR sd = IZR sn)%R.
Proof.
  intros Hf. destruct a as [s|s| |s m e]; try discriminate Hf.
  - exists 0, 1. cbn. split; [reflexivity|]. split; [lia|lra].
  - unfold F32.num_den. cbn [B2R].
    destruct (Z.leb_spec 0 e) as [He|He].
    + exists (cond_Zopp s (Zpos m * 2 ^ e)), 1.
      split; [reflexivity|]. split; [lia|].
      rewrite (bpow_nonneg_Z e He).
      destruct s; cbn [cond_Zopp]; rewrite ?opp_IZR, ?mult_IZR; lra.
    + exists (cond_Zopp s (Zpos m)), (2 ^ (- e)).
      split; [reflexivity|]. split; [apply Z.pow_pos_nonneg; lia|].
      rewrite <- (bpow_nonneg_Z (- e)) by lia.
      rewrite Rmult_assoc. replace (bpow e * bpow (- e))%R with 1%R; [lra|].
      pose proof (bpow_opp e). lra.
Qed.

(** *** The scale that [zoom] computes *)

Lemma Rabs_le_both (x b : R) : (- b <= x <= b)%R -> (Rabs x <= b)%R.
Proof. unfold Rabs. destruct (Rcase_abs x); lra. Qed.

Lemma Rabs_bounds (x b : R) : (Rabs x <= b)%R -> (- b <= x <= b)%R.
Proof. unfold Rabs. destruct (Rcase_abs x); lra. Qed.

(** What an approximation says, without absolute values. *)
Lemma approx32_range (x : R) (r : spec_float) :
  approx32 x r ->
  fv32 r
  /\ (B2R r - x <= Rabs x / 8388608 + / 1000000000000)%R
  /\ (x - B2R r <= Rabs x / 8388608 + / 1000000000000)%R
  /\ (0 <= x -> 0 <= B2R r)%R /\ (x <= 0 -> B2R r <= 0)%R.
Proof.
  intros H. pose proof (approx32_bound x r H) as Hb.
  destruct H as (Hf & _ & Hp & Hn).
  apply Rabs_bounds in Hb.
  split; [exact Hf|]. split; [lra|]. split; [lra|]. split; assumption.
Qed.

Lemma of_Z_100 : fv32 (F32.of_Z 100) /\ B2R (F32.of_Z 100) = 100%R.
Proof. apply of_Z_exact. reflexivity. Qed.

Lemma of_Z_10 : fv32 (F32.of_Z MIN_SCALE) /\ B2R (F32.of_Z MIN_SCALE) = 10%R.
Proof. apply of_Z_exact. reflexivity. Qed.

(** The step [(scale / 100) * percent]. *)
Lemma zoom_step_real (S : spec_float) (p : Z) :
  fv32 S -> (0 <= B2R S <= 100)%R -> Z.abs p <= 2 ^ 63 ->
  let step := F32.mul (F32.div S (F32.of_Z 100)) (F32.of_Z p) in
  fv32 step
  /\ (0 <= p -> (0 <= B2R step)%R) /\ (p <= 0 -> (B2R step <= 0)%R)
  /\ (Rabs (B2R step) <= IZR (2 ^ 66))%R.
Proof.
  intros HS [Hs0 Hs1] Hp step.
  destruct of_Z_100 as [Hcf Hcv].
  assert (Hq : approx32 (B2R S / 100) (F32.div S (F32.of_Z 100))).
  { rewrite <- Hcv. apply div32; [exact HS|exact Hcf|rewrite Hcv; lra|].
    rewrite Hcv. apply Rabs_le_both.
    change (2 ^ 100) with 1267650600228229401496703205376. lra. }
  destruct (approx32_range _ _ Hq) as (Hqf & Hq1 & Hq2 & Hq3 & _).
  rewrite Rabs_pos_eq in Hq1, Hq2 by lra.
  specialize (Hq3 ltac:(lra)).
  set (q := F32.div S (F32.of_Z 100)) in *.
  assert (HP : approx32 (IZR p) (F32.of_Z p))
    by (apply of_Z_approx; lia).
  destruct (approx32_range _ _ HP) as (HPf & HP1 & HP2 & HP3 & HP4).
  set (P := F32.of_Z p) in *.
  assert (Hpb : (Rabs (IZR p) <= 9223372036854775808)%R).
  { rewrite <- abs_IZR. apply (IZR_le _ (2 ^ 63)). exact Hp. }
  assert (HPb : (Rabs (B2R P) <= 9223372036854775808 * 2)%R).
  { apply Rabs_le_both. apply Rabs_bounds in Hpb.
    assert (Rabs (IZR p) <= 9223372036854775808)%R
      by (apply Rabs_le_both; exact Hpb).
    lra. }
  assert (Hqb : (0 <= B2R q <= 2)%R) by lra.
  assert (Hprod : (Rabs (B2R q * B2R P) <= 9223372036854775808 * 4)%R).
  { rewrite Rabs_mult. rewrite (Rabs_pos_eq (B2R q)) by lra.
    pose proof (Rabs_pos (B2R P)). nra. }
  assert (Hm : approx32 (B2R q * B2R P) step).
  { apply mul32; [exact Hqf|exact HPf|].
    change (2 ^ 100) with 1267650600228229401496703205376. lra. }
  destruct (approx32_range _ _ Hm) as (Hmf & Hm1 & Hm2 & Hm3 & Hm4).
  split; [exact Hmf|]. split; [|split].
  - intros H0. apply Hm3. apply IZR_le in H0. specialize (HP3 H0). nra.
  - intros H0. apply Hm4. apply IZR_le in H0. specialize (HP4 H0). nra.
  - apply Rabs_le_both. apply Rabs_bounds in Hprod.
    assert (Rabs (B2R q * B2R P) <= 9223372036854775808 * 4)%R
      by (apply Rabs_le_both; exact Hprod).
    change (2 ^ 66) with 73786976294838206464. lra.
Qed.

(** The sum [scale + step]. *)
Lemma zoom_sum_real (S : spec_float) (p : Z) :
  fv32 S -> (0 <= B2R S <= 100)%R -> Z.abs p <= 2 ^ 63 ->
  let t := F32.add S (F32.mul (F32.div S (F32.of_Z 100)) (F32.of_Z p)) in
  fv32 t
  /\ (0 <= p -> (B2R S <= B2R t)%R) /\ (p <= 0 -> (B2R t <= B2R S)%R).
Proof.
  intros HS Hs Hp t.
  destruct (zoom_step_real S p HS Hs Hp) as (Hf & Hpos & Hneg & Hb).
  set (step := F32.mul (F32.div S (F32.of_Z 100)) (F32.of_Z p)) in *.
  assert (Hsum : (Rabs (B2R S + B2R step) <= IZR (2 ^ 100))%R).
  { apply Rabs_le_both. apply Rabs_bounds in Hb.
    change (2 ^ 66) with 73786976294838206464 in Hb.
    change (2 ^ 100) with 1267650600228229401496703205376. lra. }
  destruct (add32 S step HS Hf Hsum) as [Htf _].
  destruct (add32_monotone S step HS Hf ltac:(lra) Hsum) as [Hdown Hup].
  split; [exact Htf|]. split; intros H0; auto.
Qed.

(** One axis of the floor: [MIN_SCALE / dimension]. *)
Lemma floor_axis_real (w : Z) :
  1 <= w <= 2 ^ 64 ->
  let f := F32.div (F32.of_Z MIN_SCALE) (F32.of_Z w) in
  fv32 f /\ (0 <= B2R f <= 11)%R
  /\ (w <= 65536 -> (/ 20000 <= B2R f)%R).
Proof.
  intros Hw f. destruct of_Z_10 as [Hcf Hcv].
  assert (HW : approx32 (IZR w) (F32.of_Z w)) by (apply of_Z_approx; lia).
  destruct (approx32_range _ _ HW) as (HWf & HW1 & HW2 & _).
  assert (Hw1 : (1 <= IZR w)%R) by (apply (IZR_le 1); lia).
  assert (Hw2 : (IZR w <= 18446744073709551616)%R)
    by (apply (IZR_le _ (2 ^ 64)); lia).
  rewrite Rabs_pos_eq in HW1, HW2 by lra.
  set (W := F32.of_Z w) in *.
  assert (HWlo : (99 / 100 <= B2R W)%R) by lra.
  assert (HWhi : (B2R W <= 2 * IZR w)%R) by lra.
  assert (Hx : (0 < 10 / B2R W <= 101 / 10)%R).
  { split.
    - apply Rdiv_lt_0_compat; lra.
    - apply (Rmult_le_reg_r (B2R W)); [lra|].
      unfold Rdiv. rewrite Rmult_assoc, Rinv_l by lra. lra. }
  assert (Hq : approx32 (10 / B2R W) f).
  { rewrite <- Hcv. apply div32; [exact Hcf|exact HWf|lra|].
    rewrite Hcv. apply Rabs_le_both.
    change (2 ^ 100) with 1267650600228229401496703205376. lra. }
  destruct (approx32_range _ _ Hq) as (Hff & Hf1 & Hf2 & Hf3 & _).
  rewrite Rabs_pos_eq in Hf1, Hf2 by lra.
  split; [exact Hff|]. split; [split; [apply Hf3; lra|lra]|].
  intros Hsmall.
  assert (Hw3 : (IZR w <= 65536)%R) by (apply (IZR_le _ 65536); exact Hsmall).
  assert (Hlow : (/ 13200 <= 10 / B2R W)%R).
  { apply (Rmult_le_reg_r (B2R W)); [lra|].
    unfold Rdiv. rewrite Rmult_assoc, Rinv_l by lra. lra. }
  lra.
Qed.

Lemma scale_floor_real (c : canvas) :
  1 <= width (image c) <= 2 ^ 64 -> 1 <= height (image c) <= 2 ^ 64 ->
  fv32 (scale_floor c) /\ (0 <= B2R (scale_floor c) <= 11)%R
  /\ (width (image c) <= 65536 -> height (image c) <= 65536 ->
      (/ 20000 <= B2R (scale_floor c))%R).
Proof.
  intros Hw Hh.
  destruct (floor_axis_real _ Hw) as (Haf & Hab & Hal).
  destruct (floor_axis_real _ Hh) as (Hbf & Hbb & Hbl).
  unfold scale_floor, fmax.
  destruct (F32.gtb _ _); auto.
Qed.

Lemma zoom_scale_real (c : canvas) (p : Z) :
  fv32 (scale c) -> (0 <= B2R (scale c) <= 100)%R ->
  1 <= width (image c) <= 2 ^ 64 -> 1 <= height (image c) <= 2 ^ 64 ->
  Z.abs p <= 2 ^ 63 ->
  fv32 (zoom_scale p c)
  /\ (0 <= B2R (zoom_scale p c) <= 100)%R
  /\ (0 < p -> (B2R (scale c) <= B2R (zoom_scale p c))%R)
  /\ (p <= 0 -> (B2R (scale_floor c) <= B2R (zoom_scale p c))%R)
  /\ ((B2R (scale_floor c) <= B2R (scale c))%R ->
      (B2R (scale_floor c) <= B2R (zoom_scale p c))%R).
Proof.
  intros HS Hs Hw Hh Hp.
  destruct (scale_floor_real c Hw Hh) as (Hff & Hfb & _).
  destruct (zoom_sum_real (scale c) p HS Hs Hp) as (Htf & Hup & Hdown).
  unfold zoom_scale.
  change (fmax (F32.div (F32.of_Z MIN_SCALE) (F32.of_Z (width (image c))))
               (F32.div (F32.of_Z MIN_SCALE) (F32.of_Z (height (image c)))))
    with (scale_floor c).
  set (t := F32.add (scale c)
              (F32.mul (F32.div (scale c) (F32.of_Z 100)) (F32.of_Z p))) in *.
  destruct (Z.gtb_spec p 0) as [Hpos|Hneg].
  - specialize (Hup ltac:(lia)).
    destruct (F32.gtb (F32.to_double t) MAX_SCALE) eqn:G.
    + destruct of_double_MAX_SCALE as [Hmf Hmv]. rewrite Hmv.
      split; [exact Hmf|]. split; [lra|]. split; [intros; lra|].
      split; intros; lra.
    + assert (Ht : (B2R t <= 100)%R).
      { destruct (Rle_or_lt (B2R t) 100) as [Hle|Hlt]; [exact Hle|].
        apply (gtb_MAX_SCALE t Htf) in Hlt. rewrite G in Hlt.
        discriminate Hlt. }
      split; [exact Htf|]. split; [lra|]. split; [intros; lra|].
      split; intros; [lia|lra].
  - specialize (Hdown Hneg).
    destruct (F32.ltb t (scale_floor c)) eqn:L.
    + split; [exact Hff|]. split; [lra|]. split; [intros; lia|].
      split; intros; lra.
    + apply (ltb32_false t (scale_floor c) Htf Hff) in L.
      split; [exact Htf|]. split; [lra|]. split; [intros; lia|].
      split; intros; lra.
Qed.

Lemma is_ssize_abs (p : Z) : is_ssize p -> Z.abs p <= 2 ^ 63.
Proof. unfold is_ssize, ssize_half. lia. Qed.

Lemma is_size_dim (w : Z) : 1 <= w < size_mod -> 1 <= w <= 2 ^ 64.
Proof. unfold size_mod. lia. Qed.

(** A scale within the bounds stays within them, upwards and downwards. *)
Lemma zoom_scale_in_bounds (c : canvas) (p : Z) :
  scale_in_bounds (scale c) = true ->
  1 <= width (image c) < size_mod -> 1 <= height (image c) < size_mod ->
  is_ssize p ->
  scale_in_bounds (zoom_scale p c) = true.
Proof.
  intros Hb Hw Hh Hp. apply scale_in_bounds_real in Hb.
  destruct Hb as [HS Hs].
  destruct (zoom_scale_real c p HS Hs (is_size_dim _ Hw) (is_size_dim _ Hh)
              (is_ssize_abs _ Hp)) as (Hf & Hr & _).
  apply scale_in_bounds_real. auto.
Qed.

(** A scale at or above the floor stays so. *)
Lemma zoom_scale_above_floor (c : canvas) (p : Z) :
  scale_in_bounds (scale c) = true ->
  1 <= width (image c) < size_mod -> 1 <= height (image c) < size_mod ->
  is_ssize p ->
  F32.ltb (scale c) (scale_floor c) = false ->
  F32.ltb (zoom_scale p c) (scale_floor c) = false.
Proof.
  intros Hb Hw Hh Hp Hfl. apply scale_in_bounds_real in Hb.
  destruct Hb as [HS Hs].
  destruct (scale_floor_real c (is_size_dim _ Hw) (is_size_dim _ Hh))
    as (Hff & _).
  destruct (zoom_scale_real c p HS Hs (is_size_dim _ Hw) (is_size_dim _ Hh)
              (is_ssize_abs _ Hp)) as (Hf & _ & _ & _ & Hkeep).
  apply (ltb32_false _ _ HS Hff) in Hfl.
  apply (ltb32_false _ _ Hf Hff). auto.
Qed.

(** [fix_viewport] and [zoom] leave the image size and the window alone;
    [zoom] stores the scale of [zoom_scale]. *)
Lemma fix_viewport_keeps (c c1 : canvas) :
  fix_viewport c = Some c1 ->
  scale c1 = scale c /\ width (image c1) = width (image c)
  /\ height (image c1) = height (image c) /\ window c1 = window c.
Proof.
  unfold fix_viewport.
  destruct (scaled_width c); [|discriminate].
  destruct (scaled_height c); [|discriminate].
  intros E. injection E as <-.
  repeat match goal with
         | |- context [if ?b then _ else _] => destruct b
         end; repeat split.
Qed.

Lemma zoom_keeps (p : Z) (c c1 : canvas) :
  zoom p c = Some c1 ->
  scale c1 = zoom_scale p c /\ width (image c1) = width (image c)
  /\ height (image c1) = height (image c) /\ window c1 = window c.
Proof.
  unfold zoom. intros E.
  destruct (zoom_move p c) as [c2|] eqn:Em; [|discriminate].
  destruct (fix_viewport_keeps _ _ E) as (-> & -> & -> & ->).
  unfold zoom_move in Em.
  repeat match type of Em with
         | match ?t with Some _ => _ | None => _ end = _ =>
             destruct t; [|discriminate]
         end.
  injection Em as <-. repeat split.
Qed.

(** Any sequence of [zoom] calls. *)
Lemma zooms_in_bounds (ps : list Z) :
  forall c c',
    zooms ps c = Some c' ->
    Forall is_ssize ps ->
    scale_in_bounds (scale c) = true ->
    1 <= width (image c) < size_mod -> 1 <= height (image c) < size_mod ->
    scale_in_bounds (scale c') = true
    /\ scale_floor c' = scale_floor c
    /\ (F32.ltb (scale c) (scale_floor c) = false
        \/ Exists (fun p => p <= 0) ps ->
        F32.ltb (scale c') (scale_floor c') = false).
Proof.
  induction ps as [|p ps IH]; intros c c' H Hps Hb Hw Hh.
  - cbn [zooms] in H. injection H as <-. split; [exact Hb|].
    split; [reflexivity|]. intros [Hfl|Hex]; [exact Hfl|]. inversion Hex.
  - cbn [zooms] in H. destruct (zoom p c) as [c1|] eqn:Ez; [|discriminate].
    destruct (zoom_keeps _ _ _ Ez) as (Hs1 & Hw1 & Hh1 & _).
    inversion Hps as [|p' ps' Hp Hps']; subst.
    assert (Hfloor : scale_floor c1 = scale_floor c)
      by (unfold scale_floor; rewrite Hw1, Hh1; reflexivity).
    destruct (IH c1 c' H Hps') as (Hb' & Hf' & Hfl').
    + rewrite Hs1. apply zoom_scale_in_bounds; assumption.
    + rewrite Hw1. exact Hw.
    + rewrite Hh1. exact Hh.
    + split; [exact Hb'|]. split; [congruence|].
      intros Hor. apply Hfl'. rewrite Hs1, Hfloor.
      destruct Hor as [Hfl|Hex].
      * left. apply zoom_scale_above_floor; assumption.
      * inversion Hex as [p' ps' Hneg|p' ps' Hex']; subst.
        -- left. apply scale_in_bounds_real in Hb. destruct Hb as [HS Hs].
           destruct (scale_floor_real c (is_size_dim _ Hw) (is_size_dim _ Hh))
             as (Hff & _).
           destruct (zoom_scale_real c p HS Hs (is_size_dim _ Hw)
                       (is_size_dim _ Hh) (is_ssize_abs _ Hp))
             as (Hf & _ & _ & Hout & _).
           apply (ltb32_false _ _ Hf Hff). auto.
        -- right. exact Hex'.
Qed.

(** *** The scaled size and the shift of the viewport *)

Lemma Rabs_mult_le (a b A B : R) :
  (Rabs a <= A)%R -> (Rabs b <= B)%R -> (Rabs (a * b) <= A * B)%R.
Proof.
  intros Ha Hb. rewrite Rabs_mult.
  pose proof (Rabs_pos a). pose proof (Rabs_pos b).
  apply Rmult_le_compat; assumption.
Qed.

Lemma IZR_abs_le (z b : Z) : Z.abs z <= b -> (Rabs (IZR z) <= IZR b)%R.
Proof. intros H. rewrite <- abs_IZR. apply IZR_le. exact H. Qed.

(** [(size_t)(scale * dimension)] for a scale of at most 100 and a
    dimension of at most 65536: the product [o] as computed, and its
    truncation. *)
Lemma scaled_real (S : spec_float) (w : Z) :
  fv32 S -> (0 <= B2R S <= 100)%R -> 0 <= w <= 65536 ->
  exists z : Z,
    F32.to_size (F32.mul S (F32.of_Z w)) = Some z
    /\ 0 <= z <= 6553600
    /\ (IZR z <= B2R (F32.mul S (F32.of_Z w)) < IZR z + 1)%R
    /\ (B2R (F32.mul S (F32.of_Z w)) - B2R S * IZR w
        <= B2R S * IZR w / 8388608 + / 1000000000000)%R
    /\ (B2R S * IZR w - B2R (F32.mul S (F32.of_Z w))
        <= B2R S * IZR w / 8388608 + / 1000000000000)%R.
Proof.
  intros HS [Hs0 Hs1] Hw.
  destruct (of_Z_exact w) as [HWf HWv]; [lia|].
  assert (Hw0 : (0 <= IZR w)%R) by (apply (IZR_le 0); lia).
  assert (Hw1 : (IZR w <= 65536)%R) by (apply (IZR_le _ 65536); lia).
  assert (Hprod : (0 <= B2R S * IZR w <= 6553600)%R) by nra.
  assert (Hm : approx32 (B2R S * B2R (F32.of_Z w)) (F32.mul S (F32.of_Z w))).
  { apply mul32; [exact HS|exact HWf|]. rewrite HWv.
    apply Rabs_le_both.
    change (2 ^ 100) with 1267650600228229401496703205376. lra. }
  rewrite HWv in Hm.
  destruct (approx32_range _ _ Hm) as (Hmf & Hm1 & Hm2 & Hm3 & _).
  rewrite Rabs_pos_eq in Hm1, Hm2 by lra. specialize (Hm3 ltac:(lra)).
  set (o := F32.mul S (F32.of_Z w)) in *.
  destruct (to_size_spec o (proj1 Hmf)) as (z & Hz & Hz0 & Hzlo & Hzhi).
  { change (2 ^ 64) with 18446744073709551616. lra. }
  rewrite Rmax_right in Hzlo by lra.
  exists z. split; [exact Hz|]. split.
  - split; [exact Hz0|].
    assert (Hlt : (IZR z < IZR 6553601)%R) by lra.
    apply lt_IZR in Hlt. lia.
  - split; [lra|]. split; lra.
Qed.

(** [zoom_shift] returns for positions and window sizes in the range of
    [int] and scaled sizes of at most [2 ^ 23]. *)
Lemma zoom_shift_defined (pos cntr old delta : Z) :
  Z.abs pos <= 2 ^ 31 -> Z.abs cntr <= 2 ^ 32 ->
  1 <= old <= 2 ^ 23 -> Z.abs delta <= 2 ^ 23 ->
  exists z : Z, zoom_shift pos cntr old delta = Some z.
Proof.
  intros Hpos Hcntr Hold Hdelta. unfold zoom_shift.
  destruct (of_Z_exact old) as [HOf HOv]; [lia|].
  destruct (of_Z_exact delta) as [HDf HDv]; [lia|].
  assert (HC : approx32 (IZR cntr) (F32.of_Z cntr))
    by (apply of_Z_approx; lia).
  assert (HP : approx32 (IZR pos) (F32.of_Z pos))
    by (apply of_Z_approx; lia).
  destruct (approx32_range _ _ HC) as (HCf & HC1 & HC2 & _).
  destruct (approx32_range _ _ HP) as (HPf & HP1 & HP2 & _).
  pose proof (IZR_abs_le _ _ Hcntr) as Hcb.
  pose proof (IZR_abs_le _ _ Hpos) as Hpb.
  pose proof (IZR_abs_le _ _ Hdelta) as Hdb.
  change (2 ^ 32) with 4294967296 in Hcb.
  change (2 ^ 31) with 2147483648 in Hpb.
  change (2 ^ 23) with 8388608 in Hdb.
  assert (Ho1 : (1 <= IZR old)%R) by (apply (IZR_le 1); lia).
  set (C := F32.of_Z cntr) in *. set (P := F32.of_Z pos) in *.
  set (O := F32.of_Z old) in *. set (D := F32.of_Z delta) in *.
  assert (HCb : (Rabs (B2R C) <= 4294967296 * 2)%R).
  { apply Rabs_le_both. pose proof (Rabs_bounds _ _ Hcb). lra. }
  assert (HPb : (Rabs (B2R P) <= 2147483648 * 2)%R).
  { apply Rabs_le_both. pose proof (Rabs_bounds _ _ Hpb). lra. }
  assert (Hinv : (Rabs (/ B2R O) <= 1)%R).
  { rewrite HOv. rewrite Rabs_pos_eq.
    - rewrite <- Rinv_1. apply Rinv_le_contravar; lra.
    - apply Rlt_le, Rinv_0_lt_compat. lra. }
  assert (Hr : (Rabs (B2R C / B2R O) <= 4294967296 * 2 * 1)%R)
    by (apply Rabs_mult_le; assumption).
  assert (Hq : approx32 (B2R C / B2R O) (F32.div C O)).
  { apply div32; [exact HCf|exact HOf|rewrite HOv; lra|].
    change (2 ^ 100) with 1267650600228229401496703205376. lra. }
  destruct (approx32_range _ _ Hq) as (Hqf & Hq1 & Hq2 & _).
  set (q := F32.div C O) in *.
  assert (Hqb : (Rabs (B2R q) <= 4294967296 * 4)%R).
  { apply Rabs_le_both. pose proof (Rabs_bounds _ _ Hr). lra. }
  assert (Hx : (Rabs (B2R q * B2R D) <= 4294967296 * 4 * 8388608)%R).
  { apply Rabs_mult_le; [exact Hqb|]. rewrite HDv. exact Hdb. }
  assert (Hm : approx32 (B2R q * B2R D) (F32.mul q D)).
  { apply mul32; [exact Hqf|exact HDf|].
    change (2 ^ 100) with 1267650600228229401496703205376. lra. }
  destruct (approx32_range _ _ Hm) as (Hmf & Hm1 & Hm2 & _).
  set (m := F32.mul q D) in *.
  assert (Hmb : (Rabs (B2R m) <= 4294967296 * 8 * 8388608)%R).
  { apply Rabs_le_both. pose proof (Rabs_bounds _ _ Hx). lra. }
  assert (Hsum : (Rabs (B2R P + B2R m) <= 4294967296 * 9 * 8388608)%R).
  { apply Rabs_le_both. pose proof (Rabs_bounds _ _ Hmb).
    pose proof (Rabs_bounds _ _ HPb). lra. }
  assert (Ha : approx32 (B2R P + B2R m) (F32.add P m)).
  { apply add32; [exact HPf|exact Hmf|].
    change (2 ^ 100) with 1267650600228229401496703205376. lra. }
  destruct (approx32_range _ _ Ha) as (Haf & Ha1 & Ha2 & _).
  destruct (to_ssize_spec (F32.add P m) (proj1 Haf)) as (z & Hz & _).
  { apply Rle_lt_trans with (4294967296 * 18 * 8388608)%R.
    - apply Rabs_le_both. pose proof (Rabs_bounds _ _ Hsum). lra.
    - change (2 ^ 63) with 9223372036854775808. lra. }
  exists z. exact Hz.
Qed.

(** For a window center over the image ([0 <= cntr <= old]) and scaled
    sizes of at most 3276801 pixels, the new position is within 13/5 pixel
    of [pos + cntr / old * delta]. *)
Lemma zoom_shift_real (pos cntr old delta : Z) :
  Z.abs pos <= 3276801 -> 0 <= cntr <= old ->
  1 <= old <= 3276801 -> Z.abs delta <= 3276801 ->
  exists z : Z,
    zoom_shift pos cntr old delta = Some z
    /\ (Rabs (IZR z - (IZR pos + IZR cntr / IZR old * IZR delta))
        <= 13 / 5)%R.
Proof.
  intros Hpos Hcntr Hold Hdelta. unfold zoom_shift.
  destruct (of_Z_exact old) as [HOf HOv]; [lia|].
  destruct (of_Z_exact delta) as [HDf HDv]; [lia|].
  destruct (of_Z_exact cntr) as [HCf HCv]; [lia|].
  destruct (of_Z_exact pos) as [HPf HPv]; [lia|].
  pose proof (IZR_abs_le _ _ Hpos) as Hpb.
  pose proof (IZR_abs_le _ _ Hdelta) as Hdb.
  assert (Ho1 : (1 <= IZR old)%R) by (apply (IZR_le 1); lia).
  assert (Hc0 : (0 <= IZR cntr)%R) by (apply (IZR_le 0); lia).
  assert (Hco : (IZR cntr <= IZR old)%R) by (apply IZR_le; lia).
  set (r := (IZR cntr / IZR old)%R).
  assert (Hr : (0 <= r <= 1)%R).
  { unfold r. split.
    - apply Rmult_le_pos; [lra|]. apply Rlt_le, Rinv_0_lt_compat. lra.
    - apply (Rmult_le_reg_r (IZR old)); [lra|].
      unfold Rdiv. rewrite Rmult_assoc, Rinv_l by lra. lra. }
  assert (Hq : approx32 r (F32.div (F32.of_Z cntr) (F32.of_Z old))).
  { unfold r. rewrite <- HCv, <- HOv.
    apply div32; [exact HCf|exact HOf|rewrite HOv; lra|].
    rewrite HCv, HOv. fold r. apply Rabs_le_both.
    change (2 ^ 100) with 1267650600228229401496703205376. lra. }
  destruct (approx32_range _ _ Hq) as (Hqf & Hq1 & Hq2 & _).
  rewrite Rabs_pos_eq in Hq1, Hq2 by lra.
  set (q := F32.div (F32.of_Z cntr) (F32.of_Z old)) in *.
  set (d := IZR delta) in *.
  assert (He1 : (Rabs ((B2R q - r) * d)
                 <= (/ 8388608 + / 1000000000000) * 3276801)%R).
  { apply Rabs_mult_le; [|exact Hdb]. apply Rabs_le_both. lra. }
  assert (Hx1 : (Rabs (B2R q * d)
                 <= (1 + / 8388608 + / 1000000000000) * 3276801)%R).
  { apply Rabs_mult_le; [|exact Hdb]. apply Rabs_le_both. lra. }
  assert (Hm : approx32 (B2R q * B2R (F32.of_Z delta))
                 (F32.mul q (F32.of_Z delta))).
  { apply mul32; [exact Hqf|exact HDf|]. rewrite HDv. fold d.
    change (2 ^ 100) with 1267650600228229401496703205376. lra. }
  rewrite HDv in Hm. fold d in Hm.
  destruct (approx32_range _ _ Hm) as (Hmf & Hm1 & Hm2 & _).
  set (m := F32.mul q (F32.of_Z delta)) in *.
  pose proof (Rabs_bounds _ _ Hx1) as Hx1'.
  pose proof (Rabs_bounds _ _ He1) as He1'.
  pose proof (Rabs_bounds _ _ Hpb) as Hpb'.
  assert (Hsum : (Rabs (IZR pos + B2R m) <= 6553610)%R).
  { apply Rabs_le_both. lra. }
  assert (Ha : approx32 (B2R (F32.of_Z pos) + B2R m)
                 (F32.add (F32.of_Z pos) m)).
  { apply add32; [exact HPf|exact Hmf|]. rewrite HPv.
    change (2 ^ 100) with 1267650600228229401496703205376. lra. }
  rewrite HPv in Ha.
  destruct (approx32_range _ _ Ha) as (Haf & Ha1 & Ha2 & _).
  set (a := F32.add (F32.of_Z pos) m) in *.
  pose proof (Rabs_bounds _ _ Hsum) as Hsum'.
  destruct (to_ssize_spec a (proj1 Haf)) as (z & Hz & Hz1 & _).
  { apply Rle_lt_trans with 6553620%R.
    - apply Rabs_le_both. lra.
    - change (2 ^ 63) with 9223372036854775808. lra. }
  exists z. split; [exact Hz|].
  apply Rabs_def2 in Hz1.
  replace (IZR z - (IZR pos + r * d))%R
    with ((IZR z - B2R a) + (B2R a - (IZR pos + B2R m))
          + (B2R m - B2R q * d) + (B2R q - r) * d)%R by ring.
  apply Rabs_le_both. lra.
Qed.

(** *** The anchor of [zoom] *)

(** The error of the anchor in exact arithmetic: [o], [n] are the scaled
    sizes as computed, [old], [new] their truncations, [r] the part of
    the old size that lies left of the window center and [e] the error
    of the shift. *)
Lemma anchor_real (s s' w o n old new r e : R) :
  (0 < s)%R -> (0 < s' <= 100)%R -> (0 <= w <= 32768)%R ->
  (o - s * w <= s * w / 8388608 + / 1000000000000)%R ->
  (s * w - o <= s * w / 8388608 + / 1000000000000)%R ->
  (n - s' * w <= s' * w / 8388608 + / 1000000000000)%R ->
  (s' * w - n <= s' * w / 8388608 + / 1000000000000)%R ->
  (old <= o < old + 1)%R -> (new <= n < new + 1)%R -> (1 <= old)%R ->
  (0 <= r <= 1)%R -> (- (13 / 5) <= e <= 13 / 5)%R ->
  (- (5 * s + s') <= s * e + r * (old * s' - s * new) <= 5 * s + s')%R.
Proof.
  intros Hs Hs' Hw Ho1 Ho2 Hn1 Hn2 Hold Hnew Hold1 Hr He.
  set (Q := (s * w)%R) in *. set (P := (s' * w)%R) in *.
  assert (HQP : (Q * s' = s * P)%R) by (unfold Q, P; ring).
  assert (HP : (0 <= P <= 3276800)%R) by (unfold P; nra).
  assert (HQ : (99 / 100 <= Q)%R) by lra.
  assert (Hslo : (3 / 100000 <= s)%R) by (unfold Q in HQ; nra).
  assert (HsP : (0 <= s * P <= s * 3276800)%R).
  { split; [apply Rmult_le_pos; lra|].
    apply Rmult_le_compat_l; lra. }
  set (A := (old * s' - s * new)%R).
  assert (H1 : (old * s' <= o * s')%R)
    by (apply Rmult_le_compat_r; lra).
  assert (H2 : ((o - 1) * s' <= old * s')%R)
    by (apply Rmult_le_compat_r; lra).
  assert (H3 : (s * new <= s * n)%R)
    by (apply Rmult_le_compat_l; lra).
  assert (H4 : (s * (n - 1) <= s * new)%R)
    by (apply Rmult_le_compat_l; lra).
  assert (H5 : (o * s' <= (Q + (Q / 8388608 + / 1000000000000)) * s')%R)
    by (apply Rmult_le_compat_r; lra).
  assert (H6 : ((Q - (Q / 8388608 + / 1000000000000)) * s' <= o * s')%R)
    by (apply Rmult_le_compat_r; lra).
  assert (H7 : (s * n <= s * (P + (P / 8388608 + / 1000000000000)))%R)
    by (apply Rmult_le_compat_l; lra).
  assert (H8 : (s * (P - (P / 8388608 + / 1000000000000)) <= s * n)%R)
    by (apply Rmult_le_compat_l; lra).
  set (B := (s * (25 / 32) + (s + s') / 1000000000000 + s + s')%R).
  assert (HA : (- B <= A <= B)%R).
  { unfold A, B.
    replace ((Q + (Q / 8388608 + / 1000000000000)) * s')%R
      with (s * P + s * P / 8388608 + s' / 1000000000000)%R in H5
      by (rewrite <- HQP; field).
    replace ((Q - (Q / 8388608 + / 1000000000000)) * s')%R
      with (s * P - s * P / 8388608 - s' / 1000000000000)%R in H6
      by (rewrite <- HQP; field).
    replace (s * (P + (P / 8388608 + / 1000000000000)))%R
      with (s * P + s * P / 8388608 + s / 1000000000000)%R in H7 by field.
    replace (s * (P - (P / 8388608 + / 1000000000000)))%R
      with (s * P - s * P / 8388608 - s / 1000000000000)%R in H8 by field.
    replace ((o - 1) * s')%R with (o * s' - s')%R in H2 by ring.
    replace (s * (n - 1))%R with (s * n - s)%R in H4 by ring.
    lra. }
  assert (HB : (0 <= B)%R) by (unfold B; lra).
  assert (HrA : (- B <= r * A <= B)%R).
  { assert (0 <= r * (B - A))%R by (apply Rmult_le_pos; lra).
    assert (0 <= r * (B + A))%R by (apply Rmult_le_pos; lra).
    assert (0 <= (1 - r) * B)%R by (apply Rmult_le_pos; lra).
    nra. }
  assert (Hse : (- (s * (13 / 5)) <= s * e <= s * (13 / 5))%R).
  { split.
    - replace (- (s * (13 / 5)))%R with (s * - (13 / 5))%R by ring.
      apply Rmult_le_compat_l; lra.
    - apply Rmult_le_compat_l; lra. }
  fold A. unfold B in HrA. lra.
Qed.

Lemma to_ssize_to_size (z : Z) : is_ssize z -> to_ssize (to_size z) = z.
Proof.
  unfold is_ssize, to_ssize, to_size, size_mod, ssize_half.
  change (2 ^ 64) with 18446744073709551616.
  change (2 ^ 63) with 9223372036854775808.
  intros H. Z.div_mod_to_equations. lia.
Qed.

(** One axis of [zoom_move]. *)
Lemma axis_anchor (S S' : spec_float) (w W pos old : Z) :
  fv32 S -> (0 <= B2R S <= 100)%R -> fv32 S' -> (0 < B2R S' <= 100)%R ->
  1 <= w <= 32768 -> 0 <= W <= 65536 ->
  F32.to_size (F32.mul S (F32.of_Z w)) = Some old -> 1 <= old ->
  0 <= W / 2 - pos <= old ->
  exists new pos' : Z,
    F32.to_size (F32.mul S' (F32.of_Z w)) = Some new
    /\ zoom_shift pos (to_ssize (to_size (W / 2 - pos))) old
         (to_ssize (to_size (old - new))) = Some pos'
    /\ (0 < B2R S)%R
    /\ (Rabs (B2R S * (IZR pos' - IZR (W / 2))
              + IZR (W / 2 - pos) * B2R S')
        <= 5 * B2R S + B2R S')%R.
Proof.
  intros HS Hs HS' Hs' Hw HW Hold Hold1 Hc.
  destruct (scaled_real S w HS Hs ltac:(lia))
    as (z & Hz & Hzb & Hzo & Ho1 & Ho2).
  rewrite Hold in Hz. injection Hz as <-.
  destruct (scaled_real S' w HS' ltac:(lra) ltac:(lia))
    as (new & Hnew & Hnb & Hno & Hn1 & Hn2).
  set (o := B2R (F32.mul S (F32.of_Z w))) in *.
  set (n := B2R (F32.mul S' (F32.of_Z w))) in *.
  set (s := B2R S) in *. set (s' := B2R S') in *.
  assert (Hw0 : (1 <= IZR w)%R) by (apply (IZR_le 1); lia).
  assert (Hw1 : (IZR w <= 32768)%R) by (apply (IZR_le _ 32768); lia).
  assert (Ho : (1 <= IZR old)%R) by (apply (IZR_le 1); lia).
  assert (Hspos : (0 < s)%R) by nra.
  assert (Hsw : (s * IZR w <= 3276800)%R) by nra.
  assert (Hsw' : (s' * IZR w <= 3276800)%R) by nra.
  assert (Hob : old <= 3276800).
  { assert (Hlt : (IZR old < IZR 3276801)%R) by lra.
    apply lt_IZR in Hlt. lia. }
  assert (Hnb' : new <= 3276800).
  { assert (Hlt : (IZR new < IZR 3276801)%R) by lra.
    apply lt_IZR in Hlt. lia. }
  assert (HWh : 0 <= W / 2 <= 32768).
  { split; [apply Z.div_pos; lia|].
    apply Z.div_le_upper_bound; lia. }
  destruct (zoom_shift_real pos (W / 2 - pos) old (old - new))
    as (pos' & Hshift & Herr); try lia.
  exists new, pos'. split; [exact Hnew|].
  rewrite (to_ssize_to_size (W / 2 - pos))
    by (unfold is_ssize, ssize_half; lia).
  rewrite (to_ssize_to_size (old - new))
    by (unfold is_ssize, ssize_half; lia).
  split; [exact Hshift|].
  split; [exact Hspos|].
  set (c := IZR (W / 2 - pos)) in *.
  set (r := (c / IZR old)%R) in *.
  assert (Hc0 : (0 <= c)%R) by (apply (IZR_le 0); lia).
  assert (Hco : (c <= IZR old)%R) by (apply IZR_le; lia).
  assert (Hr : (0 <= r <= 1)%R).
  { unfold r. split.
    - apply Rmult_le_pos; [lra|]. apply Rlt_le, Rinv_0_lt_compat. lra.
    - apply (Rmult_le_reg_r (IZR old)); [lra|].
      unfold Rdiv. rewrite Rmult_assoc, Rinv_l by lra. lra. }
  assert (Hrc : (r * IZR old = c)%R).
  { unfold r, Rdiv. rewrite Rmult_assoc, Rinv_l by lra. ring. }
  set (e := (IZR pos' - (IZR pos + r * IZR (old - new)))%R) in *.
  apply Rabs_bounds in Herr.
  pose proof (anchor_real s s' (IZR w) o n (IZR old) (IZR new) r e
                Hspos Hs' ltac:(lra) Ho1 Ho2 Hn1 Hn2 Hzo Hno Ho Hr Herr)
    as Hmain.
  assert (Hpc : (IZR (W / 2) = IZR pos + c)%R).
  { unfold c. rewrite minus_IZR. ring. }
  replace (s * (IZR pos' - IZR (W / 2)) + c * s')%R
    with (s * e + r * (IZR old * s' - s * IZR new))%R.
  - apply Rabs_le_both. exact Hmain.
  - unfold e. rewrite Hpc, minus_IZR.
    replace (r * (IZR old * s' - s * IZR new))%R
      with (r * IZR old * s' - s * r * IZR new)%R by ring.
    rewrite Hrc. ring_simplify.
    replace (s * r * IZR old)%R with (s * (r * IZR old))%R by ring.
    rewrite Hrc. ring.
Qed.

(** From the bound on the values to the test on the fractions. *)
Lemma anchor_axis_bridge (k W p p' sn sd sn' sd' : Z) (s s' : R) :
  0 < sd -> 0 < sd' ->
  (s * IZR sd = IZR sn)%R -> (s' * IZR sd' = IZR sn')%R -> (0 < s)%R ->
  (Rabs (s * (IZR p' - IZR (W / 2)) + IZR (W / 2 - p) * s')
   <= IZR k * s + s')%R ->
  anchor_axis_within (k * (sd' * sn) + sn' * sd) (sd' * sn) W p p'
    sn sd sn' sd' = true.
Proof.
  intros Hsd Hsd' Hsn Hsn' Hs Hb. unfold anchor_axis_within.
  apply Z.leb_le.
  assert (Hd : (0 < IZR sd)%R) by (apply (IZR_lt 0); exact Hsd).
  assert (Hd' : (0 < IZR sd')%R) by (apply (IZR_lt 0); exact Hsd').
  assert (Hsnpos : 0 < sn).
  { apply lt_IZR. rewrite <- Hsn. apply Rmult_lt_0_compat; assumption. }
  apply Z.mul_le_mono_nonneg_r; [lia|].
  apply le_IZR. rewrite abs_IZR.
  set (M := (IZR sd * IZR sd')%R).
  assert (HM : (0 < M)%R) by (apply Rmult_lt_0_compat; assumption).
  set (G := (s * (IZR p' - IZR (W / 2)) + IZR (W / 2 - p) * s')%R) in *.
  assert (E1 : IZR ((p' - W / 2) * (sd' * sn) + (W / 2 - p) * (sn' * sd))
               = (M * G)%R).
  { rewrite plus_IZR, !mult_IZR, minus_IZR, <- Hsn, <- Hsn'.
    unfold M, G. ring. }
  assert (E2 : IZR (k * (sd' * sn) + sn' * sd) = (M * (IZR k * s + s'))%R).
  { rewrite plus_IZR, !mult_IZR, <- Hsn, <- Hsn'. unfold M. ring. }
  rewrite E1, E2, Rabs_mult, (Rabs_pos_eq M) by lra.
  apply Rmult_le_compat_l; [lra|exact Hb].
Qed.

Lemma scaled_positive (S : spec_float) (w z : Z) :
  fv32 S -> (0 <= B2R S <= 100)%R -> 0 <= w <= 65536 ->
  F32.to_size (F32.mul S (F32.of_Z w)) = Some z -> 1 <= z ->
  (0 < B2R S)%R.
Proof.
  intros HS Hs Hw Hz Hz1.
  destruct (scaled_real S w HS Hs Hw) as (z' & Hz' & _ & Hzo & Ho1 & _).
  rewrite Hz in Hz'. injection Hz' as <-.
  assert (1 <= IZR z)%R by (apply (IZR_le 1); exact Hz1).
  assert (0 <= IZR w <= 65536)%R
    by (split; [apply (IZR_le 0)|apply (IZR_le _ 65536)]; lia).
  nra.
Qed.

(** The new scale is positive when the old one is. *)
Lemma zoom_scale_positive (c : canvas) (p : Z) :
  fv32 (scale c) -> (0 < B2R (scale c) <= 100)%R ->
  1 <= width (image c) <= 65536 -> 1 <= height (image c) <= 65536 ->
  is_ssize p ->
  fv32 (zoom_scale p c) /\ (0 < B2R (zoom_scale p c) <= 100)%R.
Proof.
  intros HS Hs Hw Hh Hp.
  destruct (zoom_scale_real c p HS ltac:(lra) ltac:(lia) ltac:(lia)
              (is_ssize_abs _ Hp)) as (Hf & Hb & Hin & Hout & _).
  destruct (scale_floor_real c ltac:(lia) ltac:(lia)) as (_ & _ & Hfl).
  specialize (Hfl ltac:(lia) ltac:(lia)).
  split; [exact Hf|]. split; [|lra].
  destruct (Z.lt_ge_cases 0 p) as [Hpos|Hneg].
  - specialize (Hin Hpos). lra.
  - specialize (Hout Hneg). lra.
Qed.

(** [zoom_move] keeps the anchor within 5 window pixels and [s' / s] of a
    pixel, for images of at most 32768 pixels a side shown under the
    window center. *)
Lemma zoom_move_anchor (c : canvas) (p ow oh : Z) :
  scale_in_bounds (scale c) = true ->
  1 <= width (image c) <= 32768 -> 1 <= height (image c) <= 32768 ->
  0 <= swidth (window c) <= 65536 -> 0 <= sheight (window c) <= 65536 ->
  scaled_width c = Some ow -> 1 <= ow ->
  scaled_height c = Some oh -> 1 <= oh ->
  0 <= swidth (window c) / 2 - x (image c) <= ow ->
  0 <= sheight (window c) / 2 - y (image c) <= oh ->
  is_ssize p ->
  exists c',
    zoom_move p c = Some c' /\ anchor_within_ratio 5 c c' = true.
Proof.
  intros Hb Hw Hh HW HH Hsw How Hsh Hoh Hcx Hcy Hp.
  apply scale_in_bounds_real in Hb. destruct Hb as [HS Hs].
  unfold scaled_width in Hsw. unfold scaled_height in Hsh.
  assert (Hspos : (0 < B2R (scale c))%R).
  { apply (scaled_positive (scale c) (width (image c)) ow HS Hs); try lia.
    exact Hsw. }
  destruct (zoom_scale_positive c p HS ltac:(lra) ltac:(lia) ltac:(lia) Hp)
    as [HS' Hs'].
  destruct (axis_anchor (scale c) (zoom_scale p c) _ _ _ _
              HS Hs HS' Hs' Hw HW Hsw How Hcx)
    as (nw & nx & Hnw & Hnx & _ & Hex).
  destruct (axis_anchor (scale c) (zoom_scale p c) _ _ _ _
              HS Hs HS' Hs' Hh HH Hsh Hoh Hcy)
    as (nh & ny & Hnh & Hny & _ & Hey).
  unfold zoom_move, scaled_width, scaled_height.
  rewrite Hsw, Hsh.
  cbn [scale image window set_scale_field width height swidth sheight x y].
  rewrite Hnw, Hnh, Hnx, Hny.
  eexists. split; [reflexivity|].
  unfold anchor_within_ratio.
  cbn [scale image window set_pos set_scale_field swidth sheight x y].
  destruct (num_den_B2R (scale c) (proj1 HS))
    as (sn & sd & -> & Hsd & Hv).
  destruct (num_den_B2R (zoom_scale p c) (proj1 HS'))
    as (sn' & sd' & -> & Hsd' & Hv').
  assert (Hsn : 0 < sn).
  { apply lt_IZR. rewrite <- Hv. apply Rmult_lt_0_compat; [exact Hspos|].
    apply (IZR_lt 0). exact Hsd. }
  assert (Hsn' : 0 < sn').
  { apply lt_IZR. rewrite <- Hv'. apply Rmult_lt_0_compat; [lra|].
    apply (IZR_lt 0). exact Hsd'. }
  apply Z.ltb_lt in Hsn, Hsn'. rewrite Hsn, Hsn'. cbn [andb].
  rewrite (anchor_axis_bridge 5 _ _ _ sn sd sn' sd' _ _
             Hsd Hsd' Hv Hv' Hspos Hex).
  rewrite (anchor_axis_bridge 5 _ _ _ sn sd sn' sd' _ _
             Hsd Hsd' Hv Hv' Hspos Hey).
  reflexivity.
Qed.

(** [zoom] returns: for a scale within the bounds, an image of at most
    65536 pixels a side whose scaled sides are at least one pixel, and
    positions and window sizes in the range of [int]. *)
Lemma zoom_defined (c : canvas) (p ow oh : Z) :
  scale_in_bounds (scale c) = true ->
  1 <= width (image c) <= 65536 -> 1 <= height (image c) <= 65536 ->
  0 <= swidth (window c) <= 2 ^ 31 -> 0 <= sheight (window c) <= 2 ^ 31 ->
  Z.abs (x (image c)) <= 2 ^ 31 -> Z.abs (y (image c)) <= 2 ^ 31 ->
  scaled_width c = Some ow -> 1 <= ow ->
  scaled_height c = Some oh -> 1 <= oh ->
  is_ssize p ->
  exists c', zoom p c = Some c' /\ scale c' = zoom_scale p c.
Proof.
  intros Hb Hw Hh HW HH Hx Hy Hsw How Hsh Hoh Hp.
  apply scale_in_bounds_real in Hb. destruct Hb as [HS Hs].
  unfold scaled_width in Hsw. unfold scaled_height in Hsh.
  destruct (zoom_scale_real c p HS Hs ltac:(lia) ltac:(lia)
              (is_ssize_abs _ Hp)) as (HS' & Hs' & _).
  assert (Hw0 : 0 <= width (image c) <= 65536) by lia.
  assert (Hh0 : 0 <= height (image c) <= 65536) by lia.
  destruct (scaled_real _ _ HS Hs Hw0)
    as (z & Hz & Hzb & _).
  rewrite Hsw in Hz. injection Hz as <-.
  destruct (scaled_real _ _ HS Hs Hh0)
    as (z & Hz & Hzb' & _).
  rewrite Hsh in Hz. injection Hz as <-.
  destruct (scaled_real _ _ HS' Hs' Hw0)
    as (nw & Hnw & Hnwb & _).
  destruct (scaled_real _ _ HS' Hs' Hh0)
    as (nh & Hnh & Hnhb & _).
  assert (HWh : 0 <= swidth (window c) / 2 <= 2 ^ 30).
  { split; [apply Z.div_pos; lia|]. apply Z.div_le_upper_bound; lia. }
  assert (HHh : 0 <= sheight (window c) / 2 <= 2 ^ 30).
  { split; [apply Z.div_pos; lia|]. apply Z.div_le_upper_bound; lia. }
  unfold zoom, zoom_move, scaled_width, scaled_height.
  rewrite Hsw, Hsh.
  cbn [scale image window set_scale_field width height swidth sheight x y].
  rewrite Hnw, Hnh.
  rewrite (to_ssize_to_size (swidth (window c) / 2 - x (image c)))
    by (unfold is_ssize, ssize_half; lia).
  rewrite (to_ssize_to_size (sheight (window c) / 2 - y (image c)))
    by (unfold is_ssize, ssize_half; lia).
  rewrite (to_ssize_to_size (ow - nw)) by (unfold is_ssize, ssize_half; lia).
  rewrite (to_ssize_to_size (oh - nh)) by (unfold is_ssize, ssize_half; lia).
  destruct (zoom_shift_defined (x (image c))
              (swidth (window c) / 2 - x (image c)) ow (ow - nw))
    as (nx & ->); try lia.
  destruct (zoom_shift_defined (y (image c))
              (sheight (window c) / 2 - y (image c)) oh (oh - nh))
    as (ny & ->); try lia.
  unfold fix_viewport, scaled_width, scaled_height.
  cbn [scale image window set_pos set_scale_field width height].
  rewrite Hnw, Hnh.
  eexists. split; [reflexivity|].
  repeat match goal with
         | |- context [if ?b then _ else _] => destruct b
         end; reflexivity.
Qed.

End ZoomFacts.

(** * Properties of the canvas *)

Module CanvasFacts.

Import CInt Canvas.

Ltac cint :=
  unfold is_size, is_ssize, is_int, to_size, to_ssize,
         size_mod, ssize_half, int_mod, int_half in *;
  change (2 ^ 64) with 18446744073709551616 in *;
  change (2 ^ 63) with 9223372036854775808 in *;
  change (2 ^ 32) with 4294967296 in *;
  change (2 ^ 31) with 2147483648 in *.

Ltac zbool :=
  repeat match goal with
  | H : andb _ _ = true |- _ => apply andb_true_iff in H; destruct H
  | H : andb _ _ = false |- _ => apply andb_false_iff in H
  | H : orb _ _ = true |- _ => apply orb_true_iff in H
  | H : orb _ _ = false |- _ => apply orb_false_iff in H; destruct H
  | H : (_ <=? _) = true |- _ => apply Z.leb_le in H
  | H : (_ <=? _) = false |- _ => apply Z.leb_gt in H
  | H : (_ <? _) = true |- _ => apply Z.ltb_lt in H
  | H : (_ <? _) = false |- _ => apply Z.ltb_ge in H
  | H : (_ >? _) = true |- _ => rewrite Z.gtb_ltb in H
  | H : (_ >? _) = false |- _ => rewrite Z.gtb_ltb in H
  | H : (_ =? _) = true |- _ => apply Z.eqb_eq in H
  | H : (_ =? _) = false |- _ => apply Z.eqb_neq in H
  end.

Lemma to_size_range (z : Z) : is_size (to_size z).
Proof. cint. apply Z.mod_pos_bound. lia. Qed.

Lemma to_ssize_range (z : Z) : is_ssize (to_ssize z).
Proof.
  cint. pose proof (Z.mod_pos_bound (z + 9223372036854775808)
                      18446744073709551616 ltac:(lia)). lia.
Qed.

Lemma to_size_small (z : Z) : is_size z -> to_size z = z.
Proof. cint. intros H. apply Z.mod_small. lia. Qed.

(** Going through [ssize_t] does not change a value computed in [size_t]. *)
Lemma to_size_to_ssize_add (a b : Z) :
  to_size (to_ssize (to_size a) + b) = to_size (a + b).
Proof. cint. Z.div_mod_to_equations. lia. Qed.

Lemma scaled_width_set_pos (c : canvas) (nx ny : Z) :
  scaled_width (set_pos c nx ny) = scaled_width c.
Proof. reflexivity. Qed.

Lemma scaled_height_set_pos (c : canvas) (nx ny : Z) :
  scaled_height (set_pos c nx ny) = scaled_height c.
Proof. reflexivity. Qed.

(** [fix_viewport] treats the two axes independently. *)
Lemma fix_viewport_axes (c : canvas) :
  fix_viewport c =
  (w <- scaled_width c ;;
   h <- scaled_height c ;;
   Some (set_pos c (fix_axis (x (image c)) w (swidth (window c)))
                   (fix_axis (y (image c)) h (sheight (window c))))).
Proof.
  unfold fix_viewport, fix_axis.
  destruct (scaled_width c) as [w|]; [|reflexivity].
  destruct (scaled_height c) as [h|]; [|reflexivity].
  destruct ((x (image c) >? 0) && (to_size (x (image c) + w) >? swidth (window c)));
  destruct ((y (image c) >? 0) && (to_size (y (image c) + h) >? sheight (window c)));
  destruct ((x (image c) <? 0) && (to_size (x (image c) + w) <? swidth (window c)));
  destruct ((y (image c) <? 0) && (to_size (y (image c) + h) <? sheight (window c)));
  destruct (w <=? swidth (window c));
  destruct (h <=? sheight (window c));
  destruct c as [? ? ? ? ? [? ? ? ?] ? ?]; reflexivity.
Qed.

Lemma fix_axis_idempotent (p sz wnd : Z) :
  is_size wnd ->
  fix_axis (fix_axis p sz wnd) sz wnd = fix_axis p sz wnd.
Proof.
  intros Hw. unfold fix_axis.
  destruct (sz <=? wnd) eqn:Hle; [reflexivity|].
  destruct ((p <? 0) && (to_size (p + sz) <? wnd)) eqn:Hneg.
  - rewrite to_size_to_ssize_add.
    replace (wnd - sz + sz) with wnd by lia.
    rewrite (to_size_small wnd Hw).
    rewrite Z.ltb_irrefl, (Z.gtb_ltb wnd wnd), Z.ltb_irrefl, !andb_false_r.
    reflexivity.
  - destruct ((p >? 0) && (to_size (p + sz) >? wnd)) eqn:Hpos.
    + reflexivity.
    + rewrite Hneg, Hpos. reflexivity.
Qed.

(** C7. Clamping idempotence: on every well-formed viewport state whose
    scaled image size is defined, [fix_viewport] returns a state, and
    applying it to that state returns the very same state (so the same
    image rectangle). *)
Theorem fix_viewport_idempotent (c : canvas) (w h : Z) :
  wf c ->
  scaled_width c = Some w ->
  scaled_height c = Some h ->
  exists c1, fix_viewport c = Some c1 /\ fix_viewport c1 = Some c1.
Proof.
  intros (_ & _ & _ & _ & Hww & Hwh) Hw Hh.
  eexists. split.
  - rewrite fix_viewport_axes, Hw, Hh. reflexivity.
  - rewrite fix_viewport_axes, scaled_width_set_pos, scaled_height_set_pos,
      Hw, Hh.
    cbn [set_pos image window x y width height].
    rewrite !fix_axis_idempotent by assumption.
    reflexivity.
Qed.

Lemma fix_viewport_idempotent_witness :
  exists c1, fix_viewport example_800x600 = Some c1
             /\ fix_viewport c1 = Some c1.
Proof.
  apply (fix_viewport_idempotent example_800x600 800 600).
  - unfold wf. cint. cbn. lia.
  - vm_compute. reflexivity.
  - vm_compute. reflexivity.
Defined.

(** The same at a state that the pass changes: the image of 200x200 in a
    window of 100x100, pulled 30 pixels inside the left edge. *)
Lemma clamp_twice_example :
  fix_viewport (canvas_at F32.one 30 (-120) 200 200 100 100)
  = Some (canvas_at F32.one 0 (-100) 200 200 100 100)
  /\ fix_viewport (canvas_at F32.one 0 (-100) 200 200 100 100)
     = Some (canvas_at F32.one 0 (-100) 200 200 100 100).
Proof. split; vm_compute; reflexivity. Qed.

(** As long as some part of an oversized image is at or after the window's
    near edge, the clamp pass leaves no gap on that axis. *)
Lemma fix_axis_no_gap_when_visible (p sz wnd : Z) :
  is_size wnd -> is_ssize p -> 0 <= sz < ssize_half ->
  0 <= p + sz ->
  no_gap_axis (fix_axis p sz wnd) sz wnd = true.
Proof.
  intros Hw Hp Hsz Hvis. unfold no_gap_axis, fix_axis.
  destruct (sz <=? wnd) eqn:Hle; [reflexivity|]. cbn [orb].
  assert (Hsum : to_size (p + sz) = p + sz).
  { apply to_size_small. cint. lia. }
  rewrite Hsum.
  assert (Hdiff : to_ssize (to_size (wnd - sz)) = wnd - sz).
  { cint. zbool. Z.div_mod_to_equations. lia. }
  rewrite Hdiff.
  destruct ((p <? 0) && (p + sz <? wnd)) eqn:Hneg;
    destruct ((p >? 0) && (p + sz >? wnd)) eqn:Hpos;
    zbool; apply andb_true_iff; split;
    try apply Z.leb_le; try lia.
Qed.

(** The clamp pass restores the no-gap invariant from every state in
    which the image, on each axis, still reaches the window's near edge
    or lies after it. *)
Lemma fix_viewport_no_gap_when_visible (c : canvas) (w h : Z) :
  wf c ->
  scaled_width c = Some w -> scaled_height c = Some h ->
  w < ssize_half -> h < ssize_half ->
  0 <= x (image c) + w -> 0 <= y (image c) + h ->
  exists c1, fix_viewport c = Some c1 /\ no_gap c1 = true.
Proof.
  intros (Hx & Hy & _ & _ & Hww & Hwh) Hw Hh Hwr Hhr Hvx Hvy.
  pose proof (F32Facts.to_size_some_range _ _ Hw).
  pose proof (F32Facts.to_size_some_range _ _ Hh).
  eexists. split.
  - rewrite fix_viewport_axes, Hw, Hh. reflexivity.
  - unfold no_gap.
    rewrite scaled_width_set_pos, scaled_height_set_pos, Hw, Hh.
    cbn [set_pos image window x y].
    rewrite !fix_axis_no_gap_when_visible; auto; lia.
Qed.

(** C3. The no-gap invariant is lost once an oversized image is dragged
    wholly past the window's left edge: [img.x + img.width] is computed in
    [size_t], wraps, and the clamp pass leaves the image where it is.
    Window 100x100, image 200x200 at real size, dragged by -300: the image
    ends at x = -350, its right edge at -150.  Dragged by -120 only, its
    right edge would be at 30 and the same test snaps it back to
    x = -100. *)
Theorem no_gap_lost_by_far_drag :
  (exists c, far_drag_run = Some c
             /\ x (image c) = -350
             /\ scaled_width c = Some 200
             /\ swidth (window c) = 100
             /\ no_gap c = false)
  /\ (exists c, drag_run (-120) = Some c
                /\ x (image c) = -100
                /\ no_gap c = true).
Proof.
  split.
  - eexists. split; [vm_compute; reflexivity|].
    split; [reflexivity|]. split; [vm_compute; reflexivity|].
    split; [reflexivity|]. vm_compute. reflexivity.
  - eexists. split; [vm_compute; reflexivity|].
    split; [reflexivity|]. vm_compute. reflexivity.
Qed.

(** The canvas before any image is set: zero scale, empty image. *)
Lemma reset_window_blank (w h s : Z) (c : canvas) :
  scale c = F32.zero -> width (image c) = 0 -> height (image c) = 0 ->
  exists c1,
    canvas_reset_window w h s c = Some (swidth (window c) =? 0, c1)
    /\ scale c1 = F32.zero /\ width (image c1) = 0 /\ height (image c1) = 0
    /\ swidth (window c1) = w.
Proof.
  intros Hs Hiw Hih. unfold canvas_reset_window.
  rewrite fix_viewport_axes.
  unfold scaled_width, scaled_height.
  cbn [scale image window width height]. rewrite Hs, Hiw, Hih.
  change (F32.to_size (F32.mul F32.zero (F32.of_Z 0))) with (Some 0).
  eexists. split; [reflexivity|]. cbn. auto.
Qed.

(** C8, as stated, fails: a first call that passes width 0 leaves the
    stored width at 0, and the second call returns [true] as well. *)
Lemma reset_window_second_call_true :
  exists firsts c,
    reset_window_calls [(0, 0, 1); (800, 600, 1)] ctx0 = Some (firsts, c)
    /\ nth 1 firsts false = true.
Proof.
  eexists. eexists. split; [vm_compute; reflexivity|]. reflexivity.
Qed.

(** The clamp pass changes the position only. *)
Lemma fix_viewport_window (c c1 : canvas) :
  fix_viewport c = Some c1 -> window c1 = window c.
Proof.
  rewrite fix_viewport_axes.
  destruct (scaled_width c); [|discriminate].
  destruct (scaled_height c); [|discriminate].
  intros E. injection E as <-. reflexivity.
Qed.

(** Only [canvas_reset_window] writes the window size. *)
Lemma operation_keeps_window (str_to_num : string -> option Z)
      (o : operation) (c c1 : canvas) :
  (forall w h s, o <> op_reset_window w h s) ->
  apply_operation str_to_num o c = Some c1 -> window c1 = window c.
Proof.
  intros Ho H.
  assert (Hscale : forall sc c0 c2,
             set_scale sc c0 = Some c2 -> window c2 = window c0).
  { intros sc c0 c2 E. unfold set_scale in E.
    repeat match type of E with
           | match ?t with Some _ => _ | None => _ end = _ =>
               destruct t; [|discriminate]
           end.
    apply fix_viewport_window in E. exact E. }
  assert (Hzoom : forall p c0 c2, zoom p c0 = Some c2 -> window c2 = window c0).
  { intros p c0 c2 E. unfold zoom in E.
    destruct (zoom_move p c0) as [c3|] eqn:Em; [|discriminate].
    apply fix_viewport_window in E. rewrite E.
    unfold zoom_move in Em.
    repeat match type of Em with
           | match ?t with Some _ => _ | None => _ end = _ =>
               destruct t; [|discriminate]
           end.
    injection Em as <-. reflexivity. }
  destruct o as [w h s| w h| |hz p|dx dy|op]; cbn [apply_operation] in H.
  - exfalso. apply (Ho w h s). reflexivity.
  - unfold canvas_reset_image in H. apply Hscale in H. exact H.
  - unfold canvas_swap_image_size in H.
    repeat match type of H with
           | match ?t with Some _ => _ | None => _ end = _ =>
               destruct t; [|discriminate]
           end.
    apply fix_viewport_window in H. exact H.
  - unfold canvas_move in H.
    destruct (fix_viewport _) as [c2|] eqn:E; [|discriminate].
    injection H as <-. apply fix_viewport_window in E.
    rewrite E. destruct hz; reflexivity.
  - unfold canvas_drag in H.
    destruct (ssize_checked _); [|discriminate].
    destruct (ssize_checked _); [|discriminate].
    destruct (fix_viewport _) as [c2|] eqn:E; [|discriminate].
    injection H as <-. apply fix_viewport_window in E. exact E.
  - destruct (canvas_zoom str_to_num op c) as [[c2 d]|] eqn:E; [|discriminate].
    injection H as <-. unfold canvas_zoom in E.
    destruct op as [[|ch op]|]; try (injection E as <- _; reflexivity).
    destruct (find _ scale_names) as [sc|].
    + destruct (set_scale sc c) as [c3|] eqn:E3; [|discriminate].
      injection E as <- _. apply (Hscale _ _ _ E3).
    + destruct (str_to_num (String ch op)) as [p|];
        [|injection E as <- _; reflexivity].
      destruct (negb (p =? 0) && (p >? -1000) && (p <? 1000));
        [|injection E as <- _; reflexivity].
      destruct (zoom p c) as [c3|] eqn:E3; [|discriminate].
      injection E as <- _. apply (Hzoom _ _ _ E3).
Qed.

(** What a call returns and what it stores. *)
Lemma reset_window_result (w h s : Z) (c : canvas) (first : bool)
      (c1 : canvas) :
  canvas_reset_window w h s c = Some (first, c1) ->
  first = (swidth (window c) =? 0)
  /\ window c1 = {| swidth := w; sheight := h |}
  /\ wnd_scale c1 = s.
Proof.
  unfold canvas_reset_window. intros H.
  destruct (fix_viewport _) as [c2|] eqn:E; [|discriminate].
  injection H as <- <-. split; [reflexivity|].
  split; [apply (fix_viewport_window _ _ E)|].
  rewrite fix_viewport_axes in E.
  destruct (scaled_width _); [|discriminate].
  destruct (scaled_height _); [|discriminate].
  injection E as <-. reflexivity.
Qed.

Lemma operations_flags_stored (str_to_num : string -> option Z)
      (os : list operation) :
  forall c flags c',
    operations_flags str_to_num os c = Some (flags, c') ->
    flags = stored_width_flags (swidth (window c)) os.
Proof.
  induction os as [|o os IH]; intros c flags c' H.
  - cbn [operations_flags] in H. injection H as <- _. reflexivity.
  - destruct o as [w h s| w h| |hz p|dx dy|op];
      cbn [operations_flags stored_width_flags] in *.
    1:{ destruct (canvas_reset_window w h s c) as [[first c1]|] eqn:E;
          [|discriminate].
        destruct (operations_flags str_to_num os c1) as [[firsts c2]|] eqn:E2;
          [|discriminate].
        injection H as <- _.
        destruct (reset_window_result _ _ _ _ _ _ E) as (-> & Hw & _).
        rewrite (IH _ _ _ E2), Hw. reflexivity. }
    all: match type of H with
         | match ?t with Some _ => _ | None => _ end = _ =>
             destruct t as [c1|] eqn:E; [|discriminate]
         end;
         rewrite (IH _ _ _ H);
         pose proof (fun Hne => operation_keeps_window str_to_num _ c c1
                                  Hne E) as Hw;
         rewrite Hw by (intros; discriminate);
         reflexivity.
Qed.

(** C8, amended. [canvas_reset_window] returns [true] exactly when the
    window width stored before the call is 0, in every state: whenever the
    scaled image size converts to [size_t] the call returns, with that
    flag, and stores the width, the height and the scale it is given; no
    other operation writes the window size, so in every run of operations
    the flags of the [canvas_reset_window] calls are those of the widths
    passed before them.  From the initial state every run of
    [canvas_reset_window] calls returns: the first call gives [true], a
    later one gives [true] if and only if the call before it passed
    width 0. *)
Theorem reset_window_first_flags (c : canvas) :
  (forall calls,
     exists c', reset_window_calls calls ctx0
                = Some (first_flags 0 calls, c'))
  /\ (forall w h s sw sh,
        scaled_width c = Some sw -> scaled_height c = Some sh ->
        exists c',
          canvas_reset_window w h s c = Some (swidth (window c) =? 0, c')
          /\ window c' = {| swidth := w; sheight := h |}
          /\ wnd_scale c' = s)
  /\ (forall w h s first c',
        canvas_reset_window w h s c = Some (first, c') ->
        (first = true <-> swidth (window c) = 0)
        /\ swidth (window c') = w)
  /\ (forall str_to_num os flags c',
        operations_flags str_to_num os c = Some (flags, c') ->
        flags = stored_width_flags (swidth (window c)) os).
Proof.
  split; [|split; [|split]].
  - intros calls. change 0 with (swidth (window ctx0)) at 1.
    assert (Hblank : scale ctx0 = F32.zero /\ width (image ctx0) = 0
                     /\ height (image ctx0) = 0) by (repeat split).
    revert Hblank. generalize ctx0.
    induction calls as [|[[w h] s] rest IH]; intros c0 (Hs & Hiw & Hih).
    + exists c0. reflexivity.
    + destruct (reset_window_blank w h s c0 Hs Hiw Hih)
        as (c1 & Hcall & Hs1 & Hiw1 & Hih1 & Hw1).
      destruct (IH c1 (conj Hs1 (conj Hiw1 Hih1))) as (c2 & Hrest).
      exists c2. cbn [reset_window_calls first_flags].
      rewrite Hcall, Hrest, Hw1. reflexivity.
  - intros w h s sw sh Hsw Hsh.
    destruct (canvas_reset_window w h s c) as [[first c']|] eqn:E.
    + destruct (reset_window_result _ _ _ _ _ _ E) as (-> & Hw & Hs).
      exists c'. auto.
    + exfalso. unfold canvas_reset_window in E.
      rewrite fix_viewport_axes in E.
      unfold scaled_width, scaled_height in *.
      cbn [scale image window width height] in E.
      rewrite Hsw, Hsh in E. discriminate E.
  - intros w h s first c' E.
    destruct (reset_window_result _ _ _ _ _ _ E) as (-> & Hw & _).
    rewrite Hw. split; [|reflexivity]. apply Z.eqb_eq.
  - intros str_to_num os flags c' E.
    apply (operations_flags_stored _ _ _ _ _ E).
Qed.

Lemma reset_window_first_flags_witness :
  (exists c',
     canvas_reset_window 1024 768 1 example_800x600 = Some (false, c')
     /\ window c' = {| swidth := 1024; sheight := 768 |}
     /\ wnd_scale c' = 1)
  /\ (exists first c',
        canvas_reset_window 640 480 1 ctx0 = Some (first, c')
        /\ (first = true <-> swidth (window ctx0) = 0)
        /\ swidth (window c') = 640)
  /\ exists c',
       operations_flags decimal_to_num
         [op_reset_window 0 0 1; op_reset_image 200 100;
          op_reset_window 800 600 1; op_zoom (Some "fit"%string);
          op_reset_window 640 480 2] ctx0
       = Some ([true; true; false], c').
Proof.
  split; [|split].
  - apply (proj1 (proj2 (reset_window_first_flags example_800x600))
             1024 768 1 800 600); reflexivity.
  - destruct (canvas_reset_window 640 480 1 ctx0) as [[first c']|] eqn:E.
    + exists first, c'. split; [reflexivity|].
      apply (proj1 (proj2 (proj2 (reset_window_first_flags ctx0)))
               640 480 1 first c' E).
    + vm_compute in E. discriminate E.
  - destruct (operations_flags decimal_to_num
                [op_reset_window 0 0 1; op_reset_image 200 100;
                 op_reset_window 800 600 1; op_zoom (Some "fit"%string);
                 op_reset_window 640 480 2] ctx0) as [[flags c']|] eqn:E.
    + exists c'.
      rewrite (proj2 (proj2 (proj2 (reset_window_first_flags ctx0)))
                 decimal_to_num _ flags c' E).
      reflexivity.
    + vm_compute in E. discriminate E.
Defined.

Lemma fix_viewport_scale (c c1 : canvas) :
  fix_viewport c = Some c1 -> scale c1 = scale c.
Proof.
  rewrite fix_viewport_axes.
  destruct (scaled_width c); [|discriminate].
  destruct (scaled_height c); [|discriminate].
  intros E. injection E as <-. reflexivity.
Qed.

Lemma zoom_move_scale (percent : Z) (c c1 : canvas) :
  zoom_move percent c = Some c1 -> scale c1 = zoom_scale percent c.
Proof.
  unfold zoom_move.
  destruct (scaled_width c); [|discriminate].
  destruct (scaled_height c); [|discriminate].
  destruct (scaled_width _); [|discriminate].
  destruct (scaled_height _); [|discriminate].
  destruct (zoom_shift _ _ _ _); [|discriminate].
  destruct (zoom_shift _ _ _ _); [|discriminate].
  intros E. injection E as <-. reflexivity.
Qed.

Lemma zoom_scale_not_above_max (percent : Z) (c : canvas) :
  0 < percent ->
  F32.gtb (F32.to_double (zoom_scale percent c)) MAX_SCALE = false.
Proof.
  intros Hp. unfold zoom_scale.
  replace (percent >? 0) with true by (symmetry; apply Z.gtb_lt; lia).
  cbv zeta.
  match goal with
  | |- context [if ?b then F32.of_double MAX_SCALE else _] => destruct b eqn:E
  end.
  - vm_compute. reflexivity.
  - exact E.
Qed.

Lemma zoom_scale_not_below_floor (percent : Z) (c : canvas) :
  percent <= 0 ->
  F32.ltb (zoom_scale percent c) (scale_floor c) = false.
Proof.
  intros Hp. unfold zoom_scale.
  replace (percent >? 0) with false
    by (symmetry; rewrite Z.gtb_ltb; apply Z.ltb_ge; lia).
  cbv zeta. fold (scale_floor c).
  match goal with
  | |- context [if ?b then scale_floor c else _] => destruct b eqn:E
  end.
  - apply F32Facts.SFltb_irrefl.
  - exact E.
Qed.

(** C4, as stated, fails: a 2x2 image fitted to a window of 800x600 has
    scale 300, and zooming out by 10 percent leaves it at 270, above
    100.0. *)
Lemma zoom_out_stays_above_max :
  exists c c',
    fit_tiny_run = Some c
    /\ zoom (-10) c = Some c'
    /\ F32.gtb (F32.to_double (scale c')) MAX_SCALE = true.
Proof.
  eexists. eexists.
  split; [vm_compute; reflexivity|].
  split; [vm_compute; reflexivity|].
  vm_compute. reflexivity.
Qed.

(** C4, amended. For an image with positive dimensions and a scale that
    is neither negative nor above 100.0, every [zoom] call, in or out,
    leaves the scale within these bounds, and a scale at or above the
    floor [max (MIN_SCALE / image.width, MIN_SCALE / image.height)] stays
    at or above it; so after any sequence of [zoom] calls from such a
    scale the scale is at most 100.0, and it is at or above the floor if
    it was so at the start or if one of the calls was a zoom-out.
    Whatever the scale before the call, a zoom-in call ([percent > 0])
    never leaves the scale above 100.0 and a zoom-out call
    ([percent <= 0]) never leaves it below the floor; the scale that
    [zoom] stores is the one so bounded.  A zoom-out call does not bring
    a scale above 100.0 back under it. *)
Theorem zoom_scale_bounds (percent : Z) (c : canvas) :
  (forall c', zoom percent c = Some c' -> scale c' = zoom_scale percent c)
  /\ (0 < percent ->
      F32.gtb (F32.to_double (zoom_scale percent c)) MAX_SCALE = false)
  /\ (percent <= 0 ->
      F32.ltb (zoom_scale percent c) (scale_floor c) = false)
  /\ (scale_in_bounds (scale c) = true ->
      1 <= width (image c) < size_mod -> 1 <= height (image c) < size_mod ->
      (is_ssize percent ->
       scale_in_bounds (zoom_scale percent c) = true
       /\ (F32.ltb (scale c) (scale_floor c) = false ->
           F32.ltb (zoom_scale percent c) (scale_floor c) = false))
      /\ (forall percents c',
            Forall is_ssize percents ->
            zooms percents c = Some c' ->
            scale_in_bounds (scale c') = true
            /\ (F32.ltb (scale c) (scale_floor c) = false
                \/ Exists (fun p => p <= 0) percents ->
                F32.ltb (scale c') (scale_floor c) = false))).
Proof.
  split; [|split; [|split]].
  - intros c'. unfold zoom.
    destruct (zoom_move percent c) as [c1|] eqn:E1; [|discriminate].
    intros E2. rewrite (fix_viewport_scale _ _ E2).
    exact (zoom_move_scale _ _ _ E1).
  - apply zoom_scale_not_above_max.
  - apply zoom_scale_not_below_floor.
  - intros Hb Hw Hh. split.
    + intros Hp. split.
      * apply ZoomFacts.zoom_scale_in_bounds; assumption.
      * apply ZoomFacts.zoom_scale_above_floor; assumption.
    + intros percents c' Hps Hz.
      destruct (ZoomFacts.zooms_in_bounds percents c c' Hz Hps Hb Hw Hh)
        as (Hb' & Hfl & Hkeep).
      split; [exact Hb'|]. rewrite Hfl in Hkeep. exact Hkeep.
Qed.

(** Window 800x600 and image 1600x1200 at scale 0.5: up by 10 percent,
    down by 10 percent, and up by 999 percent three times, which ends at
    100.0. *)
Lemma zoom_scale_bounds_witness :
  (exists c', zoom 10 example_800x600 = Some c'
              /\ scale c' = zoom_scale 10 example_800x600)
  /\ F32.gtb (F32.to_double (zoom_scale 10 example_800x600)) MAX_SCALE = false
  /\ F32.ltb (zoom_scale (-10) example_800x600) (scale_floor example_800x600)
     = false
  /\ scale_in_bounds (zoom_scale (-10) example_800x600) = true
  /\ (exists c', zooms [999; 999; 999; -10] example_800x600 = Some c'
                 /\ scale_in_bounds (scale c') = true
                 /\ F32.ltb (scale c') (scale_floor example_800x600) = false).
Proof.
  assert (Hb : scale_in_bounds (scale example_800x600) = true)
    by (vm_compute; reflexivity).
  assert (Hw : 1 <= width (image example_800x600) < size_mod)
    by (vm_compute; split; [discriminate|reflexivity]).
  assert (Hh : 1 <= height (image example_800x600) < size_mod)
    by (vm_compute; split; [discriminate|reflexivity]).
  split; [|split; [|split; [|split]]].
  - destruct (zoom 10 example_800x600) as [c'|] eqn:E.
    + exists c'. split; [reflexivity|].
      apply (proj1 (zoom_scale_bounds 10 example_800x600) c' E).
    + vm_compute in E. discriminate E.
  - apply (proj1 (proj2 (zoom_scale_bounds 10 example_800x600))). lia.
  - apply (proj1 (proj2 (proj2 (zoom_scale_bounds (-10) example_800x600)))).
    lia.
  - apply (proj1 (proj2 (proj2 (proj2
             (zoom_scale_bounds (-10) example_800x600))) Hb Hw Hh)).
    vm_compute. split; [discriminate|reflexivity].
  - destruct (zooms [999; 999; 999; -10] example_800x600) as [c'|] eqn:E.
    + exists c'.
      destruct (proj2 (proj2 (proj2 (proj2
                  (zoom_scale_bounds 0 example_800x600))) Hb Hw Hh)
                  [999; 999; 999; -10] c') as [H1 H2].
      * repeat constructor; vm_compute; try discriminate; reflexivity.
      * exact E.
      * split; [reflexivity|]. split; [exact H1|]. apply H2. right.
        apply Exists_cons_tl, Exists_cons_tl, Exists_cons_tl, Exists_cons_hd.
        lia.
    + vm_compute in E. discriminate E.
Defined.

Lemma zoom_shift_zero_divisor (pos cntr delta : Z) :
  zoom_shift pos cntr 0 delta = None.
Proof.
  unfold zoom_shift. change (F32.of_Z 0) with (S754_zero false).
  apply F32Facts.to_ssize_not_finite.
  destruct (F32.of_Z pos) as [s1|s1| |s1 m1 e1];
    destruct (F32.of_Z cntr) as [s2|s2| |s2 m2 e2];
    destruct (F32.of_Z delta) as [s3|s3| |s3 m3 e3];
    try exact I;
    try destruct s1; try destruct s2; try destruct s3; exact I.
Qed.

(** With a scaled size of 0, [zoom] has no defined result. *)
Lemma zoom_undefined_without_size (c : canvas) (percent : Z) :
  scaled_width c = Some 0 \/ scaled_height c = Some 0 ->
  zoom percent c = None.
Proof.
  intros H0. unfold zoom, zoom_move.
  destruct (scaled_width c) as [old_w|]; [|reflexivity].
  destruct (scaled_height c) as [old_h|]; [|reflexivity].
  destruct (scaled_width (set_scale_field c (zoom_scale percent c)))
    as [new_w|]; [|reflexivity].
  destruct (scaled_height (set_scale_field c (zoom_scale percent c)))
    as [new_h|]; [|reflexivity].
  destruct H0 as [E|E]; injection E as ->.
  - rewrite zoom_shift_zero_divisor. reflexivity.
  - rewrite zoom_shift_zero_divisor.
    destruct (zoom_shift _ _ _ _); reflexivity.
Qed.

Lemma thin_run_eq : thin_run = Some thin_canvas.
Proof. vm_compute. reflexivity. Qed.

(** The quotient [(float)cntr / old] of the anchor move, with a divisor
    of at least 1. *)
Lemma zoom_quotient_finite (cntr old : Z) :
  is_ssize cntr -> 1 <= old < 2 ^ 64 ->
  F32.is_finite (F32.div (F32.of_Z cntr) (F32.of_Z old)) = true.
Proof.
  intros Hc Ho.
  destruct (F32Facts.of_Z_shape old) as [E|(sb & mb & eb & Eb & Heb & _)];
    [lia| |].
  - pose proof (F32Facts.of_Z_finite_nonzero old Ho) as Hn.
    rewrite E in Hn. discriminate Hn.
  - rewrite Eb.
    destruct (F32Facts.of_Z_shape cntr)
      as [E|(sa & ma & ea & Ea & Hea & Hma)].
    + cint. lia.
    + rewrite E. reflexivity.
    + rewrite Ea. apply F32Facts.div_is_finite; lia.
Qed.




Lemma zrange_In (n : nat) :
  forall lo z, lo <= z < lo + Z.of_nat n -> In z (zrange lo n).
Proof.
  induction n as [|n IH]; intros lo z Hz.
  - cbn in Hz. lia.
  - cbn [zrange]. destruct (Z.eq_dec lo z) as [->|Hne].
    + left. reflexivity.
    + right. apply IH. lia.
Qed.

Lemma small_image_run_eq : small_image_run = Some small_image_canvas.
Proof. vm_compute. reflexivity. Qed.

(** The zoom that breaks the anchor: scale 1.08 to about 11.545, scaled
    width 39 to 427, image from (381, 288) to (191, 167). *)
Lemma zoom_anchor_off_values :
  exists c',
    zoom_move 969 small_image_canvas = Some c'
    /\ x (image small_image_canvas) = 381 /\ y (image small_image_canvas) = 288
    /\ scaled_width small_image_canvas = Some 39
    /\ scaled_width c' = Some 427
    /\ x (image c') = 191 /\ y (image c') = 167
    /\ anchor_within 5 1 small_image_canvas c' = false
    /\ anchor_within 6 1 small_image_canvas c' = true.
Proof.
  eexists. split; [vm_compute; reflexivity|].
  split; [vm_compute; reflexivity|]. split; [vm_compute; reflexivity|].
  split; [vm_compute; reflexivity|]. split; [vm_compute; reflexivity|].
  split; [reflexivity|]. split; [reflexivity|].
  split; vm_compute; reflexivity.
Qed.


Lemma example_anchor_all_percents :
  forallb (anchor_check 1 1 example_800x600) (zrange (-999) 1999) = true.
Proof. vm_compute. reflexivity. Qed.

(** Where the clamp pass leaves the window center: over the image, when
    there is no gap. *)
Lemma center_over_axis (p sz wnd : Z) :
  is_size wnd -> is_size sz ->
  p = fix_axis p sz wnd -> no_gap_axis p sz wnd = true ->
  0 <= wnd / 2 - p <= sz.
Proof.
  intros Hw Hs Hfix Hgap. unfold fix_axis in Hfix.
  assert (Hw' : 0 <= wnd < 18446744073709551616) by exact Hw.
  assert (Hs' : 0 <= sz < 18446744073709551616) by exact Hs.
  assert (Hwh : 0 <= wnd / 2 <= wnd) by (Z.div_mod_to_equations; lia).
  assert (Hsh : 0 <= sz / 2 <= sz) by (Z.div_mod_to_equations; lia).
  destruct (Z.leb_spec sz wnd) as [Hle|Hgt].
  - pose proof (Z.div_le_mono sz wnd 2 ltac:(lia) Hle).
    rewrite ZoomFacts.to_ssize_to_size in Hfix
      by (cint; Z.div_mod_to_equations; lia).
    lia.
  - unfold no_gap_axis in Hgap. apply orb_true_iff in Hgap.
    destruct Hgap as [Hgap|Hgap]; zbool; lia.
Qed.

(** In a state that the clamp pass leaves as it is and that shows no gap,
    the window center lies over the scaled image on both axes: at its
    middle when the image is not larger than the window, and between its
    edges otherwise. *)
Lemma center_over_image (c : canvas) (w h : Z) :
  wf c -> clamped c -> no_gap c = true ->
  scaled_width c = Some w -> scaled_height c = Some h ->
  0 <= swidth (window c) / 2 - x (image c) <= w
  /\ 0 <= sheight (window c) / 2 - y (image c) <= h.
Proof.
  intros (_ & _ & _ & _ & HW & HH) Hcl Hgap Ew Eh.
  unfold clamped in Hcl. rewrite fix_viewport_axes, Ew, Eh in Hcl.
  injection Hcl as Hcl.
  assert (Hx : x (image c) = fix_axis (x (image c)) w (swidth (window c))).
  { apply (f_equal (fun c => x (image c))) in Hcl. symmetry. exact Hcl. }
  assert (Hy : y (image c) = fix_axis (y (image c)) h (sheight (window c))).
  { apply (f_equal (fun c => y (image c))) in Hcl. symmetry. exact Hcl. }
  unfold no_gap in Hgap. rewrite Ew, Eh in Hgap.
  apply andb_true_iff in Hgap. destruct Hgap as [Hgx Hgy].
  assert (Hw : is_size w).
  { pose proof (F32Facts.to_size_some_range _ _ Ew). cint. lia. }
  assert (Hh : is_size h).
  { pose proof (F32Facts.to_size_some_range _ _ Eh). cint. lia. }
  split.
  - apply (center_over_axis _ _ _ HW Hw Hx Hgx).
  - apply (center_over_axis _ _ _ HH Hh Hy Hgy).
Qed.



Section ZoomTokens.

Variable str_to_num : string -> option Z.

Lemma find_scale_name_none (op : string) :
  (forall sc, op <> scale_name sc) ->
  find (fun sc => String.eqb op (scale_name sc)) scale_names = None.
Proof.
  intros H. unfold scale_names. cbn [find].
  rewrite (proj2 (String.eqb_neq _ _) (H scale_fit_optimal)).
  rewrite (proj2 (String.eqb_neq _ _) (H scale_fit_window)).
  rewrite (proj2 (String.eqb_neq _ _) (H scale_fit_width)).
  rewrite (proj2 (String.eqb_neq _ _) (H scale_fit_height)).
  rewrite (proj2 (String.eqb_neq _ _) (H scale_fill_window)).
  rewrite (proj2 (String.eqb_neq _ _) (H scale_real_size)).
  reflexivity.
Qed.

(** C9. A token that is neither a scale name nor a number strictly
    between -1000 and 1000 other than 0 leaves the canvas (scale and image
    rectangle included) as it was: [canvas_zoom] returns silently for a
    null or empty token and prints one diagnostic otherwise. *)
Theorem canvas_zoom_invalid_token (op : option string) (c : canvas) :
  (forall s, op = Some s -> ~ zoom_token_valid str_to_num s) ->
  canvas_zoom str_to_num op c
  = Some (c, match op with
             | Some (String a s) => [Invalid_zoom_operation (String a s)]
             | _ => []
             end).
Proof.
  intros H. destruct op as [[|a s]|]; try reflexivity.
  specialize (H _ eq_refl). unfold zoom_token_valid in H.
  unfold canvas_zoom.
  rewrite find_scale_name_none.
  2:{ intros sc E. apply H. left. exists sc. exact E. }
  destruct (str_to_num (String a s)) as [n|] eqn:En; [|reflexivity].
  destruct (negb (n =? 0) && (n >? -1000) && (n <? 1000)) eqn:Hv;
    [|reflexivity].
  exfalso. apply H. right. exists n. split; [reflexivity|].
  zbool. apply negb_true_iff in H0. zbool. lia.
Qed.

End ZoomTokens.

Lemma canvas_zoom_invalid_token_witness :
  canvas_zoom decimal_to_num (Some "5000"%string) example_800x600
  = Some (example_800x600, [Invalid_zoom_operation "5000"]).
Proof.
  apply (canvas_zoom_invalid_token decimal_to_num (Some "5000"%string)
           example_800x600).
  intros s E. injection E as <-. intros [[sc Hsc]|(n & Hn & Hz & Hr)].
  - destruct sc; discriminate Hsc.
  - vm_compute in Hn. injection Hn as <-. lia.
Defined.

End CanvasFacts.

(** * Properties of the event queue and of the main loop *)

Module AppFacts.

Import CInt App.

Section Facts.

Variable World : Type.
Variable alloc_ok : World -> bool.
Variable info_switch : string -> World -> World.
Variable info_update_status : string -> World -> World.
Variable info_switch_help : World -> World.
Variable info_help_active : World -> bool.
Variable ui_toggle_fullscreen : World -> World.
Variable handle :
  event_handler -> event -> application World -> application World.
Variable extern_callback :
  nat -> application World -> option (application World).

Local Abbreviation append_event := (App.append_event World alloc_ok).
Local Abbreviation app_redraw := (App.app_redraw World alloc_ok).
Local Abbreviation app_on_resize := (App.app_on_resize World alloc_ok).
Local Abbreviation app_on_drag := (App.app_on_drag World alloc_ok).
Local Abbreviation dispatch_event :=
  (App.dispatch_event World alloc_ok info_switch info_update_status
     info_switch_help info_help_active ui_toggle_fullscreen handle).
Local Abbreviation drain :=
  (App.drain World alloc_ok info_switch info_update_status
     info_switch_help info_help_active ui_toggle_fullscreen handle).
Local Abbreviation handle_event_queue :=
  (App.handle_event_queue World alloc_ok info_switch info_update_status
     info_switch_help info_help_active ui_toggle_fullscreen handle).
Local Abbreviation call_handlers :=
  (App.call_handlers World alloc_ok info_switch info_update_status
     info_switch_help info_help_active ui_toggle_fullscreen handle
     extern_callback).
Local Abbreviation invoke :=
  (App.invoke World alloc_ok info_switch info_update_status
     info_switch_help info_help_active ui_toggle_fullscreen handle
     extern_callback).
Local Abbreviation main_loop :=
  (App.main_loop World alloc_ok info_switch info_update_status
     info_switch_help info_help_active ui_toggle_fullscreen handle
     extern_callback).
Local Abbreviation app_run :=
  (App.app_run World alloc_ok info_switch info_update_status
     info_switch_help info_help_active ui_toggle_fullscreen handle
     extern_callback).
Local Abbreviation quiet_handlers := (App.quiet_handlers World handle).

(** *** The scan of [app_redraw] *)

Lemma remove_redraw_absent (q : list event) :
  forallb (fun e => negb (is_redraw e)) q = true ->
  remove_redraw q = Some q.
Proof.
  induction q as [|e q IH]; [reflexivity|].
  cbn [forallb remove_redraw]. intros H.
  apply andb_true_iff in H. destruct H as [He Hq].
  apply negb_true_iff in He. rewrite He, (IH Hq). reflexivity.
Qed.

Lemma remove_redraw_last (pre : list event) :
  forallb (fun e => negb (is_redraw e)) pre = true ->
  remove_redraw (pre ++ [event_redraw]) = None.
Proof.
  induction pre as [|e pre IH]; [reflexivity|].
  cbn [forallb app remove_redraw]. intros H.
  apply andb_true_iff in H. destruct H as [He Hq].
  apply negb_true_iff in He. rewrite He, (IH Hq). reflexivity.
Qed.

Lemma remove_redraw_inner (pre post : list event) :
  forallb (fun e => negb (is_redraw e)) pre = true ->
  post <> [] ->
  remove_redraw (pre ++ event_redraw :: post) = Some (pre ++ post).
Proof.
  intros Hpre Hpost. induction pre as [|e pre IH].
  - cbn. destruct post; [contradiction|reflexivity].
  - cbn [forallb app remove_redraw] in *.
    apply andb_true_iff in Hpre. destruct Hpre as [He Hq].
    apply negb_true_iff in He. rewrite He, (IH Hq). reflexivity.
Qed.

(** *** At most one redraw and one drag entry are pending *)

Lemma filter_length_app (f : event -> bool) (q1 q2 : list event) :
  List.length (filter f (q1 ++ q2))
  = (List.length (filter f q1) + List.length (filter f q2))%nat.
Proof. rewrite filter_app, length_app. reflexivity. Qed.

Lemma remove_redraw_counts (q q' : list event) :
  remove_redraw q = Some q' ->
  List.length (filter is_redraw q')
  = Nat.pred (List.length (filter is_redraw q))
  /\ filter is_drag q' = filter is_drag q.
Proof.
  revert q'. induction q as [|e q IH]; intros q' H; cbn [remove_redraw] in H.
  - injection H as <-. split; reflexivity.
  - destruct (is_redraw e) eqn:He.
    + destruct q as [|e2 q]; [discriminate|]. injection H as <-.
      cbn [filter]. rewrite He. cbn [List.length Nat.pred].
      destruct e; try discriminate He. split; reflexivity.
    + destruct (remove_redraw q) as [r|]; [|discriminate].
      injection H as <-. destruct (IH r eq_refl) as [IH1 IH2].
      cbn [filter]. rewrite He.
      destruct (is_drag e); cbn [List.length]; rewrite IH2;
        split; auto.
Qed.

Lemma merge_drag_counts (dx dy : Z) (q q' : list event) :
  merge_drag dx dy q = Some (Some q') ->
  filter is_redraw q' = filter is_redraw q
  /\ List.length (filter is_drag q') = List.length (filter is_drag q).
Proof.
  revert q'. induction q as [|e q IH]; intros q' H; cbn [merge_drag] in H;
    [discriminate|].
  destruct e;
    try (destruct (merge_drag dx dy q) as [[r|]|]; try discriminate;
         injection H as <-; destruct (IH r eq_refl) as [IH1 IH2];
         cbn [filter is_redraw is_drag List.length];
         rewrite ?IH1, ?IH2; split; reflexivity).
  destruct (int_checked (dx0 + dx)); [|discriminate].
  destruct (int_checked (dy0 + dy)); [|discriminate].
  injection H as <-. split; reflexivity.
Qed.

Lemma merge_drag_none (dx dy : Z) (q : list event) :
  merge_drag dx dy q = None -> filter is_drag q = [].
Proof.
  induction q as [|e q IH]; intros H; [reflexivity|].
  cbn [merge_drag] in H.
  destruct e; try discriminate H;
    destruct (merge_drag dx dy q); try discriminate H;
    cbn [filter is_drag]; auto.
Qed.

Lemma append_event_events (ev : event) (a : application World) :
  events (append_event ev a) = events a
  \/ events (append_event ev a) = events a ++ [ev].
Proof.
  unfold App.append_event. destruct (alloc_ok (world a)); cbn; auto.
Qed.

Lemma filter_length_le (f : event -> bool) (q : list event) (ev : event) :
  (List.length (filter f q) <= List.length (filter f (ev :: q)))%nat.
Proof. cbn [filter]. destruct (f ev); cbn [List.length]; lia. Qed.

(** One locked section keeps the count of redraw and of drag entries,
    queued or about to be, provided that no second producer has gone past
    its scan. *)
Lemma queue_step_tidy (s s' : queue_state World) :
  queue_step World alloc_ok s s' ->
  (List.length (in_flight s') <= 1)%nat ->
  tidy (pending s) -> tidy (pending s').
Proof.
  intros Hstep Hone [Hr Hd]. unfold App.tidy, pending in *.
  destruct Hstep as [ev a fl Hnr Hnd|a fl Hq|a fl q Hq|dx dy a fl q Hq
                    |dx dy a fl Hq|ev a fl1 fl2|entry rest a fl Hev
                    |a a' fl Hev];
    cbn [ctx in_flight] in *.
  - destruct (append_event_events ev a) as [-> | ->]; [auto|].
    rewrite !filter_length_app in *. cbn [filter]. rewrite Hnr, Hnd.
    cbn [List.length]. lia.
  - auto.
  - destruct fl as [|e fl]; [|cbn [List.length] in Hone; lia].
    destruct (remove_redraw_counts _ _ Hq) as [H1 H2].
    cbn [set_events events]. rewrite !filter_length_app in *.
    rewrite H1, H2. cbn [filter is_redraw is_drag List.length] in *. lia.
  - destruct (merge_drag_counts _ _ _ _ Hq) as [H1 H2].
    cbn [set_events events]. rewrite !filter_length_app in *.
    rewrite H1, H2. auto.
  - destruct fl as [|e fl]; [|cbn [List.length] in Hone; lia].
    pose proof (merge_drag_none _ _ _ Hq) as Hnone.
    rewrite !filter_length_app in *. rewrite Hnone.
    cbn [filter is_redraw is_drag List.length] in *. lia.
  - rewrite !filter_length_app in *.
    pose proof (filter_length_le is_redraw fl2 ev) as Lr.
    pose proof (filter_length_le is_drag fl2 ev) as Ld.
    destruct (append_event_events ev a) as [-> | ->].
    + lia.
    + rewrite !filter_length_app. cbn [filter] in *.
      destruct (is_redraw ev), (is_drag ev); cbn [List.length] in *; lia.
  - cbn [set_events events]. rewrite Hev in Hr, Hd.
    rewrite !filter_length_app in *. cbn [filter] in Hr, Hd.
    destruct (is_redraw entry), (is_drag entry); cbn [List.length] in *; lia.
  - rewrite Hev. auto.
Qed.

Lemma tidy_queued (s : queue_state World) :
  tidy (pending s) -> tidy (events (ctx s)).
Proof.
  unfold App.tidy, pending. rewrite !filter_length_app. lia.
Qed.

Lemma tidy_no_earlier_redraw (pre post : list event) :
  tidy (pre ++ event_redraw :: post) ->
  forallb (fun e => negb (is_redraw e)) pre = true.
Proof.
  intros [Hr _]. rewrite filter_length_app in Hr. cbn in Hr.
  induction pre as [|e pre IH]; [reflexivity|].
  cbn [filter forallb] in *. destruct (is_redraw e); cbn in *; [lia|].
  apply IH. exact Hr.
Qed.

(** Whatever happens to a queue that starts empty, it never holds two
    redraw entries nor two drag entries, as long as no two producers are
    between their scan and their [append_event] at the same time. *)
Lemma queue_stays_tidy (a : application World) (s' : queue_state World) :
  events a = [] ->
  queue_steps World alloc_ok 1 {| ctx := a; in_flight := [] |} s' ->
  tidy (events (ctx s')).
Proof.
  intros Hev Hsteps. apply tidy_queued.
  remember {| ctx := a; in_flight := [] |} as s eqn:Es.
  induction Hsteps as [s|s s2 s3 _ IH Hstep Hone].
  - subst s. unfold tidy, pending. cbn [ctx in_flight]. rewrite Hev.
    cbn. lia.
  - apply (queue_step_tidy s2 s3 Hstep Hone). apply IH. exact Es.
Qed.

(** *** The drain loop hands out the queue in order *)

Lemma drain_fifo (q : list event) :
  quiet_handlers ->
  forall a,
    events a = q -> state a = loop_run ->
    forallb (fun e => negb (is_action e)) q = true ->
    exists a', drain (List.length q) a = Some (a', q) /\ events a' = [].
Proof.
  intros Hquiet. induction q as [|e q IH]; intros a Hq Hrun Hna.
  - exists a. cbn [List.length App.drain]. rewrite Hq. auto.
  - cbn [forallb] in Hna. apply andb_true_iff in Hna.
    destruct Hna as [He Hna]. apply negb_true_iff in He.
    cbn [List.length App.drain]. rewrite Hq, Hrun. cbn [is_run].
    assert (Hd : dispatch_event e (set_events a q)
                 = handle (ehandler a) e (set_events a q)).
    { destruct e; try reflexivity. discriminate He. }
    rewrite Hd.
    destruct (Hquiet (ehandler a) e (set_events a q)) as [Hev Hst].
    destruct (IH (handle (ehandler a) e (set_events a q)))
      as (a' & Hdr & Hempty); auto.
    + rewrite Hst. exact Hrun.
    + exists a'. rewrite Hdr. auto.
Qed.

(** C2. Events leave the queue in the order of their arrival, but for the
    redraw rule.  From an empty queue, [resize], [redraw], [drag(1,1)],
    [redraw] leave the queue [resize; drag(1,1); redraw], which the drain
    loop hands out in that order and empties.  In general a redraw request
    finding an earlier redraw entry that is not the last entry removes it
    and appends a new one at the tail, the other entries keeping their
    order; finding the redraw entry last, it changes nothing. *)
Theorem redraw_coalescing (a : application World) :
  alloc_ok (world a) = true ->
  (events a = [] -> state a = loop_run -> quiet_handlers ->
   exists a3 a5,
     app_on_drag 1 1 (app_redraw (app_on_resize a)) = Some a3
     /\ events (app_redraw a3)
        = [event_resize; event_drag 1 1; event_redraw]
     /\ handle_event_queue 3 (app_redraw a3)
        = Some (a5, [event_resize; event_drag 1 1; event_redraw])
     /\ events a5 = [])
  /\ (forall pre post,
        forallb (fun e => negb (is_redraw e)) pre = true ->
        post <> [] ->
        events a = pre ++ event_redraw :: post ->
        events (app_redraw a) = pre ++ post ++ [event_redraw])
  /\ (forall pre,
        forallb (fun e => negb (is_redraw e)) pre = true ->
        events a = pre ++ [event_redraw] ->
        app_redraw a = a).
Proof.
  intros Halloc. split; [|split].
  - intros Hev Hrun Hquiet.
    destruct a as [st w ev n h wd]. cbn in Hev, Hrun, Halloc. subst ev st.
    exists {| state := loop_run; wfds := w;
              events := [event_resize; event_redraw; event_drag 1 1];
              notification := S (S (S n)); ehandler := h; world := wd |}.
    assert (E4 : app_redraw
                   {| state := loop_run; wfds := w;
                      events := [event_resize; event_redraw; event_drag 1 1];
                      notification := S (S (S n)); ehandler := h;
                      world := wd |}
                 = {| state := loop_run; wfds := w;
                      events := [event_resize; event_drag 1 1; event_redraw];
                      notification := S (S (S (S n))); ehandler := h;
                      world := wd |}).
    { unfold App.app_redraw, App.append_event. cbn. rewrite Halloc.
      reflexivity. }
    rewrite E4.
    destruct (drain_fifo [event_resize; event_drag 1 1; event_redraw] Hquiet
                (set_notification
                   {| state := loop_run; wfds := w;
                      events := [event_resize; event_drag 1 1; event_redraw];
                      notification := S (S (S (S n))); ehandler := h;
                      world := wd |} 0))
      as (a5 & Hd & He); try reflexivity.
    exists a5. split; [|split; [reflexivity|split; [exact Hd|exact He]]].
    unfold App.app_on_resize, App.app_redraw, App.app_on_drag,
      App.append_event.
    cbn. rewrite Halloc. cbn. rewrite Halloc. cbn. rewrite Halloc.
    reflexivity.
  - intros pre post Hpre Hpost Hev. unfold App.app_redraw.
    rewrite Hev, (remove_redraw_inner pre post Hpre Hpost).
    unfold App.append_event. cbn. rewrite Halloc. cbn.
    rewrite <- app_assoc. reflexivity.
  - intros pre Hpre Hev. unfold App.app_redraw.
    rewrite Hev, (remove_redraw_last pre Hpre). reflexivity.
Qed.

(** *** The scan of [app_on_drag] *)

Lemma int_checked_in_range (z : Z) : is_int z -> int_checked z = Some z.
Proof.
  unfold is_int, int_checked. intros [Hlo Hhi].
  apply Z.leb_le in Hlo. apply Z.ltb_lt in Hhi. rewrite Hlo, Hhi.
  reflexivity.
Qed.

Lemma merge_drag_first (pre post : list event) (dx dy dx' dy' : Z) :
  forallb (fun e => negb (is_drag e)) pre = true ->
  is_int (dx + dx') -> is_int (dy + dy') ->
  merge_drag dx' dy' (pre ++ event_drag dx dy :: post)
  = Some (Some (pre ++ event_drag (dx + dx') (dy + dy') :: post)).
Proof.
  intros Hpre Hx Hy. induction pre as [|e pre IH].
  - cbn [app merge_drag].
    rewrite (int_checked_in_range _ Hx), (int_checked_in_range _ Hy).
    reflexivity.
  - cbn [forallb] in Hpre. apply andb_true_iff in Hpre.
    destruct Hpre as [He Hpre]. specialize (IH Hpre).
    destruct e; try discriminate He; cbn [app merge_drag];
      rewrite IH; reflexivity.
Qed.

(** C5. A drag request that finds a drag entry pending adds its deltas to
    that entry (the first one), creates no entry and raises no
    notification; every other entry stays where it was.  From an empty
    queue, [drag(3,4)] then [drag(-1,2)] leave the single entry
    [drag(2,6)], with the one notification of the first request. *)
Theorem drag_coalescing (a : application World)
        (pre post : list event) (dx dy dx' dy' : Z) :
  (events a = pre ++ event_drag dx dy :: post ->
   forallb (fun e => negb (is_drag e)) pre = true ->
   is_int (dx + dx') -> is_int (dy + dy') ->
   exists a',
     app_on_drag dx' dy' a = Some a'
     /\ events a' = pre ++ event_drag (dx + dx') (dy + dy') :: post
     /\ notification a' = notification a
     /\ a' = set_events a (events a'))
  /\ (events a = [] -> alloc_ok (world a) = true ->
      exists a1 a2,
        app_on_drag 3 4 a = Some a1
        /\ app_on_drag (-1) 2 a1 = Some a2
        /\ events a2 = [event_drag 2 6]
        /\ notification a1 = S (notification a)
        /\ notification a2 = notification a1).
Proof.
  split.
  - intros Hev Hpre Hx Hy. unfold App.app_on_drag.
    rewrite Hev, (merge_drag_first pre post dx dy dx' dy' Hpre Hx Hy).
    eexists. split; [reflexivity|]. cbn. auto.
  - intros Hev Halloc.
    destruct a as [st w ev n h wd]. cbn in Hev, Halloc. subst ev.
    unfold App.app_on_drag, App.append_event. cbn. rewrite Halloc. cbn.
    eexists. eexists. split; [reflexivity|]. cbn. auto.
Qed.

(** *** The main loop *)

Lemma halts_at_end_app (c1 c2 : list (nat * loop_state))
      (s1 final : loop_state) :
  halts_at_end c1 s1 ->
  (s1 <> loop_run -> c2 = [] /\ final = s1) ->
  (c1 = [] \/ s1 = loop_run -> halts_at_end c2 final) ->
  (c1 <> [] -> snd (last c1 (O, loop_run)) = s1) ->
  halts_at_end (c1 ++ c2) final.
Proof.
  induction c1 as [|[i st] c1 IH]; intros H1 Hstop H2 Hlast.
  - apply H2. left. reflexivity.
  - cbn [app halts_at_end] in *. destruct st.
    + apply IH; auto.
      * intros [->|E]; [|auto].
        apply H2. right. rewrite <- Hlast by discriminate. reflexivity.
      * intros Hne. rewrite <- Hlast by discriminate.
        destruct c1; [contradiction|reflexivity].
    + destruct H1 as [-> E]. subst s1.
      destruct Hstop as [-> ->]; [discriminate|]. auto.
    + destruct H1 as [-> E]. subst s1.
      destruct Hstop as [-> ->]; [discriminate|]. auto.
Qed.

Lemma halts_at_end_split (calls : list (nat * loop_state))
      (final : loop_state) :
  halts_at_end calls final ->
  forall pre i st post,
    calls = pre ++ (i, st) :: post -> st <> loop_run ->
    post = [] /\ final = st.
Proof.
  intros H pre. revert calls H.
  induction pre as [|[j sj] pre IH]; intros calls H i st post E Hst;
    subst calls; cbn [app halts_at_end] in H.
  - destruct st; [contradiction| |]; destruct H; auto.
  - destruct sj.
    + eapply IH; eauto.
    + destruct H as [E _]. destruct pre; discriminate E.
    + destruct H as [E _]. destruct pre; discriminate E.
Qed.

(** One cycle: what [call_handlers] returns. *)
Lemma call_handlers_spec (fuel : nat) (fds : list bool) :
  forall i a a' calls,
    call_handlers fuel i fds a = Some (a', calls) ->
    halts_at_end calls (state a')
    /\ (calls = [] -> a' = a)
    /\ (calls <> [] -> snd (last calls (O, loop_run)) = state a')
    /\ (state a <> loop_run -> calls = []).
Proof.
  induction fds as [|pollin fds IH]; intros i a a' calls H;
    cbn [App.call_handlers] in H.
  - destruct (is_run (state a) && (i <? List.length (wfds a))%nat) eqn:Hc;
      [discriminate|].
    injection H as <- <-. cbn. repeat split; auto; contradiction.
  - destruct (is_run (state a) && (i <? List.length (wfds a))%nat) eqn:Hc.
    2:{ injection H as <- <-. cbn. repeat split; auto; contradiction. }
    apply andb_true_iff in Hc. destruct Hc as [Hrun _].
    destruct pollin.
    + destruct (nth_error (wfds a) i) as [w|]; [|discriminate].
      destruct (App.invoke _ _ _ _ _ _ _ _ _ _ w a) as [a1|] eqn:Hinv;
        [|discriminate].
      destruct (call_handlers fuel (S i) fds a1) as [[a2 calls2]|] eqn:Hrec;
        [|discriminate].
      injection H as <- <-.
      destruct (IH _ _ _ _ Hrec) as (Hh & Hnil & Hlast & Hstop).
      repeat split.
      * cbn [halts_at_end]. destruct (state a1) eqn:Hs1; [exact Hh| |].
        -- rewrite (Hstop ltac:(discriminate)) in *.
           rewrite (Hnil eq_refl). auto.
        -- rewrite (Hstop ltac:(discriminate)) in *.
           rewrite (Hnil eq_refl). auto.
      * discriminate.
      * intros _. destruct calls2 as [|c calls2].
        -- cbn. rewrite (Hnil eq_refl). reflexivity.
        -- rewrite <- Hlast by discriminate. reflexivity.
      * intros Hne. destruct (state a); [contradiction|discriminate..].
    + destruct (IH _ _ _ _ H) as (Hh & Hnil & Hlast & Hstop).
      repeat split; auto.
Qed.

Lemma is_run_true (s : loop_state) : is_run s = true <-> s = loop_run.
Proof. destruct s; cbn; split; congruence. Qed.

Lemma main_loop_stopped (fuel : nat) (polls : list poll_result)
      (fds : list bool) (a : application World) :
  state a <> loop_run -> main_loop fuel polls fds a = Some (a, []).
Proof.
  intros Hs. destruct polls; cbn [App.main_loop];
    destruct (state a); try contradiction; reflexivity.
Qed.

(** The whole loop: what [main_loop] returns. *)
Lemma main_loop_spec (fuel : nat) (polls : list poll_result) :
  forall fds a a' calls,
    main_loop fuel polls fds a = Some (a', calls) ->
    halts_at_end calls (state a')
    /\ state a' <> loop_run
    /\ (state a <> loop_run -> calls = [] /\ a' = a).
Proof.
  induction polls as [|p polls IH]; intros fds a a' calls H;
    cbn [App.main_loop] in H;
    destruct (is_run (state a)) eqn:Hrun.
  - discriminate.
  - injection H as <- <-. cbn. repeat split; auto.
    intros E. rewrite E in Hrun. discriminate.
  - apply is_run_true in Hrun.
    destruct (negb (List.length (wfds a) =? List.length fds)%nat);
      [discriminate|].
    assert (Hcycle : forall fds',
      match call_handlers fuel 0 fds' a with
      | Some (a1, c1) =>
          match main_loop fuel polls fds' a1 with
          | Some (a2, c2) => Some (a2, c1 ++ c2)
          | None => None
          end
      | None => None
      end = Some (a', calls) ->
      halts_at_end calls (state a') /\ state a' <> loop_run
      /\ (state a <> loop_run -> calls = [] /\ a' = a)).
    { intros fds' Hc.
      destruct (call_handlers fuel 0 fds' a) as [[a1 c1]|] eqn:Hch;
        [|discriminate].
      destruct (main_loop fuel polls fds' a1) as [[a2 c2]|] eqn:Hml;
        [|discriminate].
      injection Hc as <- <-.
      destruct (call_handlers_spec _ _ _ _ _ _ Hch) as (Hh1 & _ & Hlast & _).
      destruct (IH _ _ _ _ Hml) as (Hh2 & Hne & Hstop).
      repeat split; auto.
      - apply (halts_at_end_app c1 c2 (state a1) (state a2)); auto.
        intros Hs. destruct (Hstop Hs) as [-> ->]. auto.
      - contradiction.
      - contradiction. }
    destruct p as [revents| |].
    + destruct (List.length revents =? List.length fds)%nat; [|discriminate].
      apply (Hcycle revents H).
    + apply (Hcycle _ H).
    + injection H as <- <-. cbn. repeat split; auto; try discriminate.
      contradiction.
  - injection H as <- <-. cbn. repeat split; auto.
    intros E. rewrite E in Hrun. discriminate.
Qed.

(** A cycle in which no descriptor is ready calls nothing. *)
Lemma call_handlers_idle (fuel : nat) (fds : list bool) :
  forall i a a' calls,
    call_handlers fuel i (map (fun _ => false) fds) a = Some (a', calls) ->
    a' = a /\ calls = [].
Proof.
  induction fds as [|b fds IH]; intros i a a' calls H;
    cbn [map App.call_handlers] in H;
    destruct (is_run (state a) && (i <? List.length (wfds a))%nat).
  - discriminate.
  - injection H as <- <-. auto.
  - apply (IH _ _ _ _ H).
  - injection H as <- <-. auto.
Qed.

Lemma call_handlers_idle_run (fuel : nat) (fds : list bool) :
  forall i a,
    (List.length (wfds a) <= i + List.length fds)%nat ->
    call_handlers fuel i (map (fun _ => false) fds) a = Some (a, []).
Proof.
  induction fds as [|b fds IH]; intros i a Hlen;
    cbn [map App.call_handlers List.length] in *;
    destruct (is_run (state a) && (i <? List.length (wfds a))%nat) eqn:Hc;
    try reflexivity.
  - apply andb_true_iff in Hc. destruct Hc as [_ Hc].
    apply Nat.ltb_lt in Hc. lia.
  - apply IH. lia.
Qed.

(** The cycle up to descriptor [length pre]: when the callbacks of the
    descriptors before it leave the loop running, the cycle goes on from
    there in the state they left. *)
Lemma call_handlers_prefix (fuel : nat) (pre : list bool) :
  forall i a a1 calls1 (tail tail' : list bool),
    call_handlers fuel i (pre ++ map (fun _ => false) tail) a
    = Some (a1, calls1) ->
    state a1 = loop_run ->
    (i + List.length pre < List.length (wfds a1))%nat ->
    call_handlers fuel i (pre ++ tail') a
    = match call_handlers fuel (i + List.length pre) tail' a1 with
      | Some (a2, calls2) => Some (a2, calls1 ++ calls2)
      | None => None
      end.
Proof.
  induction pre as [|b pre IH]; intros i a a1 calls1 tail tail' H Hrun Hlt.
  - cbn [app List.length] in *. rewrite Nat.add_0_r in *.
    destruct (call_handlers_idle _ _ _ _ _ _ H) as [-> ->].
    destruct (call_handlers fuel i tail' a) as [[a2 calls2]|]; reflexivity.
  - cbn [app List.length App.call_handlers] in *.
    destruct (is_run (state a) && (i <? List.length (wfds a))%nat) eqn:Hc.
    2:{ injection H as <- <-. rewrite Hrun in Hc. cbn [is_run andb] in Hc.
        apply Nat.ltb_ge in Hc. lia. }
    replace (i + S (List.length pre))%nat with (S i + List.length pre)%nat
      in * by lia.
    destruct b.
    + destruct (nth_error (wfds a) i) as [w|]; [|discriminate].
      destruct (App.invoke _ _ _ _ _ _ _ _ _ _ w a) as [a'|];
        [|discriminate].
      destruct (call_handlers fuel (S i) (pre ++ map (fun _ => false) tail) a')
        as [[a'' calls]|] eqn:Hrec; [|discriminate].
      injection H as <- <-.
      rewrite (IH _ _ _ _ _ tail' Hrec Hrun Hlt).
      destruct (call_handlers fuel (S i + List.length pre) tail' a'')
        as [[a2 calls2]|]; reflexivity.
    + apply (IH _ _ _ _ _ tail' H Hrun Hlt).
Qed.

(** A callback that calls [app_exit] ends the cycle. *)
Lemma call_handlers_exit (fuel : nat) (i : nat) (post : list bool)
      (a : application World) (w : watchfd) (b : application World)
      (rc : Z) :
  state a = loop_run ->
  nth_error (wfds a) i = Some w ->
  invoke fuel w a = Some (app_exit rc b) ->
  call_handlers fuel i (true :: post) a
  = Some (app_exit rc b, [(i, state (app_exit rc b))]).
Proof.
  intros Hrun Hnth Hinv. cbn [App.call_handlers].
  assert (Hi : (i <? List.length (wfds a))%nat = true).
  { apply Nat.ltb_lt. apply nth_error_Some. rewrite Hnth. discriminate. }
  rewrite Hrun, Hi, Hnth, Hinv. cbn [is_run andb].
  assert (Hs : is_run (state (app_exit rc b)) = false).
  { unfold app_exit. cbn [state set_state]. destruct (rc =? 0); reflexivity. }
  destruct post; cbn [App.call_handlers]; rewrite Hs; reflexivity.
Qed.


End Facts.


Lemma redraw_coalescing_witness :
  (exists a3 a5,
     app_on_drag unit always_ok 1 1
       (app_redraw unit always_ok (app_on_resize unit always_ok app0))
     = Some a3
     /\ events (app_redraw unit always_ok a3)
        = [event_resize; event_drag 1 1; event_redraw]
     /\ handle_event_queue unit always_ok no_info no_info no_effect no_help
          no_effect quiet_handle 3 (app_redraw unit always_ok a3)
        = Some (a5, [event_resize; event_drag 1 1; event_redraw])
     /\ events a5 = [])
  /\ events (app_redraw unit always_ok
               (set_events app0 [event_resize; event_redraw; event_drag 1 1]))
     = [event_resize] ++ [event_drag 1 1] ++ [event_redraw]
  /\ app_redraw unit always_ok (set_events app0 [event_resize; event_redraw])
     = set_events app0 [event_resize; event_redraw].
Proof.
  split; [|split].
  - apply (proj1 (redraw_coalescing unit always_ok no_info no_info no_effect
                    no_help no_effect quiet_handle app0 eq_refl));
      try reflexivity.
    intros h ev a. split; reflexivity.
  - apply (proj1 (proj2 (redraw_coalescing unit always_ok no_info no_info
                           no_effect no_help no_effect quiet_handle
                           (set_events app0
                              [event_resize; event_redraw; event_drag 1 1])
                           eq_refl))
             [event_resize] [event_drag 1 1]).
    + reflexivity.
    + discriminate.
    + reflexivity.
  - apply (proj2 (proj2 (redraw_coalescing unit always_ok no_info no_info
                           no_effect no_help no_effect quiet_handle
                           (set_events app0 [event_resize; event_redraw])
                           eq_refl))
             [event_resize]).
    + reflexivity.
    + reflexivity.
Defined.

Lemma drag_coalescing_witness :
  (exists a',
     app_on_drag unit always_ok (-1) 2
       (set_events app0 [event_resize; event_drag 3 4; event_redraw])
     = Some a'
     /\ events a' = [event_resize] ++ event_drag (3 + -1) (4 + 2)
                                     :: [event_redraw]
     /\ notification a' = 0%nat
     /\ a' = set_events
               (set_events app0 [event_resize; event_drag 3 4; event_redraw])
               (events a'))
  /\ (exists a1 a2,
        app_on_drag unit always_ok 3 4 app0 = Some a1
        /\ app_on_drag unit always_ok (-1) 2 a1 = Some a2
        /\ events a2 = [event_drag 2 6]
        /\ notification a1 = 1%nat
        /\ notification a2 = notification a1).
Proof.
  split.
  - apply (proj1 (drag_coalescing unit always_ok
                    (set_events app0
                       [event_resize; event_drag 3 4; event_redraw])
                    [event_resize] [event_redraw] 3 4 (-1) 2)).
    + reflexivity.
    + reflexivity.
    + unfold is_int, int_half. cbn. lia.
    + unfold is_int, int_half. cbn. lia.
  - apply (proj2 (drag_coalescing unit always_ok app0 [] [] 0 0 0 0));
      reflexivity.
Defined.

End AppFacts.

(** * Further properties of the canvas *)

Module CanvasExtra.

Import CInt Canvas CanvasFacts.

Lemma fix_axis_ssize (p sz wnd : Z) :
  is_ssize p -> is_ssize (fix_axis p sz wnd).
Proof.
  intros Hp. unfold fix_axis.
  destruct (sz <=? wnd); [apply to_ssize_range|].
  destruct ((p <? 0) && (to_size (p + sz) <? wnd)); [apply to_ssize_range|].
  destruct ((p >? 0) && (to_size (p + sz) >? wnd)); [|exact Hp].
  cint. lia.
Qed.

Lemma fix_viewport_result (c c1 : canvas) :
  fix_viewport c = Some c1 ->
  exists w h,
    scaled_width c = Some w /\ scaled_height c = Some h
    /\ c1 = set_pos c (fix_axis (x (image c)) w (swidth (window c)))
                      (fix_axis (y (image c)) h (sheight (window c))).
Proof.
  rewrite fix_viewport_axes.
  destruct (scaled_width c) as [w|]; [|discriminate].
  destruct (scaled_height c) as [h|]; [|discriminate].
  intros E. injection E as <-. exists w, h. auto.
Qed.

Lemma fix_viewport_clamped (c c1 : canvas) :
  is_size (swidth (window c)) -> is_size (sheight (window c)) ->
  fix_viewport c = Some c1 -> clamped c1.
Proof.
  intros Hw Hh H.
  destruct (fix_viewport_result c c1 H) as (w & h & Ew & Eh & ->).
  unfold clamped.
  rewrite fix_viewport_axes, scaled_width_set_pos, scaled_height_set_pos,
    Ew, Eh.
  cbn [set_pos image window x y width height].
  rewrite !fix_axis_idempotent by assumption.
  reflexivity.
Qed.

Lemma set_pos_same (c : canvas) : set_pos c (x (image c)) (y (image c)) = c.
Proof. destruct c as [? ? ? ? ? [? ? ? ?] ? ?]. reflexivity. Qed.

(** X1. The clamp pass changes nothing but the image position, and keeps
    every field within its C type. *)
Theorem fix_viewport_frame (c c1 : canvas) :
  wf c ->
  fix_viewport c = Some c1 ->
  wf c1 /\ c1 = set_pos c (x (image c1)) (y (image c1)).
Proof.
  intros (Hx & Hy & Hiw & Hih & Hww & Hwh) H.
  destruct (fix_viewport_result c c1 H) as (w & h & _ & _ & ->).
  split; [|reflexivity].
  unfold wf. cbn [set_pos image window x y width height].
  repeat split; try assumption; try (apply fix_axis_ssize; assumption);
    try apply Hiw; try apply Hih; try apply Hww; try apply Hwh.
Qed.

Lemma real_200_in_100_wf : wf real_200_in_100.
Proof. unfold wf. cint. cbn. lia. Qed.

Lemma fix_viewport_frame_witness :
  wf (canvas_at F32.one 0 (-100) 200 200 100 100)
  /\ canvas_at F32.one 0 (-100) 200 200 100 100
     = set_pos (canvas_at F32.one 30 (-120) 200 200 100 100) 0 (-100).
Proof.
  apply (fix_viewport_frame (canvas_at F32.one 30 (-120) 200 200 100 100)
           (canvas_at F32.one 0 (-100) 200 200 100 100)).
  - unfold wf. cint. cbn. lia.
  - vm_compute. reflexivity.
Defined.

Lemma center_in_range (sz wnd : Z) :
  is_size wnd -> 0 <= sz <= wnd ->
  to_ssize (to_size (wnd / 2 - sz / 2)) = wnd / 2 - sz / 2.
Proof. intros Hw Hs. cint. Z.div_mod_to_equations. lia. Qed.

Lemma fix_axis_center (p sz wnd : Z) :
  is_size wnd -> 0 <= sz <= wnd ->
  fix_axis p sz wnd = wnd / 2 - sz / 2.
Proof.
  intros Hw Hs. unfold fix_axis.
  replace (sz <=? wnd) with true by (symmetry; apply Z.leb_le; lia).
  apply center_in_range; assumption.
Qed.

(** X2. Centering: on an axis where the scaled image is not larger than
    the window, the clamp pass puts the image at
    [window / 2 - scaled / 2], wherever it was; so every clamped state is
    centered on such an axis. *)
Theorem fix_viewport_centers (c c1 : canvas) (w h : Z) :
  wf c ->
  scaled_width c = Some w -> scaled_height c = Some h ->
  fix_viewport c = Some c1 ->
  (w <= swidth (window c) ->
   x (image c1) = swidth (window c) / 2 - w / 2)
  /\ (h <= sheight (window c) ->
      y (image c1) = sheight (window c) / 2 - h / 2).
Proof.
  intros (_ & _ & _ & _ & Hww & Hwh) Ew Eh H.
  destruct (fix_viewport_result c c1 H) as (w' & h' & Ew' & Eh' & ->).
  rewrite Ew in Ew'. rewrite Eh in Eh'.
  injection Ew' as <-. injection Eh' as <-.
  pose proof (F32Facts.to_size_some_range _ _ Ew).
  pose proof (F32Facts.to_size_some_range _ _ Eh).
  cbn [set_pos image x y].
  split; intros Hle; apply fix_axis_center; auto; lia.
Qed.

Lemma fix_viewport_centers_witness :
  x (image small_centered) = 800 / 2 - 10 / 2
  /\ y (image small_centered) = 600 / 2 - 10 / 2.
Proof.
  destruct (fix_viewport_centers
              (canvas_at F32.one 0 7 10 10 800 600) small_centered 10 10)
    as [Hx Hy].
  - unfold wf. cint. cbn. lia.
  - vm_compute. reflexivity.
  - vm_compute. reflexivity.
  - vm_compute. reflexivity.
  - split; [apply Hx|apply Hy]; cbn; lia.
Defined.

Lemma to_ssize_some_range (a : spec_float) (z : Z) :
  F32.to_ssize a = Some z -> is_ssize z.
Proof.
  unfold F32.to_ssize. destruct (F32.trunc a) as [t|]; [|discriminate].
  destruct ((- ssize_half <=? t) && (t <? ssize_half)) eqn:Hb; [|discriminate].
  intros E. injection E as <-. zbool. unfold is_ssize. lia.
Qed.

Lemma ssize_checked_range (z r : Z) :
  ssize_checked z = Some r -> r = z /\ is_ssize z.
Proof.
  unfold ssize_checked.
  destruct ((- ssize_half <=? z) && (z <? ssize_half)) eqn:Hb; [|discriminate].
  intros E. injection E as <-. zbool. unfold is_ssize. lia.
Qed.

Lemma fix_viewport_wf_clamped (c c1 : canvas) :
  wf c -> fix_viewport c = Some c1 -> wf c1 /\ clamped c1.
Proof.
  intros Hwf H. split.
  - destruct Hwf as (Hx & Hy & Hiw & Hih & Hww & Hwh).
    destruct (fix_viewport_result c c1 H) as (w & h & _ & _ & ->).
    unfold wf. cbn [set_pos image window x y width height].
    repeat split; try (apply fix_axis_ssize; assumption);
      try apply Hiw; try apply Hih; try apply Hww; try apply Hwh.
  - destruct Hwf as (_ & _ & _ & _ & Hww & Hwh).
    exact (fix_viewport_clamped c c1 Hww Hwh H).
Qed.

Lemma set_scale_wf_clamped (sc : canvas_scale) (c c1 : canvas) :
  wf c -> set_scale sc c = Some c1 -> wf c1 /\ clamped c1.
Proof.
  intros (Hx & Hy & Hiw & Hih & Hww & Hwh). unfold set_scale.
  cbv zeta.
  match goal with
  | |- context [F32.to_ssize ?a] => destruct (F32.to_ssize a) as [nx|] eqn:Enx
  end; [|discriminate].
  match goal with
  | |- context [F32.to_ssize ?a] => destruct (F32.to_ssize a) as [ny|] eqn:Eny
  end; [|discriminate].
  apply fix_viewport_wf_clamped.
  unfold wf. cbn [set_pos set_scale_field image window x y width height].
  pose proof (to_ssize_some_range _ _ Enx).
  pose proof (to_ssize_some_range _ _ Eny).
  repeat split; try apply H; try apply H0;
    try apply Hiw; try apply Hih; try apply Hww; try apply Hwh.
Qed.

Lemma zoom_wf_clamped (percent : Z) (c c1 : canvas) :
  wf c -> zoom percent c = Some c1 -> wf c1 /\ clamped c1.
Proof.
  intros (Hx & Hy & Hiw & Hih & Hww & Hwh). unfold zoom, zoom_move.
  destruct (scaled_width c) as [ow|]; [|discriminate].
  destruct (scaled_height c) as [oh|]; [|discriminate].
  destruct (scaled_width (set_scale_field c (zoom_scale percent c)))
    as [nw|]; [|discriminate].
  destruct (scaled_height (set_scale_field c (zoom_scale percent c)))
    as [nh|]; [|discriminate].
  destruct (zoom_shift _ _ ow _) as [nx|] eqn:Enx; [|discriminate].
  destruct (zoom_shift _ _ oh _) as [ny|] eqn:Eny; [|discriminate].
  apply fix_viewport_wf_clamped.
  unfold zoom_shift in Enx, Eny.
  pose proof (to_ssize_some_range _ _ Enx).
  pose proof (to_ssize_some_range _ _ Eny).
  unfold wf. cbn [set_pos set_scale_field image window x y width height].
  repeat split; try apply H; try apply H0;
    try apply Hiw; try apply Hih; try apply Hww; try apply Hwh.
Qed.

Section Operations.

Variable str_to_num : string -> option Z.

Lemma operation_keeps_clamped (o : operation) (c c' : canvas) :
  wf c -> clamped c -> operation_wf o ->
  apply_operation str_to_num o c = Some c' ->
  wf c' /\ clamped c'.
Proof.
  intros Hwf Hcl Ho H.
  pose proof Hwf as (Hx & Hy & Hiw & Hih & Hww & Hwh).
  destruct o as [w h s|w h| |hz p|dx dy|op]; cbn [apply_operation] in H.
  - destruct (canvas_reset_window w h s c) as [[b c1]|] eqn:E; [|discriminate].
    injection H as <-. unfold canvas_reset_window in E.
    destruct (fix_viewport _) as [c2|] eqn:E2 in E; [|discriminate].
    injection E as _ <-. destruct Ho as [Ho1 Ho2].
    eapply fix_viewport_wf_clamped; [|exact E2].
    unfold wf; cbn [image window x y width height swidth sheight];
      repeat split; try apply Hx; try apply Hy; try apply Hiw; try apply Hih;
      try apply Ho1; try apply Ho2.
  - unfold canvas_reset_image in H. destruct Ho as [Ho1 Ho2].
    eapply set_scale_wf_clamped; [|exact H].
    unfold wf; cbn [image window x y width height swidth sheight];
      repeat split; try apply Ho1; try apply Ho2;
      try apply Hww; try apply Hwh; cint; lia.
  - unfold canvas_swap_image_size in H.
    destruct (F32.to_ssize _) as [shift|]; [|discriminate].
    destruct (ssize_checked (x (image c) + shift)) as [nx|] eqn:Enx;
      [|discriminate].
    destruct (ssize_checked (y (image c) - shift)) as [ny|] eqn:Eny;
      [|discriminate].
    destruct (ssize_checked_range _ _ Enx) as [-> Hnx].
    destruct (ssize_checked_range _ _ Eny) as [-> Hny].
    eapply fix_viewport_wf_clamped; [|exact H].
    unfold wf; cbn [image window x y width height swidth sheight];
      repeat split; try apply Hnx; try apply Hny; try apply Hiw; try apply Hih;
      try apply Hww; try apply Hwh.
  - destruct (canvas_move hz p c) as [[b c1]|] eqn:E; [|discriminate].
    injection H as <-. unfold canvas_move in E.
    destruct (fix_viewport _) as [c2|] eqn:E2 in E; [|discriminate].
    injection E as _ <-.
    eapply fix_viewport_wf_clamped; [|exact E2].
    destruct hz; unfold wf, set_x, set_y;
      cbn [set_pos image window x y width height swidth sheight];
      repeat split; try apply Hx; try apply Hy; try apply Hiw; try apply Hih;
      try apply Hww; try apply Hwh; try apply to_ssize_range.
  - destruct (canvas_drag dx dy c) as [[b c1]|] eqn:E; [|discriminate].
    injection H as <-. unfold canvas_drag in E.
    destruct (ssize_checked (x (image c) + dx)) as [nx|] eqn:Enx;
      [|discriminate].
    destruct (ssize_checked (y (image c) + dy)) as [ny|] eqn:Eny;
      [|discriminate].
    destruct (ssize_checked_range _ _ Enx) as [-> Hnx].
    destruct (ssize_checked_range _ _ Eny) as [-> Hny].
    destruct (fix_viewport _) as [c2|] eqn:E2 in E; [|discriminate].
    injection E as _ <-.
    eapply fix_viewport_wf_clamped; [|exact E2].
    unfold wf; cbn [set_pos image window x y width height swidth sheight];
      repeat split; try apply Hnx; try apply Hny; try apply Hiw; try apply Hih;
      try apply Hww; try apply Hwh.
  - destruct (canvas_zoom str_to_num op c) as [[c1 d]|] eqn:E; [|discriminate].
    injection H as <-. unfold canvas_zoom in E.
    destruct op as [[|ch rest]|].
    + injection E as <- _. auto.
    + destruct (find _ scale_names) as [sc|].
      * destruct (set_scale sc c) as [c2|] eqn:E2; [|discriminate].
        injection E as <- _. exact (set_scale_wf_clamped _ _ _ Hwf E2).
      * destruct (str_to_num (String ch rest)) as [n|].
        -- destruct (negb (n =? 0) && (n >? -1000) && (n <? 1000)).
           ++ destruct (zoom n c) as [c2|] eqn:E2; [|discriminate].
              injection E as <- _. exact (zoom_wf_clamped _ _ _ Hwf E2).
           ++ injection E as <- _. auto.
        -- injection E as <- _. auto.
    + injection E as <- _. auto.
Qed.

Lemma ctx0_wf_clamped : wf ctx0 /\ clamped ctx0.
Proof. split; [unfold wf; cint; cbn; lia|vm_compute; reflexivity]. Qed.

(** X3. Every state that the public operations reach from a clamped,
    well-formed state, the initial one in particular, is again well-formed
    and clamped: each operation ends with the clamp pass (or changes
    nothing), and the pass is idempotent. *)
Theorem operations_keep_clamped (os : list operation) :
  forall c c',
    wf c -> clamped c -> Forall operation_wf os ->
    apply_operations str_to_num os c = Some c' ->
    wf c' /\ clamped c'.
Proof.
  induction os as [|o os IH]; intros c c' Hwf Hcl Hos H;
    cbn [apply_operations] in H.
  - injection H as <-. auto.
  - destruct (apply_operation str_to_num o c) as [c1|] eqn:E1; [|discriminate].
    inversion Hos as [|? ? Ho Hrest]; subst.
    destruct (operation_keeps_clamped o c c1 Hwf Hcl Ho E1) as [Hwf1 Hcl1].
    exact (IH c1 c' Hwf1 Hcl1 Hrest H).
Qed.

End Operations.

Lemma operations_keep_clamped_witness :
  exists c',
    apply_operations decimal_to_num
      [op_reset_window 100 100 1; op_reset_image 200 200;
       op_zoom (Some "real"%string); op_drag (-120) 0;
       op_move false 50; op_swap_image_size; op_zoom (Some "-10"%string)]
      ctx0 = Some c'
    /\ wf c' /\ clamped c'.
Proof.
  destruct (apply_operations decimal_to_num
              [op_reset_window 100 100 1; op_reset_image 200 200;
               op_zoom (Some "real"%string); op_drag (-120) 0;
               op_move false 50; op_swap_image_size;
               op_zoom (Some "-10"%string)] ctx0) as [c'|] eqn:E.
  - exists c'. split; [reflexivity|].
    refine (operations_keep_clamped decimal_to_num _ ctx0 c'
              (proj1 ctx0_wf_clamped) (proj2 ctx0_wf_clamped) _ E).
    repeat constructor; cint; lia.
  - vm_compute in E. discriminate E.
Defined.

Lemma clamped_position (c : canvas) (w h : Z) :
  clamped c ->
  scaled_width c = Some w -> scaled_height c = Some h ->
  x (image c) = fix_axis (x (image c)) w (swidth (window c))
  /\ y (image c) = fix_axis (y (image c)) h (sheight (window c)).
Proof.
  intros Hcl Ew Eh.
  destruct (fix_viewport_result c c Hcl) as (w' & h' & Ew' & Eh' & E).
  rewrite Ew in Ew'. rewrite Eh in Eh'.
  injection Ew' as <-. injection Eh' as <-.
  split.
  - apply (f_equal (fun c => x (image c))) in E. exact E.
  - apply (f_equal (fun c => y (image c))) in E. exact E.
Qed.

Lemma fix_viewport_set_pos_small (c : canvas) (w h nx ny : Z) :
  wf c -> clamped c ->
  scaled_width c = Some w -> scaled_height c = Some h ->
  w <= swidth (window c) -> h <= sheight (window c) ->
  fix_viewport (set_pos c nx ny) = Some c.
Proof.
  intros (_ & _ & _ & _ & Hww & Hwh) Hcl Ew Eh Hw Hh.
  pose proof (F32Facts.to_size_some_range _ _ Ew).
  pose proof (F32Facts.to_size_some_range _ _ Eh).
  destruct (clamped_position c w h Hcl Ew Eh) as [Hx Hy].
  rewrite fix_viewport_axes, scaled_width_set_pos, scaled_height_set_pos,
    Ew, Eh.
  cbn [set_pos image window x y width height].
  rewrite (fix_axis_center nx), (fix_axis_center ny) by (auto; lia).
  rewrite (fix_axis_center (x (image c))) in Hx by (auto; lia).
  rewrite (fix_axis_center (y (image c))) in Hy by (auto; lia).
  rewrite <- Hx, <- Hy.
  destruct c as [? ? ? ? ? [? ? ? ?] ? ?]. reflexivity.
Qed.

Lemma moved_same (c : canvas) : moved (x (image c)) (y (image c)) c = false.
Proof. unfold moved. rewrite !Z.eqb_refl. reflexivity. Qed.

(** X4. An image that is not larger than the window on either axis cannot
    be panned: from a clamped state, [canvas_drag] (the additions not
    overflowing) and [canvas_move] return [false] and leave the state as it
    is, whatever the deltas. *)
Theorem small_image_stays (c : canvas) (w h : Z) :
  wf c -> clamped c ->
  scaled_width c = Some w -> scaled_height c = Some h ->
  w <= swidth (window c) -> h <= sheight (window c) ->
  (forall dx dy,
     is_ssize (x (image c) + dx) -> is_ssize (y (image c) + dy) ->
     canvas_drag dx dy c = Some (false, c))
  /\ (forall horizontal percent,
        canvas_move horizontal percent c = Some (false, c)).
Proof.
  intros Hwf Hcl Ew Eh Hw Hh. split.
  - intros dx dy Hx Hy. unfold canvas_drag, ssize_checked.
    destruct Hx as [Hx1 Hx2]. destruct Hy as [Hy1 Hy2].
    apply Z.leb_le in Hx1, Hy1. apply Z.ltb_lt in Hx2, Hy2.
    rewrite Hx1, Hx2, Hy1, Hy2. cbn [andb].
    rewrite (fix_viewport_set_pos_small c w h) by assumption.
    rewrite moved_same. reflexivity.
  - intros hz p. unfold canvas_move, set_x, set_y.
    destruct hz;
      rewrite (fix_viewport_set_pos_small c w h) by assumption;
      rewrite moved_same; reflexivity.
Qed.

Lemma small_image_stays_witness :
  canvas_drag 25 (-40) small_centered = Some (false, small_centered)
  /\ canvas_move true (-50) small_centered = Some (false, small_centered).
Proof.
  destruct (small_image_stays small_centered 10 10) as [Hd Hm].
  - unfold wf. cint. cbn. lia.
  - vm_compute. reflexivity.
  - vm_compute. reflexivity.
  - vm_compute. reflexivity.
  - cbn. lia.
  - cbn. lia.
  - split; [apply Hd; cint; cbn; lia|apply Hm].
Defined.

Lemma to_ssize_to_size_id (z : Z) : is_ssize z -> to_ssize (to_size z) = z.
Proof. intros Hz. cint. Z.div_mod_to_equations. lia. Qed.

(** X5. [canvas_move] steps by [(window / 100) * percent] in integer
    arithmetic: in a window narrower than 100 pixels a horizontal move, and
    in a window lower than 100 pixels a vertical move, changes nothing
    and returns [false], whatever the percentage. *)
Theorem move_needs_100_pixels (c : canvas) (percent : Z) :
  wf c -> clamped c ->
  (swidth (window c) < 100 -> canvas_move true percent c = Some (false, c))
  /\ (sheight (window c) < 100 ->
      canvas_move false percent c = Some (false, c)).
Proof.
  intros (Hx & Hy & _ & _ & Hww & Hwh) Hcl.
  split; intros Hlt; unfold canvas_move, set_x, set_y.
  - replace (swidth (window c) / 100) with 0
      by (symmetry; apply Z.div_small; cint; lia).
    rewrite Z.mul_0_l, Z.add_0_r, (to_ssize_to_size_id _ Hx), set_pos_same.
    unfold clamped in Hcl. rewrite Hcl, moved_same. reflexivity.
  - replace (sheight (window c) / 100) with 0
      by (symmetry; apply Z.div_small; cint; lia).
    rewrite Z.mul_0_l, Z.add_0_r, (to_ssize_to_size_id _ Hy), set_pos_same.
    unfold clamped in Hcl. rewrite Hcl, moved_same. reflexivity.
Qed.

Lemma move_needs_100_pixels_witness :
  canvas_move true 50 tiny_window = Some (false, tiny_window)
  /\ canvas_move false 50 tiny_window = Some (false, tiny_window).
Proof.
  destruct (move_needs_100_pixels tiny_window 50) as [Hh Hv].
  - unfold wf. cint. cbn. lia.
  - vm_compute. reflexivity.
  - split; [apply Hh|apply Hv]; cbn; lia.
Defined.

Lemma fix_axis_no_gap (p sz wnd : Z) :
  is_size wnd -> is_ssize p -> 0 <= sz < ssize_half ->
  sz <= wnd \/ 0 <= p + sz ->
  no_gap_axis (fix_axis p sz wnd) sz wnd = true.
Proof.
  intros Hw Hp Hsz [Hle|Hvis].
  - unfold no_gap_axis. apply orb_true_iff. left. apply Z.leb_le. exact Hle.
  - apply fix_axis_no_gap_when_visible; assumption.
Qed.

Lemma no_gap_axis_inv (p sz wnd : Z) :
  no_gap_axis p sz wnd = true -> sz <= wnd \/ (p <= 0 /\ wnd <= p + sz).
Proof.
  unfold no_gap_axis. intros H. apply orb_true_iff in H.
  destruct H as [H|H]; zbool; auto.
Qed.

(** X6. Starting without gaps, a drag that goes at most one window width
    to the left and one window height up (and as far as one likes to the
    right and down) ends without gaps: the wrap-around of the clamp pass
    needs the image to be pulled wholly out of the window. *)
Theorem drag_within_window_keeps_no_gap (c c' : canvas) (w h dx dy : Z)
        (changed : bool) :
  wf c -> no_gap c = true ->
  scaled_width c = Some w -> scaled_height c = Some h ->
  w < ssize_half -> h < ssize_half ->
  - swidth (window c) <= dx -> - sheight (window c) <= dy ->
  canvas_drag dx dy c = Some (changed, c') ->
  no_gap c' = true.
Proof.
  intros (Hx & Hy & _ & _ & Hww & Hwh) Hng Ew Eh Hwr Hhr Hdx Hdy H.
  pose proof (F32Facts.to_size_some_range _ _ Ew).
  pose proof (F32Facts.to_size_some_range _ _ Eh).
  unfold no_gap in Hng. rewrite Ew, Eh in Hng.
  apply andb_true_iff in Hng. destruct Hng as [Hgx Hgy].
  apply no_gap_axis_inv in Hgx. apply no_gap_axis_inv in Hgy.
  unfold canvas_drag in H.
  destruct (ssize_checked (x (image c) + dx)) as [nx|] eqn:Enx; [|discriminate].
  destruct (ssize_checked (y (image c) + dy)) as [ny|] eqn:Eny; [|discriminate].
  destruct (ssize_checked_range _ _ Enx) as [-> Hnx].
  destruct (ssize_checked_range _ _ Eny) as [-> Hny].
  destruct (fix_viewport _) as [c2|] eqn:E2 in H; [|discriminate].
  injection H as _ <-.
  destruct (fix_viewport_result _ _ E2) as (w' & h' & Ew' & Eh' & ->).
  rewrite scaled_width_set_pos, Ew in Ew'.
  rewrite scaled_height_set_pos, Eh in Eh'.
  injection Ew' as <-. injection Eh' as <-.
  unfold no_gap.
  rewrite scaled_width_set_pos, scaled_height_set_pos.
  rewrite scaled_width_set_pos, scaled_height_set_pos, Ew, Eh.
  cbn [set_pos image window x y].
  rewrite !fix_axis_no_gap; auto; cint; lia.
Qed.

Lemma drag_within_window_keeps_no_gap_witness :
  no_gap (canvas_at F32.one (-100) (-50) 200 200 100 100) = true.
Proof.
  apply (drag_within_window_keeps_no_gap real_200_in_100
           (canvas_at F32.one (-100) (-50) 200 200 100 100)
           200 200 (-100) 0 true).
  - exact real_200_in_100_wf.
  - vm_compute. reflexivity.
  - vm_compute. reflexivity.
  - vm_compute. reflexivity.
  - cint. lia.
  - cint. lia.
  - cbn. lia.
  - cbn. lia.
  - vm_compute. reflexivity.
Defined.

Lemma SFcompare_Lt_asym (a b : spec_float) :
  SFcompare a b = Some Lt -> SFcompare b a = Some Gt.
Proof.
  destruct a as [sa|sa| |sa ma ea], b as [sb|sb| |sb mb eb];
    try destruct sa; try destruct sb; cbn; try congruence;
    rewrite (Z.compare_antisym ea eb);
    destruct (ea ?= eb)%Z; cbn; try congruence;
    change (PosDef.Pos.compare_cont Eq mb ma) with (Pos.compare mb ma);
    rewrite (Pos.compare_antisym ma mb);
    change (PosDef.Pos.compare_cont Eq ma mb) with (Pos.compare ma mb);
    destruct (Pos.compare ma mb); cbn; congruence.
Qed.

Lemma SFltb_asym (a b : spec_float) : SFltb a b = true -> SFltb b a = false.
Proof.
  unfold SFltb. destruct (SFcompare a b) as [[| |]|] eqn:E; try discriminate.
  intros _. rewrite (SFcompare_Lt_asym a b E). reflexivity.
Qed.

Lemma set_scale_scale (sc : canvas_scale) (c c' : canvas) :
  set_scale sc c = Some c' ->
  let fw := fit_factor (width (image c)) (swidth (window c)) in
  let fh := fit_factor (height (image c)) (sheight (window c)) in
  scale c' =
  match sc with
  | scale_fit_optimal =>
      if F32.gtb (F32.to_double (fmin fw fh)) (F32.dof_Z 1)
      then F32.one else fmin fw fh
  | scale_fit_window => fmin fw fh
  | scale_fit_width => fw
  | scale_fit_height => fh
  | scale_fill_window => fmax fw fh
  | scale_real_size => F32.one
  end.
Proof.
  unfold set_scale. intros H.
  destruct (F32.to_ssize _) in H; [|discriminate].
  destruct (F32.to_ssize _) in H; [|discriminate].
  apply fix_viewport_scale in H. rewrite H.
  destruct sc; reflexivity.
Qed.

(** X7. The scale of fit never exceeds that of fill: with the same image
    and window, [scale_fit_window] sets a scale that is greater than neither
    per-axis factor, [scale_fill_window] one that is less than neither, and
    the first is not greater than the second. *)
Theorem fit_not_above_fill (c c1 c2 : canvas) :
  set_scale scale_fit_window c = Some c1 ->
  set_scale scale_fill_window c = Some c2 ->
  let fw := fit_factor (width (image c)) (swidth (window c)) in
  let fh := fit_factor (height (image c)) (sheight (window c)) in
  F32.gtb (scale c1) fw = false /\ F32.gtb (scale c1) fh = false
  /\ F32.ltb (scale c2) fw = false /\ F32.ltb (scale c2) fh = false
  /\ F32.gtb (scale c1) (scale c2) = false.
Proof.
  intros H1 H2 fw fh.
  rewrite (set_scale_scale _ _ _ H1), (set_scale_scale _ _ _ H2).
  fold fw fh. unfold fmin, fmax, F32.gtb, F32.ltb.
  destruct (SFltb fw fh) eqn:E1, (SFltb fh fw) eqn:E2;
    rewrite ?E1, ?E2, ?F32Facts.SFltb_irrefl; try (repeat split; reflexivity).
  apply SFltb_asym in E1. congruence.
Qed.

Lemma fit_not_above_fill_witness :
  exists c1 c2,
    set_scale scale_fit_window (canvas_at F32.zero 0 0 1600 900 800 600)
    = Some c1
    /\ set_scale scale_fill_window (canvas_at F32.zero 0 0 1600 900 800 600)
      = Some c2
    /\ F32.gtb (scale c1) (scale c2) = false.
Proof.
  destruct (set_scale scale_fit_window
              (canvas_at F32.zero 0 0 1600 900 800 600)) as [c1|] eqn:E1;
    [|vm_compute in E1; discriminate E1].
  destruct (set_scale scale_fill_window
              (canvas_at F32.zero 0 0 1600 900 800 600)) as [c2|] eqn:E2;
    [|vm_compute in E2; discriminate E2].
  exists c1, c2. split; [reflexivity|]. split; [reflexivity|].
  exact (proj2 (proj2 (proj2 (proj2
           (fit_not_above_fill _ c1 c2 E1 E2))))).
Defined.

(** X8. [scale_fit_optimal] never enlarges: the scale it sets is not
    greater than 1.0, whatever the image and the window; and
    [scale_real_size] sets exactly 1.0. *)
Theorem optimal_not_above_one (c c1 : canvas) :
  (set_scale scale_fit_optimal c = Some c1 ->
   F32.gtb (F32.to_double (scale c1)) (F32.dof_Z 1) = false)
  /\ (set_scale scale_real_size c = Some c1 -> scale c1 = F32.one).
Proof.
  split; intros H; rewrite (set_scale_scale _ _ _ H); [|reflexivity].
  cbv zeta.
  destruct (F32.gtb (F32.to_double (fmin _ _)) (F32.dof_Z 1)) eqn:E.
  - vm_compute. reflexivity.
  - exact E.
Qed.

Lemma optimal_not_above_one_witness :
  exists c1,
    set_scale scale_fit_optimal (canvas_at F32.zero 0 0 10 10 800 600)
    = Some c1
    /\ F32.gtb (F32.to_double (scale c1)) (F32.dof_Z 1) = false.
Proof.
  destruct (set_scale scale_fit_optimal
              (canvas_at F32.zero 0 0 10 10 800 600)) as [c1|] eqn:E.
  - exists c1. split; [reflexivity|].
    exact (proj1 (optimal_not_above_one _ c1) E).
  - vm_compute in E. discriminate E.
Defined.

Lemma swap_result (c c' : canvas) :
  canvas_swap_image_size c = Some c' ->
  exists nx ny,
    c' = {| image_bkg := image_bkg c;
            window_bkg := window_bkg c;
            antialiasing := antialiasing c;
            initial_scale := initial_scale c;
            scale := scale c;
            image := {| x := nx; y := ny;
                        width := height (image c);
                        height := width (image c) |};
            window := window c;
            wnd_scale := wnd_scale c |}.
Proof.
  unfold canvas_swap_image_size. intros H.
  destruct (F32.to_ssize _) in H; [|discriminate].
  destruct (ssize_checked _) in H; [|discriminate].
  destruct (ssize_checked _) in H; [|discriminate].
  destruct (fix_viewport_result _ _ H) as (w & h & _ & _ & ->).
  eexists _, _. reflexivity.
Qed.

(** X9. Swapping the image sizes twice gives back the width, the height,
    the scale, the window and the settings: at most the position differs
    from the state before the first swap. *)
Theorem swap_twice_restores_size (c c1 c2 : canvas) :
  canvas_swap_image_size c = Some c1 ->
  canvas_swap_image_size c1 = Some c2 ->
  c2 = set_pos c (x (image c2)) (y (image c2)).
Proof.
  intros H1 H2.
  destruct (swap_result _ _ H1) as (x1 & y1 & ->).
  destruct (swap_result _ _ H2) as (x2 & y2 & ->).
  destruct c as [? ? ? ? ? [? ? ? ?] ? ?]. reflexivity.
Qed.

Lemma swap_twice_restores_size_witness :
  exists c1 c2,
    canvas_swap_image_size example_800x600 = Some c1
    /\ canvas_swap_image_size c1 = Some c2
    /\ c2 = set_pos example_800x600 (x (image c2)) (y (image c2)).
Proof.
  destruct (canvas_swap_image_size example_800x600) as [c1|] eqn:E1;
    [|vm_compute in E1; discriminate E1].
  destruct (canvas_swap_image_size c1) as [c2|] eqn:E2.
  - exists c1, c2. split; [reflexivity|]. split; [exact E2|].
    exact (swap_twice_restores_size example_800x600 c1 c2 E1 E2).
  - vm_compute in E1. injection E1 as <-. vm_compute in E2. discriminate E2.
Defined.

Lemma clamped_scale_finite (c : canvas) :
  clamped c -> F32.is_finite (scale c) = true.
Proof.
  intros Hcl. destruct (fix_viewport_result c c Hcl) as (w & h & Ew & _ & _).
  unfold scaled_width, F32.mul in Ew.
  destruct (scale c) as [s|s| |s m e]; try reflexivity; exfalso;
    destruct (F32.of_Z (width (image c))) as [s'|s'| |s' m' e'];
    cbn in Ew; discriminate Ew.
Qed.

(** X10. On a square image the swap of the sizes does nothing: from a
    clamped state every field, the position included, is as before. *)
Theorem swap_square_image (c : canvas) :
  wf c -> clamped c ->
  width (image c) = height (image c) ->
  canvas_swap_image_size c = Some c.
Proof.
  intros (Hx & Hy & Hiw & _) Hcl Hsq.
  pose proof (clamped_scale_finite c Hcl) as Hfin.
  unfold canvas_swap_image_size.
  rewrite <- Hsq.
  replace (to_ssize (to_size (to_ssize (width (image c)) - width (image c))))
    with 0.
  2:{ destruct Hiw as [Hw0 Hw1]. revert Hw0 Hw1. generalize (width (image c)).
      intros z Hw0 Hw1. cint. Z.div_mod_to_equations. lia. }
  replace (F32.to_ssize
             (F32.div (F32.mul (scale c) (F32.of_Z 0)) (F32.of_Z 2)))
    with (Some 0)
    by (destruct (scale c) as [[|]|[|]| |[|] m e]; try discriminate Hfin;
        vm_compute; reflexivity).
  rewrite Z.add_0_r, Z.sub_0_r.
  unfold ssize_checked.
  destruct Hx as [Hx1 Hx2]. destruct Hy as [Hy1 Hy2].
  apply Z.leb_le in Hx1, Hy1. apply Z.ltb_lt in Hx2, Hy2.
  rewrite Hx1, Hx2, Hy1, Hy2. cbn [andb].
  replace {| image_bkg := image_bkg c;
             window_bkg := window_bkg c;
             antialiasing := antialiasing c;
             initial_scale := initial_scale c;
             scale := scale c;
             image := {| x := x (image c); y := y (image c);
                         width := width (image c);
                         height := width (image c) |};
             window := window c;
             wnd_scale := wnd_scale c |} with c.
  - exact Hcl.
  - destruct c as [? ? ? ? ? [? ? ? ?] ? ?].
    cbn [image width height x y] in Hsq |- *. rewrite <- Hsq. reflexivity.
Qed.

Lemma swap_square_image_witness :
  canvas_swap_image_size real_200_in_100 = Some real_200_in_100.
Proof.
  apply (swap_square_image real_200_in_100).
  - exact real_200_in_100_wf.
  - vm_compute. reflexivity.
  - reflexivity.
Defined.

Section ZoomDispatch.

Variable str_to_num : string -> option Z.

(** X11. Each of the six scale names selects its own mode: [canvas_zoom]
    on the name of a mode is [set_scale] of that mode, prints nothing, and
    never asks [str_to_num]. *)
Theorem zoom_name_selects_mode (sc : canvas_scale) (c : canvas) :
  canvas_zoom str_to_num (Some (scale_name sc)) c =
  (c' <- set_scale sc c ;; Some (c', [])).
Proof. destruct sc; reflexivity. Qed.

(** X12. A non-empty token that is no scale name and that [str_to_num]
    reads as a number other than 0 strictly between -1000 and 1000 makes
    [canvas_zoom] call [zoom] with that number and print nothing. *)
Theorem zoom_number_calls_zoom (op : string) (n : Z) (c : canvas) :
  op <> EmptyString ->
  (forall sc, op <> scale_name sc) ->
  str_to_num op = Some n ->
  n <> 0 -> -1000 < n < 1000 ->
  canvas_zoom str_to_num (Some op) c = (c' <- zoom n c ;; Some (c', [])).
Proof.
  intros Hne Hname Hnum Hn0 Hrange.
  unfold canvas_zoom.
  rewrite (find_scale_name_none op Hname), Hnum.
  destruct op as [|ch rest]; [congruence|].
  replace (negb (n =? 0) && (n >? -1000) && (n <? 1000)) with true;
    [reflexivity|].
  symmetry. rewrite !andb_true_iff, negb_true_iff. zbool. lia.
Qed.

End ZoomDispatch.

Lemma zoom_number_calls_zoom_witness :
  canvas_zoom decimal_to_num (Some "+25"%string) example_800x600 =
  (c' <- zoom 25 example_800x600 ;; Some (c', [])).
Proof.
  apply (zoom_number_calls_zoom decimal_to_num "+25"%string 25).
  - discriminate.
  - intros sc; destruct sc; discriminate.
  - reflexivity.
  - lia.
  - lia.
Defined.

(** *** Drawing *)

Lemma to_ssize_nonneg (z : Z) : is_size z -> 0 <= to_ssize z -> to_ssize z = z.
Proof. cint. intros H1 H2. Z.div_mod_to_equations. lia. Qed.

Lemma draw_area_inv (c : canvas) (r : draw_area) :
  draw_area_of c = Some r ->
  0 <= wnd_x0 r /\ 0 <= wnd_y0 r
  /\ wnd_x1 r <= to_ssize (swidth (window c))
  /\ wnd_y1 r <= to_ssize (sheight (window c))
  /\ is_ssize (wnd_x1 r - wnd_x0 r) /\ is_ssize (wnd_y1 r - wnd_y0 r)
  /\ area_width r = to_size (wnd_x1 r - wnd_x0 r)
  /\ area_height r = to_size (wnd_y1 r - wnd_y0 r).
Proof.
  unfold draw_area_of. intros H.
  destruct (F32.to_ssize _) as [sx|] in H; [|discriminate].
  destruct (F32.to_ssize _) as [sy|] in H; [|discriminate].
  destruct (ssize_checked _) as [dw|] eqn:Edw in H; [|discriminate].
  destruct (ssize_checked _) as [dh|] eqn:Edh in H; [|discriminate].
  injection H as <-. cbn [wnd_x0 wnd_y0 wnd_x1 wnd_y1 area_width area_height].
  destruct (ssize_checked_range _ _ Edw) as [-> Hdw].
  destruct (ssize_checked_range _ _ Edh) as [-> Hdh].
  repeat split; try apply Hdw; try apply Hdh;
    repeat match goal with
           | |- context [if ?b then _ else _] => destruct b eqn:?
           end; zbool; lia.
Qed.

Section Drawing.

Variable ARGB_SET_A : Z -> Z.

(** X13. [canvas_draw] clears the window around the image and nowhere
    else: when the part of the window under the image is not inverted
    (its left edge not right of its right edge, its top not below its
    bottom), each pixel of the window outside that part lies in exactly
    one of the rectangles filled with the window colour, each pixel
    inside it in none; and with [alpha] set the one call that clears the
    image background covers exactly that part. *)
Theorem draw_clears_around_image (c : canvas) (r : draw_area)
        (alpha : bool) (px py : Z) :
  wf c ->
  draw_area_of c = Some r ->
  wnd_x0 r <= wnd_x1 r -> wnd_y0 r <= wnd_y1 r ->
  0 <= px < swidth (window c) -> 0 <= py < sheight (window c) ->
  canvas_draw ARGB_SET_A alpha c
  = Some (clear_background ARGB_SET_A c r ++ paint_image ARGB_SET_A alpha c r)
  /\ List.length (filter (covers px py) (clear_background ARGB_SET_A c r))
     = (if in_area r px py then 0 else 1)%nat
  /\ List.length (filter (covers px py) (paint_image ARGB_SET_A true c r))
     = (if in_area r px py then 1 else 0)%nat.
Proof.
  intros (_ & _ & _ & _ & Hww & Hwh) Hr Hx Hy Hpx Hpy.
  destruct (draw_area_inv c r Hr)
    as (Hx0 & Hy0 & Hx1 & Hy1 & Hdw & Hdh & Ew & Eh).
  rewrite (to_ssize_nonneg _ Hww) in Hx1 by lia.
  rewrite (to_ssize_nonneg _ Hwh) in Hy1 by lia.
  assert (Ew' : area_width r = wnd_x1 r - wnd_x0 r).
  { rewrite Ew. apply to_size_small. cint. lia. }
  assert (Eh' : area_height r = wnd_y1 r - wnd_y0 r).
  { rewrite Eh. apply to_size_small. cint. lia. }
  assert (Erw : to_size (swidth (window c) - wnd_x1 r)
                = swidth (window c) - wnd_x1 r).
  { apply to_size_small. cint. lia. }
  assert (Erh : to_size (sheight (window c) - wnd_y1 r)
                = sheight (window c) - wnd_y1 r).
  { apply to_size_small. cint. lia. }
  split; [|split].
  - unfold canvas_draw. rewrite Hr. reflexivity.
  - unfold clear_background, in_area. rewrite Ew', Eh', Erw, Erh.
    rewrite filter_app, length_app.
    destruct (wnd_y1 r - wnd_y0 r <? sheight (window c)) eqn:C1;
      destruct (wnd_x1 r - wnd_x0 r <? swidth (window c)) eqn:C2;
      cbn [filter covers List.length];
      repeat match goal with
             | |- context [?a <=? ?b] =>
                 destruct (Z.leb_spec a b); cbn [andb]
             | |- context [?a <? ?b] =>
                 destruct (Z.ltb_spec a b); cbn [andb]
             end;
      cbn [filter covers List.length Nat.add]; zbool; try lia.
  - unfold paint_image, in_area. rewrite Ew', Eh'.
    destruct (image_bkg c =? BACKGROUND_GRID);
      cbn [app filter covers List.length];
      repeat match goal with
             | |- context [?a <=? ?b] =>
                 destruct (Z.leb_spec a b); cbn [andb]
             | |- context [?a <? ?b] =>
                 destruct (Z.ltb_spec a b); cbn [andb]
             end;
      cbn [filter covers List.length Nat.add]; try lia.
Qed.

(** X14. An image that lies wholly to the left of the window is drawn as
    if it filled the width: the width of the visible part wraps around in
    [size_t], so no rectangle left or right of the image is filled, and a
    pixel in the rows of the image is cleared by no call. *)
Theorem draw_skips_clearing_when_inverted (c : canvas) (r : draw_area)
        (px py : Z) :
  wf c ->
  swidth (window c) < ssize_half ->
  draw_area_of c = Some r ->
  wnd_x1 r < wnd_x0 r ->
  wnd_y0 r <= py < wnd_y1 r ->
  filter (covers px py) (clear_background ARGB_SET_A c r) = [].
Proof.
  intros (_ & _ & _ & _ & Hww & Hwh) Hsmall Hr Hx Hpy.
  destruct (draw_area_inv c r Hr)
    as (Hx0 & Hy0 & Hx1 & Hy1 & Hdw & Hdh & Ew & Eh).
  rewrite (to_ssize_nonneg _ Hwh) in Hy1 by lia.
  assert (Eh' : area_height r = wnd_y1 r - wnd_y0 r).
  { rewrite Eh. apply to_size_small. cint. lia. }
  assert (Erh : to_size (sheight (window c) - wnd_y1 r)
                = sheight (window c) - wnd_y1 r).
  { apply to_size_small. cint. lia. }
  assert (Hwide : (area_width r <? swidth (window c)) = false).
  { apply Z.ltb_ge. rewrite Ew. cint. Z.div_mod_to_equations. lia. }
  unfold clear_background. rewrite Hwide, Eh', Erh, app_nil_r.
  destruct (wnd_y1 r - wnd_y0 r <? sheight (window c)); [|reflexivity].
  cbn [filter covers].
  replace (py <? 0 + wnd_y0 r) with false by (symmetry; apply Z.ltb_ge; lia).
  replace (wnd_y1 r <=? py) with false by (symmetry; apply Z.leb_gt; lia).
  rewrite !andb_false_r. reflexivity.
Qed.

End Drawing.

Lemma draw_clears_around_image_witness :
  List.length
    (filter (covers 10 20)
       (clear_background (fun a => Z.shiftl a 24) small_centered
          {| wnd_x0 := 395; wnd_y0 := 295; wnd_x1 := 405; wnd_y1 := 305;
             area_width := 10; area_height := 10 |}))
  = 1%nat.
Proof.
  apply (proj1 (proj2
           (draw_clears_around_image (fun a => Z.shiftl a 24) small_centered
              {| wnd_x0 := 395; wnd_y0 := 295; wnd_x1 := 405; wnd_y1 := 305;
                 area_width := 10; area_height := 10 |} true 10 20
              ltac:(unfold wf; cint; cbn; lia)
              ltac:(vm_compute; reflexivity)
              ltac:(cbn; lia) ltac:(cbn; lia)
              ltac:(cbn; lia) ltac:(cbn; lia)))).
Defined.

Lemma draw_skips_clearing_when_inverted_witness :
  filter (covers 50 50)
    (clear_background (fun a => Z.shiftl a 24) far_dragged
       {| wnd_x0 := 0; wnd_y0 := 0; wnd_x1 := -150; wnd_y1 := 100;
          area_width := 18446744073709551466; area_height := 100 |})
  = [].
Proof.
  apply (draw_skips_clearing_when_inverted (fun a => Z.shiftl a 24)
           far_dragged
           {| wnd_x0 := 0; wnd_y0 := 0; wnd_x1 := -150; wnd_y1 := 100;
              area_width := 18446744073709551466; area_height := 100 |}
           50 50).
  - unfold wf. cint. cbn. lia.
  - cbn. cint. lia.
  - vm_compute. reflexivity.
  - cbn. lia.
  - cbn. lia.
Defined.

(** *** Text in the middle of the window *)

Section Printing.

Variable font_height : Z.
Variable font_print : string -> Z.

Local Abbreviation center_layout := (Canvas.center_layout font_height).
Local Abbreviation print_rows := (Canvas.print_rows font_height font_print).
Local Abbreviation print_columns :=
  (Canvas.print_columns font_height font_print).
Local Abbreviation canvas_print_center :=
  (Canvas.canvas_print_center font_height font_print).

Lemma div_up_spec (n d q : Z) :
  0 <= n -> div_up n d = Some q ->
  0 < d /\ (q - 1) * d < n <= q * d \/ d < 0.
Proof.
  unfold div_up. intros Hn H.
  destruct (Z.eqb_spec d 0) as [|Hd]; [discriminate|].
  injection H as <-.
  destruct (Z.lt_total d 0) as [Hneg|[H0|Hpos]]; [right; exact Hneg|lia|].
  left. split; [exact Hpos|].
  pose proof (Z.div_mod n d Hd) as E.
  pose proof (Z.mod_pos_bound n d Hpos) as B.
  destruct (Z.eqb_spec (n mod d) 0) as [Hz|Hz]; nia.
Qed.

Lemma center_layout_grid (lines_num : Z) (c : canvas) (columns rows : Z) :
  0 < font_height -> 0 <= lines_num ->
  center_layout lines_num c = Some (columns, rows) ->
  let row_max :=
    to_size (sheight (window c) - TEXT_PADDING * 2) / font_height in
  0 < lines_num /\ 0 < row_max
  /\ 1 <= rows <= row_max /\ 1 <= columns
  /\ (columns - 1) * rows < lines_num <= columns * rows
  /\ (rows - 1) * columns < lines_num.
Proof.
  intros Hfh Hn H row_max. unfold Canvas.center_layout in H.
  destruct (Z.eqb_spec font_height 0); [lia|].
  fold row_max in H.
  assert (Hrm : 0 <= row_max).
  { apply Z.div_pos; [|lia]. apply to_size_range. }
  destruct (div_up lines_num row_max) as [cols|] eqn:E1; [|discriminate].
  destruct (div_up lines_num cols) as [rws|] eqn:E2; [|discriminate].
  injection H as <- <-.
  destruct (div_up_spec _ _ _ Hn E1) as [(Hr & Hc1 & Hc2)|]; [|lia].
  assert (0 <= cols) by nia.
  destruct (div_up_spec _ _ _ Hn E2) as [(Hc & Hr1 & Hr2)|]; [|lia].
  assert (0 < lines_num) by nia.
  assert (1 <= rws) by nia.
  assert (rws <= row_max) by nia.
  repeat split; try lia; nia.
Qed.


(** X15. The grid of [canvas_print_center]: with at least one line and
    room for at least one row, the lines are laid out in [columns] columns
    of [rows] rows where no column has more rows than fit between the
    paddings, the grid has a cell for every line, and its last column is
    not empty.  Without lines, or without room for a row, the function
    divides by zero. *)
Theorem center_grid (lines_num : Z) (c : canvas) :
  0 < font_height -> 0 <= lines_num ->
  let row_max :=
    to_size (sheight (window c) - TEXT_PADDING * 2) / font_height in
  (0 < lines_num -> 0 < row_max ->
   exists columns rows,
     center_layout lines_num c = Some (columns, rows)
     /\ 1 <= rows <= row_max /\ 1 <= columns
     /\ (columns - 1) * rows < lines_num <= columns * rows)
  /\ (lines_num = 0 \/ row_max = 0 -> center_layout lines_num c = None).
Proof.
  intros Hfh Hn row_max. split.
  - intros Hpos Hrm.
    destruct (center_layout lines_num c) as [[columns rows]|] eqn:E.
    + exists columns, rows. split; [reflexivity|].
      pose proof (center_layout_grid lines_num c columns rows Hfh Hn E)
        as (_ & _ & H1 & H2 & H3 & _).
      auto.
    + exfalso. unfold Canvas.center_layout in E.
      destruct (Z.eqb_spec font_height 0); [lia|].
      fold row_max in E. unfold div_up in E.
      destruct (Z.eqb_spec row_max 0); [lia|].
      pose proof (Z.div_mod lines_num row_max ltac:(lia)) as Ed.
      pose proof (Z.mod_pos_bound lines_num row_max Hrm) as Bd.
      destruct (Z.eqb_spec
                  (lines_num / row_max
                   + (if lines_num mod row_max =? 0 then 0 else 1)) 0)
        as [Hz|Hz]; [|discriminate E].
      destruct (Z.eqb_spec (lines_num mod row_max) 0); nia.
  - intros Hzero. unfold Canvas.center_layout.
    destruct (Z.eqb_spec font_height 0); [reflexivity|].
    fold row_max. unfold div_up.
    destruct (Z.eqb_spec row_max 0) as [|Hrm]; [reflexivity|].
    destruct Hzero as [->|]; [|contradiction].
    rewrite Z.div_0_l, Z.mod_0_l by exact Hrm. reflexivity.
Qed.

Lemma skipn_cons_nth (i : nat) (l : list string) :
  (i < List.length l)%nat ->
  skipn i l = nth i l EmptyString :: skipn (S i) l.
Proof.
  revert l. induction i as [|i IH]; intros [|a l] H; cbn in H; try lia.
  - reflexivity.
  - cbn [skipn nth]. rewrite (IH l) by lia. reflexivity.
Qed.

Lemma print_rows_texts (col rows : Z) (lines : list string) (pt_x : Z) :
  0 <= col * rows ->
  forall (n : nat) (r pt_y cw : Z),
    0 <= r -> r + col * rows + Z.of_nat n < size_mod ->
    map snd (fst (print_rows n r col rows lines pt_x pt_y cw))
    = firstn n (skipn (Z.to_nat (r + col * rows)) lines).
Proof.
  intros Hcr. induction n as [|n IH]; intros r pt_y cw Hr Hb;
    [reflexivity|].
  cbn [Canvas.print_rows].
  rewrite (to_size_small (col * rows)) by (cint; lia).
  rewrite (to_size_small (r + col * rows)) by (cint; lia).
  destruct (Z.geb_spec (r + col * rows) (Z.of_nat (List.length lines)))
    as [Hge|Hlt].
  - rewrite skipn_all2 by lia. rewrite firstn_nil. reflexivity.
  - rewrite (skipn_cons_nth (Z.to_nat (r + col * rows))) by lia.
    cbn [firstn].
    destruct (print_rows n (r + 1) col rows lines pt_x _ _)
      as [out w] eqn:E.
    cbn [fst map snd]. f_equal.
    replace (S (Z.to_nat (r + col * rows)))
      with (Z.to_nat (r + 1 + col * rows)) by lia.
    rewrite <- (IH (r + 1) (to_ssize (to_size (pt_y + font_height)))
                  (if cw <? font_print
                              (nth (Z.to_nat (r + col * rows)) lines
                                 EmptyString)
                   then font_print
                          (nth (Z.to_nat (r + col * rows)) lines EmptyString)
                   else cw)) by lia.
    rewrite E. reflexivity.
Qed.

Lemma firstn_add (A : Type) (a b : nat) (l : list A) :
  firstn (a + b) l = firstn a l ++ firstn b (skipn a l).
Proof.
  revert l. induction a as [|a IH]; intros [|x l]; cbn;
    rewrite ?firstn_nil; try reflexivity.
  rewrite IH. reflexivity.
Qed.

Lemma print_columns_texts (rows : Z) (lines : list string)
      (top_y col_space : Z) :
  0 < rows ->
  forall (n : nat) (col top_x : Z),
    0 <= col -> (col + Z.of_nat n) * rows < size_mod ->
    map snd (print_columns n col rows lines top_x top_y col_space)
    = firstn (n * Z.to_nat rows) (skipn (Z.to_nat (col * rows)) lines).
Proof.
  intros Hrows. induction n as [|n IH]; intros col top_x Hcol Hb;
    [reflexivity|].
  cbn [Canvas.print_columns].
  pose proof (print_rows_texts col rows lines top_x ltac:(nia)
                (Z.to_nat rows) 0 top_y 0 ltac:(lia) ltac:(nia)) as Hrow.
  destruct (print_rows (Z.to_nat rows) 0 col rows lines top_x top_y 0)
    as [out w].
  cbn [fst] in Hrow.
  rewrite map_app, Hrow, IH by nia.
  cbn [Nat.mul]. rewrite firstn_add, skipn_skipn.
  replace (Z.to_nat (0 + col * rows)) with (Z.to_nat (col * rows)) by lia.
  replace (Z.to_nat ((col + 1) * rows))
    with (Z.to_nat rows + Z.to_nat (col * rows))%nat by nia.
  reflexivity.
Qed.

(** X16. [canvas_print_center] prints every line exactly once, in the
    order given: the texts of its [font_print] calls on the window are the
    lines. *)
Theorem center_prints_each_line_once (lines : list string) (c : canvas)
        (out : list (Z * Z * string)) :
  0 < font_height ->
  Z.of_nat (List.length lines) < ssize_half ->
  canvas_print_center lines c = Some out ->
  map snd out = lines.
Proof.
  intros Hfh Hlen H. unfold Canvas.canvas_print_center in H.
  destruct (center_layout _ c) as [[columns rows]|] eqn:E; [|discriminate].
  injection H as <-.
  destruct (center_layout_grid _ c columns rows Hfh (Nat2Z.is_nonneg _) E)
    as (Hn & Hrm & Hr & Hc & (Hlo & Hhi) & Hrc).
  rewrite print_columns_texts; try lia.
  - cbn [Z.mul Z.to_nat skipn]. apply firstn_all2. nia.
  - cint. nia.
Qed.


Lemma print_rows_ys (col rows : Z) (lines : list string) (pt_x : Z) :
  0 < font_height ->
  forall (n : nat) (r pt_y cw : Z),
    0 <= pt_y -> pt_y + Z.of_nat n * font_height < ssize_half ->
    Forall (fun p => pt_y <= snd (fst p)
                     /\ snd (fst p) + font_height
                        <= pt_y + Z.of_nat n * font_height)
           (fst (print_rows n r col rows lines pt_x pt_y cw)).
Proof.
  intros Hfh. induction n as [|n IH]; intros r pt_y cw Hy Hb;
    [constructor|].
  cbn [Canvas.print_rows].
  destruct (_ >=? _); [constructor|].
  assert (Ey : to_ssize (to_size (pt_y + font_height)) = pt_y + font_height).
  { apply to_ssize_to_size_id. cint. nia. }
  rewrite Ey.
  match goal with
  | |- context [print_rows n (r + 1) col rows lines pt_x ?y ?w] =>
      pose proof (IH (r + 1) y w ltac:(lia) ltac:(nia)) as Hrec;
      destruct (print_rows n (r + 1) col rows lines pt_x y w) as [out w']
  end.
  cbn [fst] in *. constructor.
  - cbn [fst snd]. nia.
  - eapply Forall_impl; [|exact Hrec]. cbn beta. intros p [H1 H2]. nia.
Qed.

Lemma print_columns_ys (rows : Z) (lines : list string)
      (top_y col_space : Z) :
  0 < font_height -> 0 <= rows ->
  0 <= top_y -> top_y + rows * font_height < ssize_half ->
  forall (n : nat) (col top_x : Z),
    Forall (fun p => top_y <= snd (fst p)
                     /\ snd (fst p) + font_height
                        <= top_y + rows * font_height)
           (print_columns n col rows lines top_x top_y col_space).
Proof.
  intros Hfh Hrows Hy Hb. induction n as [|n IH]; intros col top_x;
    [constructor|].
  cbn [Canvas.print_columns].
  pose proof (print_rows_ys col rows lines top_x Hfh (Z.to_nat rows) 0
                top_y 0 Hy ltac:(rewrite Z2Nat.id by lia; exact Hb)) as Hrow.
  rewrite Z2Nat.id in Hrow by lia.
  destruct (print_rows (Z.to_nat rows) 0 col rows lines top_x top_y 0)
    as [out w].
  apply Forall_app. split; [exact Hrow|apply IH].
Qed.

(** X17. In a window at least two paddings high, [canvas_print_center]
    keeps every line between the paddings: each line is printed at least
    [TEXT_PADDING] below the top edge and ends at least [TEXT_PADDING]
    above the bottom edge. *)
Theorem center_text_within_padding (lines : list string) (c : canvas)
        (out : list (Z * Z * string)) :
  0 < font_height ->
  TEXT_PADDING * 2 <= sheight (window c) < ssize_half ->
  canvas_print_center lines c = Some out ->
  Forall (fun p => TEXT_PADDING <= snd (fst p)
                   /\ snd (fst p) + font_height
                      <= sheight (window c) - TEXT_PADDING)
         out.
Proof.
  intros Hfh HH H. unfold Canvas.canvas_print_center in H.
  destruct (center_layout _ c) as [[columns rows]|] eqn:E; [|discriminate].
  injection H as <-.
  destruct (center_layout_grid _ c columns rows Hfh (Nat2Z.is_nonneg _) E)
    as (Hn & Hrm & Hr & Hc & (Hlo & Hhi) & Hrc).
  unfold TEXT_PADDING in *.
  rewrite (to_size_small (sheight (window c) - 10 * 2)) in Hr, Hrm
    by (cint; lia).
  assert (Hrh : rows * font_height <= sheight (window c) - 20).
  { pose proof (Z.mul_div_le (sheight (window c) - 10 * 2) font_height Hfh).
    nia. }
  rewrite (to_size_small (rows * font_height)) by (cint; nia).
  replace (rows * font_height <? sheight (window c)) with true
    by (symmetry; apply Z.ltb_lt; lia).
  assert (Ey : to_ssize (to_size (sheight (window c) / 2
                                  - rows * font_height / 2))
               = sheight (window c) / 2 - rows * font_height / 2).
  { apply to_ssize_to_size_id. cint. Z.div_mod_to_equations. nia. }
  rewrite Ey.
  eapply Forall_impl;
    [|apply print_columns_ys; try lia].
  - cbn beta. intros p [H1 H2]. Z.div_mod_to_equations. nia.
  - Z.div_mod_to_equations. nia.
  - cint. Z.div_mod_to_equations. nia.
Qed.

End Printing.

Lemma center_grid_witness :
  exists columns rows,
    Canvas.center_layout 20 5 low_window = Some (columns, rows)
    /\ 1 <= rows <= 3 /\ 1 <= columns
    /\ (columns - 1) * rows < 5 <= columns * rows.
Proof.
  apply (proj1 (center_grid 20 5 low_window ltac:(lia) ltac:(lia))).
  - lia.
  - vm_compute. reflexivity.
Defined.

Lemma center_prints_each_line_once_witness :
  exists out,
    Canvas.canvas_print_center 20 mono_width help_lines low_window = Some out
    /\ map snd out = help_lines.
Proof.
  destruct (Canvas.canvas_print_center 20 mono_width help_lines low_window)
    as [out|] eqn:E.
  - exists out. split; [reflexivity|].
    apply (center_prints_each_line_once 20 mono_width help_lines low_window
             out); [lia|cbn; cint; lia|exact E].
  - vm_compute in E. discriminate E.
Defined.

Lemma center_text_within_padding_witness :
  exists out,
    Canvas.canvas_print_center 20 mono_width help_lines low_window = Some out
    /\ Forall (fun p => 10 <= snd (fst p) /\ snd (fst p) + 20 <= 70) out.
Proof.
  destruct (Canvas.canvas_print_center 20 mono_width help_lines low_window)
    as [out|] eqn:E.
  - exists out. split; [reflexivity|].
    apply (center_text_within_padding 20 mono_width help_lines low_window
             out); [lia|cbn; cint; lia|exact E].
  - vm_compute in E. discriminate E.
Defined.

(** *** Info text *)

Section InfoText.

Variable font_height : Z.
Variable font_print : option string -> Z.

Local Abbreviation max_key_width := (Canvas.max_key_width font_print).
Local Abbreviation print_line := (Canvas.print_line font_height font_print).
Local Abbreviation print_lines := (Canvas.print_lines font_height font_print).
Local Abbreviation canvas_print :=
  (Canvas.canvas_print font_height font_print).

Lemma max_key_width_fold (lines : list info_line) :
  forall m0 : Z,
    let m := fold_left
               (fun m l =>
                  if has_text (key l) then
                    if to_size (font_print (key l) + font_print colon) >? m
                    then to_size (font_print (key l) + font_print colon)
                    else m
                  else m) lines m0 in
    m0 <= m
    /\ (forall l, In l lines -> has_text (key l) = true ->
          to_size (font_print (key l) + font_print colon) <= m).
Proof.
  induction lines as [|l0 lines IH]; intros m0; cbn [fold_left].
  - split; [lia|]. intros l [].
  - match goal with
    | |- context [fold_left ?f lines ?m1] =>
        destruct (IH m1) as [H1 H2]
    end.
    cbv zeta in *. split.
    + destruct (has_text (key l0)); [|exact H1].
      destruct (Z.gtb_spec
                  (to_size (font_print (key l0) + font_print colon)) m0);
        lia.
    + intros l [->|Hin] Ht; [|exact (H2 l Hin Ht)].
      rewrite Ht in *.
      destruct (Z.gtb_spec
                  (to_size (font_print (key l) + font_print colon)) m0);
        lia.
Qed.

Lemma print_lines_incl (pos : info_position) (c : canvas)
      (lines_num mkw : Z) (lines : list info_line) :
  forall (i0 : Z) (k : nat) (l : info_line),
    nth_error lines k = Some l ->
    incl (print_line pos c lines_num mkw (i0 + Z.of_nat k) l)
         (print_lines pos c lines_num mkw i0 lines).
Proof.
  induction lines as [|l0 lines IH]; intros i0 k l Hk.
  - destruct k; discriminate Hk.
  - cbn [Canvas.print_lines]. destruct k as [|k].
    + injection Hk as <-. rewrite Z.add_0_r. apply incl_appl, incl_refl.
    + apply incl_appr.
      replace (i0 + Z.of_nat (S k)) with (i0 + 1 + Z.of_nat k) by lia.
      apply IH. exact Hk.
Qed.

(** X18. In the info block at the left edge the keys never run into the
    values: a line whose key has a width is printed as key, colon and
    value, the key at the padding, the colon right behind it and the
    value in the column that starts after the widest key with its colon,
    which is not left of where this key and its colon end. *)
Theorem info_keys_left_of_values (lines : list info_line)
        (pos : info_position) (c : canvas) (k : nat) (l : info_line) :
  (forall text, has_text text = false -> font_print text = 0) ->
  0 <= font_print colon ->
  Forall (fun l => 0 <= font_print (key l)
                   /\ font_print (key l) + font_print colon
                      < ssize_half - TEXT_PADDING) lines ->
  pos = info_top_left \/ pos = info_bottom_left ->
  nth_error lines k = Some l ->
  font_print (key l) <> 0 ->
  exists y,
    incl [(TEXT_PADDING, y, key l);
          (TEXT_PADDING + font_print (key l), y, colon);
          (TEXT_PADDING + max_key_width lines, y, value l)]
         (canvas_print lines pos c)
    /\ TEXT_PADDING + font_print (key l) + font_print colon
       <= TEXT_PADDING + max_key_width lines.
Proof.
  intros Hfont Hcolon Hw Hpos Hk Hkey.
  pose proof (nth_error_In _ _ Hk) as Hin.
  pose proof (proj1 (Forall_forall _ _) Hw l Hin) as [Hk0 Hk1].
  assert (Ht : has_text (key l) = true).
  { destruct (has_text (key l)) eqn:E; [reflexivity|].
    elim Hkey. apply Hfont. exact E. }
  assert (Ekw : to_size (font_print (key l) + font_print colon)
                = font_print (key l) + font_print colon).
  { apply to_size_small. unfold TEXT_PADDING in *. cint. lia. }
  destruct (max_key_width_fold lines 0) as [_ Hmax]. cbv zeta in Hmax.
  specialize (Hmax l Hin Ht). rewrite Ekw in Hmax.
  fold (max_key_width lines) in Hmax.
  assert (Hmb : max_key_width lines < ssize_half - TEXT_PADDING).
  { unfold Canvas.max_key_width. clear - Hw Hcolon.
    assert (G : forall m0, 0 <= m0 < ssize_half - TEXT_PADDING ->
              fold_left
                (fun m l =>
                   if has_text (key l) then
                     let width :=
                       to_size (font_print (key l) + font_print colon) in
                     if width >? m then width else m
                   else m) lines m0 < ssize_half - TEXT_PADDING).
    { induction lines as [|l0 lines IH]; intros m0 Hm0; cbn [fold_left];
        [lia|].
      inversion Hw as [|? ? [Ha Hb] Hrest]; subst.
      apply IH; [exact Hrest|].
      destruct (has_text (key l0)); [|exact Hm0]. cbv zeta.
      rewrite to_size_small by (unfold TEXT_PADDING in *; cint; lia).
      destruct (Z.gtb_spec (font_print (key l0) + font_print colon) m0);
        lia. }
    apply G. unfold TEXT_PADDING. cint. lia. }
  assert (Ex : to_ssize (to_size (TEXT_PADDING + font_print (key l)))
               = TEXT_PADDING + font_print (key l)).
  { apply to_ssize_to_size_id. unfold TEXT_PADDING in *. cint. lia. }
  assert (Em : to_ssize (to_size (TEXT_PADDING + max_key_width lines))
               = TEXT_PADDING + max_key_width lines).
  { apply to_ssize_to_size_id. unfold TEXT_PADDING in *. cint. lia. }
  assert (Hline : exists y,
             print_line pos c (Z.of_nat (List.length lines))
               (max_key_width lines) (0 + Z.of_nat k) l
             = [(TEXT_PADDING, y, key l);
                (TEXT_PADDING + font_print (key l), y, colon);
                (TEXT_PADDING + max_key_width lines, y, value l)]).
  { unfold Canvas.print_line.
    replace (font_print (key l) =? 0) with false
      by (symmetry; apply Z.eqb_neq; exact Hkey).
    cbn [negb]. rewrite Ekw.
    replace (font_print (key l) + font_print colon =? 0) with false
      by (symmetry; apply Z.eqb_neq; lia).
    cbn [negb].
    destruct Hpos as [-> | ->]; cbn [fst snd app]; rewrite Ex, Em;
      eexists; reflexivity. }
  destruct Hline as [y Hline]. exists y. split; [|lia].
  rewrite <- Hline. unfold Canvas.canvas_print.
  apply print_lines_incl. exact Hk.
Qed.

End InfoText.

Lemma info_keys_left_of_values_witness :
  exists y,
    incl [(10, y, Some "Image size"%string);
          (10 + 80, y, colon);
          (10 + 96, y, Some "10x10"%string)]
         (Canvas.canvas_print 20 mono_width_opt info_lines info_bottom_left
            small_centered).
Proof.
  destruct (info_keys_left_of_values 20 mono_width_opt info_lines
              info_bottom_left small_centered 2
              {| key := Some "Image size"%string;
                 value := Some "10x10"%string |})
    as (y & Hy & _).
  - intros [[|ch s]|] H; try reflexivity. discriminate H.
  - cbn. lia.
  - repeat constructor; cbn; cint; lia.
  - right. reflexivity.
  - reflexivity.
  - cbn. lia.
  - exists y. exact Hy.
Defined.

End CanvasExtra.

(** * More properties of the application *)

Module AppExtra.

Import CInt App AppFacts.

Section Facts.

Variable World : Type.
Variable alloc_ok : World -> bool.
Variable info_switch : string -> World -> World.
Variable info_update_status : string -> World -> World.
Variable info_switch_help : World -> World.
Variable info_help_active : World -> bool.
Variable ui_toggle_fullscreen : World -> World.
Variable handle :
  event_handler -> event -> application World -> application World.
Variable extern_callback :
  nat -> application World -> option (application World).
Variable keybind_find : Z -> Z -> option (list action).
Variable keybind_name : Z -> Z -> option string.
Variable info_enabled : World -> bool.
Variable CFG_MODE_GALLERY : string.
Variable CFG_MODE_VIEWER : string.
Variable shellcmd_expr : string -> string -> World -> Z * option string.
Variable show_int : Z -> string.
Variable strerror : Z -> string.

Local Abbreviation append_event := (App.append_event World alloc_ok).
Local Abbreviation app_redraw := (App.app_redraw World alloc_ok).
Local Abbreviation app_on_drag := (App.app_on_drag World alloc_ok).
Local Abbreviation app_on_drags := (App.app_on_drags World alloc_ok).
Local Abbreviation append_actions := (App.append_actions World alloc_ok).
Local Abbreviation on_signal := (App.on_signal World alloc_ok).
Local Abbreviation app_on_keyboard :=
  (App.app_on_keyboard World alloc_ok info_update_status keybind_find
     keybind_name).
Local Abbreviation app_switch_mode :=
  (App.app_switch_mode World alloc_ok info_switch info_switch_help
     info_help_active handle info_enabled CFG_MODE_GALLERY CFG_MODE_VIEWER).
Local Abbreviation app_execute :=
  (App.app_execute World alloc_ok info_update_status shellcmd_expr show_int
     strerror).
Local Abbreviation dispatch_event :=
  (App.dispatch_event World alloc_ok info_switch info_update_status
     info_switch_help info_help_active ui_toggle_fullscreen handle).
Local Abbreviation drain :=
  (App.drain World alloc_ok info_switch info_update_status
     info_switch_help info_help_active ui_toggle_fullscreen handle).
Local Abbreviation handle_event_queue :=
  (App.handle_event_queue World alloc_ok info_switch info_update_status
     info_switch_help info_help_active ui_toggle_fullscreen handle).
Local Abbreviation call_handlers :=
  (App.call_handlers World alloc_ok info_switch info_update_status
     info_switch_help info_help_active ui_toggle_fullscreen handle
     extern_callback).
Local Abbreviation main_loop :=
  (App.main_loop World alloc_ok info_switch info_update_status
     info_switch_help info_help_active ui_toggle_fullscreen handle
     extern_callback).
Local Abbreviation app_run :=
  (App.app_run World alloc_ok info_switch info_update_status
     info_switch_help info_help_active ui_toggle_fullscreen handle
     extern_callback).
Local Abbreviation quiet_handlers := (App.quiet_handlers World handle).
Local Abbreviation other := (fun e : event => negb (is_redraw e)).
Local Abbreviation no_drag := (fun e : event => negb (is_drag e)).

(** *** Redraw requests *)

Lemma remove_redraw_none (q : list event) :
  remove_redraw q = None -> exists pre, q = pre ++ [event_redraw].
Proof.
  induction q as [|e q IH]; cbn [remove_redraw]; [discriminate|].
  destruct (is_redraw e) eqn:He.
  - destruct q; [|discriminate]. intros _. exists [].
    destruct e; try discriminate He. reflexivity.
  - destruct (remove_redraw q); [discriminate|]. intros _.
    destruct (IH eq_refl) as [pre ->]. exists (e :: pre). reflexivity.
Qed.

Lemma remove_redraw_some (q q' : list event) :
  remove_redraw q = Some q' -> filter other q' = filter other q.
Proof.
  revert q'. induction q as [|e q IH]; intros q' H; cbn [remove_redraw] in H.
  - injection H as <-. reflexivity.
  - destruct (is_redraw e) eqn:He.
    + destruct q; [discriminate|]. injection H as <-.
      cbn [filter]. rewrite He. reflexivity.
    + destruct (remove_redraw q) as [r|]; [|discriminate].
      injection H as <-. cbn [filter]. rewrite He, (IH r eq_refl).
      reflexivity.
Qed.

Lemma append_event_others (ev : event) (a : application World) :
  is_redraw ev = true ->
  filter other (events (append_event ev a)) = filter other (events a).
Proof.
  intros Hev. unfold App.append_event.
  destruct (alloc_ok (world a)); [|reflexivity].
  cbn [events set_events set_notification].
  rewrite filter_app. cbn [filter]. rewrite Hev. apply app_nil_r.
Qed.

Lemma app_redraw_last (a : application World) :
  alloc_ok (world a) = true ->
  exists q, events (app_redraw a) = q ++ [event_redraw].
Proof.
  intros Halloc. unfold App.app_redraw.
  destruct (remove_redraw (events a)) as [q|] eqn:Hq.
  - exists q. unfold App.append_event.
    cbn [world set_events]. rewrite Halloc. reflexivity.
  - exact (remove_redraw_none _ Hq).
Qed.

(** X19. A redraw request never touches the other entries: whatever the
    queue holds and whether or not the allocation succeeds, the entries
    other than redraws are the same, in the same order, after
    [app_redraw]; and when the allocation succeeds the queue ends with a
    redraw entry. *)
Theorem redraw_keeps_other_entries (a : application World) :
  filter other (events (app_redraw a)) = filter other (events a)
  /\ (alloc_ok (world a) = true ->
      exists q, events (app_redraw a) = q ++ [event_redraw]).
Proof.
  split; [|apply app_redraw_last].
  unfold App.app_redraw.
  destruct (remove_redraw (events a)) as [q|] eqn:Hq; [|reflexivity].
  rewrite append_event_others by reflexivity.
  cbn [events set_events]. exact (remove_redraw_some _ _ Hq).
Qed.

Lemma no_redraw_forallb (q : list event) :
  List.length (filter is_redraw q) = O -> forallb other q = true.
Proof.
  induction q as [|e q IH]; [reflexivity|].
  cbn [filter forallb]. destruct (is_redraw e); cbn; [discriminate|].
  exact IH.
Qed.

(** X20. Asking twice for a redraw is asking once: with at most one
    redraw entry pending and the allocation succeeding, a second
    [app_redraw] changes neither the queue nor the notification count. *)
Theorem redraw_twice (a : application World) :
  alloc_ok (world a) = true ->
  (List.length (filter is_redraw (events a)) <= 1)%nat ->
  app_redraw (app_redraw a) = app_redraw a.
Proof.
  intros Halloc Hone. unfold App.app_redraw at 2 3.
  destruct (remove_redraw (events a)) as [q|] eqn:Hq.
  - unfold App.append_event. cbn [world set_events]. rewrite Halloc.
    unfold App.app_redraw. cbn [events set_events set_notification].
    destruct (remove_redraw_counts _ _ Hq) as [Hc _].
    rewrite remove_redraw_last; [reflexivity|].
    apply no_redraw_forallb. lia.
  - unfold App.app_redraw. rewrite Hq. reflexivity.
Qed.

(** X21. When the allocation fails, a redraw request that finds a redraw
    entry before other entries drops that entry and queues nothing: the
    redraw that was pending is lost, and no notification is raised. *)
Theorem redraw_lost_without_memory (a : application World)
        (pre post : list event) :
  alloc_ok (world a) = false ->
  events a = pre ++ event_redraw :: post ->
  forallb other pre = true -> post <> [] ->
  app_redraw a = set_events a (pre ++ post).
Proof.
  intros Halloc Hev Hpre Hpost. unfold App.app_redraw.
  rewrite Hev, (remove_redraw_inner pre post Hpre Hpost).
  unfold App.append_event. cbn [world set_events]. rewrite Halloc.
  reflexivity.
Qed.

Lemma tidy_run (s s' : queue_state World) :
  tidy (pending s) -> queue_steps World alloc_ok 1 s s' -> tidy (pending s').
Proof.
  intros Ht Hsteps. induction Hsteps as [s|s s2 s3 _ IH Hstep Hone].
  - exact Ht.
  - apply (queue_step_tidy World alloc_ok s2 s3 Hstep Hone). apply IH.
    exact Ht.
Qed.

(** X22. [app_redraw] and [app_on_drag] release [events_lock] between
    their scan and [append_event], so the queue is followed one locked
    section at a time.  As long as no two producers stand between scan and
    append at the same time, the drain loop running in between or not, the
    entries queued or about to be hold at most one redraw and at most one
    drag, and so does the queue; whole calls of [app_redraw] and
    [app_on_drag] are such runs.  Two overlapping [app_redraw] calls on an
    empty queue leave two redraw entries. *)
Theorem tidy_is_invariant (s s' : queue_state World) :
  (tidy (pending s) -> queue_steps World alloc_ok 1 s s' ->
   tidy (pending s') /\ tidy (events (ctx s')))
  /\ (forall a,
        queue_steps World alloc_ok 1 {| ctx := a; in_flight := [] |}
          {| ctx := app_redraw a; in_flight := [] |})
  /\ (forall a dx dy a',
        app_on_drag dx dy a = Some a' ->
        queue_steps World alloc_ok 1 {| ctx := a; in_flight := [] |}
          {| ctx := a'; in_flight := [] |})
  /\ (forall a,
        events a = [] -> alloc_ok (world a) = true ->
        exists s2,
          queue_steps World alloc_ok 2 {| ctx := a; in_flight := [] |} s2
          /\ in_flight s2 = []
          /\ events (ctx s2) = [event_redraw; event_redraw]).
Proof.
  split; [|split; [|split]].
  - intros Ht Hsteps. pose proof (tidy_run s s' Ht Hsteps) as Ht'.
    split; [exact Ht'|]. apply (tidy_queued World). exact Ht'.
  - intros a. unfold App.app_redraw.
    destruct (remove_redraw (events a)) as [q|] eqn:Hq; [|apply qs_refl].
    eapply qs_then; [eapply qs_then; [apply qs_refl| |]| |].
    + apply (qs_redraw_scan World alloc_ok a [] q Hq).
    + cbn. lia.
    + apply (qs_in_flight World alloc_ok event_redraw (set_events a q) [] []).
    + cbn. lia.
  - intros a dx dy a' Hdrag. unfold App.app_on_drag in Hdrag.
    destruct (merge_drag dx dy (events a)) as [[q|]|] eqn:Hq.
    + injection Hdrag as <-.
      eapply qs_then; [apply qs_refl| |].
      * apply (qs_drag_merge World alloc_ok dx dy a [] q Hq).
      * cbn. lia.
    + discriminate.
    + injection Hdrag as <-.
      eapply qs_then; [eapply qs_then; [apply qs_refl| |]| |].
      * apply (qs_drag_scan World alloc_ok dx dy a [] Hq).
      * cbn. lia.
      * apply (qs_in_flight World alloc_ok (event_drag dx dy) a [] []).
      * cbn. lia.
  - intros a Hev Halloc.
    exists {| ctx := append_event event_redraw
                       (append_event event_redraw
                          (set_events (set_events a []) []));
              in_flight := [] |}.
    split; [|split; [reflexivity|]].
    + eapply qs_then;
        [eapply qs_then;
           [eapply qs_then; [eapply qs_then; [apply qs_refl| |]| |]| |]| |].
      * apply (qs_redraw_scan World alloc_ok a [] []).
        rewrite Hev. reflexivity.
      * cbn. lia.
      * apply (qs_redraw_scan World alloc_ok (set_events a [])
                 [event_redraw] []).
        reflexivity.
      * cbn. lia.
      * apply (qs_in_flight World alloc_ok event_redraw
                 (set_events (set_events a []) []) [] [event_redraw]).
      * cbn. lia.
      * apply (qs_in_flight World alloc_ok event_redraw
                 (append_event event_redraw
                    (set_events (set_events a []) [])) [] []).
      * cbn. lia.
    + cbn [ctx]. unfold App.append_event. cbn [world set_events].
      rewrite Halloc. cbn [world set_events set_notification events].
      rewrite Halloc. reflexivity.
Qed.

(** *** Drag reports *)

Lemma merge_drag_absent (dx dy : Z) (q : list event) :
  forallb no_drag q = true -> merge_drag dx dy q = None.
Proof.
  induction q as [|e q IH]; [reflexivity|].
  cbn [forallb]. intros H. apply andb_true_iff in H. destruct H as [He Hq].
  destruct e; try discriminate He; cbn [merge_drag]; rewrite (IH Hq);
    reflexivity.
Qed.

Lemma drags_merge (ds : list (Z * Z)) :
  forall (pre : list event) (x y : Z) (a : application World),
    events a = pre ++ [event_drag x y] ->
    forallb no_drag pre = true ->
    drag_sums_ok x y ds ->
    exists a',
      app_on_drags ds a = Some a'
      /\ events a' = pre ++ [event_drag (x + sum_dx ds) (y + sum_dy ds)]
      /\ notification a' = notification a.
Proof.
  induction ds as [|[dx dy] ds IH]; intros pre x y a Hev Hpre Hok.
  - exists a. unfold sum_dx, sum_dy. cbn. rewrite !Z.add_0_r. auto.
  - destruct Hok as (Hx & Hy & Hok).
    cbn [App.app_on_drags]. unfold App.app_on_drag.
    rewrite Hev, (merge_drag_first pre [] x y dx dy Hpre Hx Hy).
    destruct (IH pre (x + dx) (y + dy)
                (set_events a (pre ++ [event_drag (x + dx) (y + dy)])))
      as (a' & Hrun & Hev' & Hn); auto.
    exists a'. split; [exact Hrun|]. split; [|exact Hn].
    rewrite Hev'. unfold sum_dx, sum_dy. cbn [map fold_right fst snd].
    rewrite !Z.add_assoc. reflexivity.
Qed.

(** X23. However many drag reports arrive before the queue is read, they
    take one entry and one notification: on a queue without a drag entry,
    the reports [ds] (at least one, the running sums being [int] values)
    leave the queue as it was, followed by one drag entry that holds the
    sums of the deltas. *)
Theorem drags_accumulate (a : application World) (ds : list (Z * Z)) :
  alloc_ok (world a) = true ->
  ds <> [] ->
  forallb no_drag (events a) = true ->
  drag_sums_ok 0 0 ds ->
  exists a',
    app_on_drags ds a = Some a'
    /\ events a' = events a ++ [event_drag (sum_dx ds) (sum_dy ds)]
    /\ notification a' = S (notification a).
Proof.
  intros Halloc Hne Hnd Hok.
  destruct ds as [|[dx dy] ds]; [contradiction|].
  destruct Hok as (_ & _ & Hok). cbn [Z.add] in Hok.
  cbn [App.app_on_drags]. unfold App.app_on_drag.
  rewrite (merge_drag_absent dx dy _ Hnd).
  unfold App.append_event. rewrite Halloc.
  destruct (drags_merge ds (events a) dx dy
              (set_notification
                 (set_events a (events a ++ [event_drag dx dy]))
                 (S (notification (set_events a
                                     (events a ++ [event_drag dx dy]))))))
    as (a' & Hrun & Hev & Hn); auto.
  exists a'. split; [exact Hrun|]. split; [exact Hev|exact Hn].
Qed.

(** *** The drain loop *)

Lemma drain_stopped (fuel : nat) (a : application World) :
  state a <> loop_run -> drain fuel a = Some (a, []).
Proof.
  intros Hst. destruct fuel; cbn [App.drain];
    destruct (events a); try reflexivity;
    destruct (state a); try contradiction; reflexivity.
Qed.

(** X24. An exit action ends the drain loop at once: taken from the head
    of the queue while help is not shown, it stops the loop, and the
    entries behind it stay in the queue unhandled, the notification being
    reset.  A loop that is not running hands out nothing. *)
Theorem exit_leaves_backlog (fuel : nat) (a : application World)
        (act : action) (rest : list event) :
  (events a = event_action act :: rest ->
   type act = action_exit ->
   info_help_active (world a) = false ->
   state a = loop_run ->
   handle_event_queue (S fuel) a
   = Some (set_state (set_events (set_notification a 0) rest) loop_stop,
           [event_action act]))
  /\ (state a <> loop_run ->
      handle_event_queue fuel a = Some (set_notification a 0, [])).
Proof.
  split.
  - intros Hev Hty Hhelp Hrun. unfold App.handle_event_queue.
    cbn [App.drain events set_notification state]. rewrite Hev, Hrun.
    cbn [is_run]. unfold App.dispatch_event, App.apply_common_action.
    rewrite Hty. cbn [world set_events set_notification]. rewrite Hhelp.
    rewrite drain_stopped by (cbn; discriminate).
    reflexivity.
  - intros Hst. unfold App.handle_event_queue.
    apply drain_stopped. exact Hst.
Qed.

Lemma drain_for_handler (q : list event) :
  quiet_handlers ->
  forall a,
    events a = q -> state a = loop_run ->
    forallb for_handler q = true ->
    exists a', drain (List.length q) a = Some (a', q) /\ events a' = [].
Proof.
  intros Hquiet. induction q as [|e q IH]; intros a Hq Hrun Hna.
  - exists a. cbn [List.length App.drain]. rewrite Hq. auto.
  - cbn [forallb] in Hna. apply andb_true_iff in Hna.
    destruct Hna as [He Hna].
    cbn [List.length App.drain]. rewrite Hq, Hrun. cbn [is_run].
    assert (Hd : dispatch_event e (set_events a q)
                 = handle (ehandler a) e (set_events a q)).
    { destruct e as [| | | | |act]; try reflexivity.
      unfold App.dispatch_event, App.apply_common_action.
      cbn [for_handler] in He.
      destruct (type act); try discriminate He; reflexivity. }
    rewrite Hd.
    destruct (Hquiet (ehandler a) e (set_events a q)) as [Hev Hst].
    destruct (IH (handle (ehandler a) e (set_events a q)))
      as (a' & Hdr & Hempty); auto.
    + rewrite Hst. exact Hrun.
    + exists a'. rewrite Hdr. auto.
Qed.

Lemma append_actions_spec (seq : list action) :
  forall a : application World,
    alloc_ok (world a) = true ->
    append_actions seq a
    = set_notification
        (set_events a (events a ++ map event_action seq))
        (notification a + List.length seq).
Proof.
  induction seq as [|act seq IH]; intros a Halloc.
  - cbn. rewrite app_nil_r, Nat.add_0_r. destruct a; reflexivity.
  - unfold App.append_actions in *. cbn [fold_left].
    rewrite IH.
    + unfold App.append_event. rewrite Halloc.
      cbn [events set_events set_notification notification map List.length].
      rewrite <- app_assoc, Nat.add_succ_r. reflexivity.
    + unfold App.append_event. rewrite Halloc. exact Halloc.
Qed.

(** X25. The actions bound to a key reach the handler in the order of
    the binding, behind what was queued before: with events for the
    handlers only, [app_on_keyboard] followed by the drain loop hands out
    the old entries, then one action event per action of the binding, and
    empties the queue. *)
Theorem key_actions_in_order (a : application World) (key mods : Z)
        (actions : list action) :
  alloc_ok (world a) = true ->
  quiet_handlers ->
  keybind_find key mods = Some actions ->
  state a = loop_run ->
  forallb for_handler (events a) = true ->
  forallb for_handler (map event_action actions) = true ->
  exists a',
    handle_event_queue (List.length (events a) + List.length actions)
      (app_on_keyboard key mods a)
    = Some (a', events a ++ map event_action actions)
    /\ events a' = [].
Proof.
  intros Halloc Hquiet Hkey Hrun Hq Hacts.
  unfold App.app_on_keyboard. rewrite Hkey.
  rewrite (append_actions_spec actions a Halloc).
  unfold App.handle_event_queue.
  replace (List.length (events a) + List.length actions)%nat
    with (List.length (events a ++ map event_action actions))
    by (rewrite length_app, length_map; reflexivity).
  apply drain_for_handler; auto.
  rewrite forallb_app, Hq, Hacts. reflexivity.
Qed.

(** X26. A signal queues the actions configured for it, in order, with
    one notification each; a signal other than [SIGUSR1] and [SIGUSR2]
    changes nothing. *)
Theorem signal_actions (a : application World)
        (sigusr1 sigusr2 : list action) :
  (alloc_ok (world a) = true ->
   events (on_signal sigusr1 sigusr2 SIGUSR1 a)
   = events a ++ map event_action sigusr1
   /\ events (on_signal sigusr1 sigusr2 SIGUSR2 a)
      = events a ++ map event_action sigusr2
   /\ notification (on_signal sigusr1 sigusr2 SIGUSR1 a)
      = (notification a + List.length sigusr1)%nat
   /\ notification (on_signal sigusr1 sigusr2 SIGUSR2 a)
      = (notification a + List.length sigusr2)%nat)
  /\ on_signal sigusr1 sigusr2 SIG_other a = a.
Proof.
  split; [|reflexivity]. intros Halloc. unfold App.on_signal.
  rewrite !append_actions_spec by exact Halloc. repeat split.
Qed.

(** *** The callbacks of one cycle *)

(** X27. In one cycle the callbacks are called in the order of their
    registration, each at most once, and only those whose descriptor is
    ready: the indexes called from [i] on are strictly increasing, lie
    within the poll array and have their [POLLIN] bit set. *)
Theorem callbacks_in_order (fuel : nat) (fds : list bool) :
  forall (i : nat) (a a' : application World)
         (calls : list (nat * loop_state)),
    call_handlers fuel i fds a = Some (a', calls) ->
    StronglySorted lt (map fst calls)
    /\ Forall (fun j => (i <= j < i + List.length fds)%nat
                        /\ nth (j - i) fds false = true)
              (map fst calls).
Proof.
  induction fds as [|pollin fds IH]; intros i a a' calls H;
    cbn [App.call_handlers] in H.
  - destruct (is_run (state a) && (i <? List.length (wfds a))%nat);
      [discriminate|].
    injection H as <- <-. split; constructor.
  - destruct (is_run (state a) && (i <? List.length (wfds a))%nat).
    2:{ injection H as <- <-. split; constructor. }
    assert (Hshift : forall l,
               Forall (fun j => (S i <= j < S i + List.length fds)%nat
                                /\ nth (j - S i) fds false = true) l ->
               Forall (fun j => (i <= j < i + List.length (pollin :: fds))%nat
                                /\ nth (j - i) (pollin :: fds) false = true)
                      l).
    { intros l Hl. eapply Forall_impl; [|exact Hl].
      cbn beta. intros j [Hj Hn]. cbn [List.length]. split; [lia|].
      replace (j - i)%nat with (S (j - S i)) by lia. exact Hn. }
    destruct pollin.
    + destruct (nth_error (wfds a) i) as [w|]; [|discriminate].
      destruct (App.invoke _ _ _ _ _ _ _ _ _ _ w a) as [a1|];
        [|discriminate].
      destruct (call_handlers fuel (S i) fds a1) as [[a2 calls2]|] eqn:Hrec;
        [|discriminate].
      injection H as <- <-.
      destruct (IH _ _ _ _ Hrec) as [Hs Hf].
      cbn [map fst]. split.
      * constructor; [exact Hs|].
        eapply Forall_impl; [|exact Hf]. cbn beta. intros j [Hj _]. lia.
      * constructor.
        -- cbn [List.length]. split; [lia|].
           rewrite Nat.sub_diag. reflexivity.
        -- apply Hshift. exact Hf.
    + destruct (IH _ _ _ _ H) as [Hs Hf]. split; [exact Hs|].
      apply Hshift. exact Hf.
Qed.

(** *** Mode switch *)

Lemma app_redraw_fields (a : application World) :
  state (app_redraw a) = state a
  /\ ehandler (app_redraw a) = ehandler a
  /\ world (app_redraw a) = world a
  /\ wfds (app_redraw a) = wfds a.
Proof.
  unfold App.app_redraw, App.append_event.
  destruct (remove_redraw (events a)); [|auto].
  cbn [world set_events]. destruct (alloc_ok (world a)); cbn; auto.
Qed.

Lemma switch_mode_handler (index : Z) (a : application World) :
  (forall h ev b, ehandler (handle h ev b) = ehandler b) ->
  ehandler (app_switch_mode index a)
  = match ehandler a with
    | viewer_handle => gallery_handle
    | gallery_handle => viewer_handle
    end.
Proof.
  intros Hh. unfold App.app_switch_mode.
  destruct (ehandler a); cbv zeta beta iota;
    rewrite (proj1 (proj2 (app_redraw_fields _)));
    destruct (info_help_active _); destruct (info_enabled _);
    cbn [ehandler set_world]; rewrite Hh; reflexivity.
Qed.

(** X28. [app_switch_mode] passes from the viewer to the gallery and
    back: when the handlers leave the handler pointer alone, the mode
    after the switch is the other one, two switches give back the mode,
    and, allocation succeeding, the queue ends with a redraw entry. *)
Theorem switch_mode_flips (a : application World) (index : Z) :
  (forall h ev b, ehandler (handle h ev b) = ehandler b) ->
  app_is_viewer (app_switch_mode index a) = negb (app_is_viewer a)
  /\ (forall index', app_is_viewer
                       (app_switch_mode index' (app_switch_mode index a))
                     = app_is_viewer a)
  /\ ((forall w, alloc_ok w = true) ->
      exists q, events (app_switch_mode index a) = q ++ [event_redraw]).
Proof.
  intros Hh. split; [|split].
  - unfold app_is_viewer. rewrite (switch_mode_handler _ _ Hh).
    destruct (ehandler a); reflexivity.
  - intros index'. unfold app_is_viewer.
    rewrite !(switch_mode_handler _ _ Hh).
    destruct (ehandler a); reflexivity.
  - intros Halloc. unfold App.app_switch_mode.
    destruct (ehandler a); cbv zeta beta iota;
      apply app_redraw_last; apply Halloc.
Qed.

(** *** Command output *)

Lemma length_append (s1 s2 : string) :
  String.length (s1 ++ s2) = (String.length s1 + String.length s2)%nat.
Proof.
  induction s1 as [|ch s1 IH]; [reflexivity|].
  cbn [String.append String.length]. rewrite IH. reflexivity.
Qed.

Lemma length_substring_0 (n : nat) :
  forall s : string,
    (n <= String.length s)%nat -> String.length (substring 0 n s) = n.
Proof.
  induction n as [|n IH]; intros s Hn.
  - destruct s; reflexivity.
  - destruct s as [|ch s]; [cbn in Hn; lia|].
    cbn [substring String.length]. rewrite IH; [reflexivity|].
    cbn in Hn. lia.
Qed.

Lemma substring_0_append (n : nat) :
  forall s t : string,
    (n <= String.length s)%nat ->
    substring 0 n (substring 0 n s ++ t) = substring 0 n s.
Proof.
  induction n as [|n IH]; intros s t Hn.
  - destruct s; cbn; destruct t; reflexivity.
  - destruct s as [|ch s]; [cbn in Hn; lia|].
    cbn [substring String.append]. rewrite IH; [reflexivity|].
    cbn in Hn. lia.
Qed.

Lemma trim_output_long (out : string) :
  (60 < String.length out)%nat ->
  trim_output out = (substring 0 56 out ++ "...")%string.
Proof.
  intros Hlen. unfold trim_output.
  apply Nat.ltb_lt in Hlen. rewrite Hlen. reflexivity.
Qed.

Lemma trim_output_short (out : string) :
  (String.length out <= 60)%nat -> trim_output out = out.
Proof.
  intros Hlen. unfold trim_output.
  destruct (Nat.ltb_spec 60 (String.length out)); [lia|reflexivity].
Qed.

(** X29. [app_execute] shows the output of a successful command in at
    most 60 bytes: an output of up to 60 bytes as it is, a longer one cut
    to its first 56 bytes followed by three dots, 59 bytes in all; what
    goes to [stdout] is the output as the command wrote it. *)
Theorem execute_shows_trimmed (a : application World)
        (expr path out : string) :
  shellcmd_expr expr path (world a) = (0, Some out) ->
  exists msg,
    world (snd (app_execute expr path a))
    = info_update_status msg (world a)
    /\ fst (app_execute expr path a) = Some out
    /\ (String.length msg <= 60)%nat
    /\ substring 0 56 msg = substring 0 56 out
    /\ ((String.length out <= 60)%nat -> msg = out)
    /\ ((60 < String.length out)%nat ->
        msg = (substring 0 56 out ++ "...")%string
        /\ String.length msg = 59%nat).
Proof.
  intros Hcmd. exists (trim_output out).
  unfold App.app_execute. rewrite Hcmd.
  cbn [fst snd option_map Z.eqb negb].
  rewrite (proj1 (proj2 (proj2 (app_redraw_fields _)))).
  cbn [world set_world].
  split; [reflexivity|]. split; [reflexivity|].
  destruct (Nat.ltb_spec 60 (String.length out)) as [Hlong|Hshort].
  - rewrite (trim_output_long out Hlong).
    assert (Hl : String.length (substring 0 56 out ++ "...") = 59%nat).
    { rewrite length_append, length_substring_0 by lia. reflexivity. }
    split; [lia|]. split; [apply substring_0_append; lia|].
    split; [lia|]. intros _. split; [reflexivity|exact Hl].
  - rewrite (trim_output_short out Hshort).
    split; [exact Hshort|]. split; [reflexivity|].
    split; [reflexivity|]. lia.
Qed.

(** *** Interrupted polls *)

(** X30. A [poll] interrupted by a signal calls no callback: [app_run]
    goes on with the next [poll] as if the interrupted one had not been
    made, and ends with the same result, state and calls. *)
Theorem interrupted_poll_calls_nothing (fuel : nat)
        (polls : list poll_result) (a : application World) :
  app_run fuel (poll_eintr :: polls) a = app_run fuel polls a.
Proof.
  unfold App.app_run. destruct (alloc_ok (world a)); [|reflexivity].
  cbn [App.main_loop set_state state wfds is_run].
  rewrite length_map, Nat.eqb_refl. cbn [negb].
  rewrite call_handlers_idle_run
    by (cbn [wfds set_state]; rewrite !length_map; lia).
  rewrite map_map. cbn [app].
  destruct (main_loop fuel polls (map (fun _ => false) (wfds a))
              (set_state a loop_run)) as [[a' calls]|]; reflexivity.
Qed.

End Facts.

(** A resize, a redraw request and the drain loop taking the head, on a
    queue that holds a redraw entry. *)
Lemma tidy_is_invariant_witness :
  tidy (pending
          {| ctx := set_events pending_redraw
                      [event_load 1 0; event_resize; event_redraw];
             in_flight := [] |})
  /\ tidy [event_load 1 0; event_resize; event_redraw].
Proof.
  refine (proj1 (tidy_is_invariant unit always_ok
                   {| ctx := pending_redraw; in_flight := [] |}
                   {| ctx := set_events pending_redraw
                               [event_load 1 0; event_resize; event_redraw];
                      in_flight := [] |}) _ _).
  - unfold tidy. cbn. lia.
  - eapply qs_then;
      [eapply qs_then;
         [eapply qs_then;
            [eapply qs_then; [eapply qs_then; [apply qs_refl| |]| |]| |]| |]
      | |].
    + apply (qs_append unit always_ok event_resize pending_redraw []);
        reflexivity.
    + cbn. lia.
    + apply (qs_redraw_scan unit always_ok
               (append_event unit always_ok event_resize pending_redraw) []
               [event_resize; event_load 1 0; event_resize]).
      reflexivity.
    + cbn. lia.
    + apply (qs_pop unit always_ok event_resize
               [event_load 1 0; event_resize]
               (set_events
                  (append_event unit always_ok event_resize pending_redraw)
                  [event_resize; event_load 1 0; event_resize])
               [event_redraw]).
      reflexivity.
    + cbn. lia.
    + apply (qs_in_flight unit always_ok event_redraw
               (set_events
                  (set_events
                     (append_event unit always_ok event_resize
                        pending_redraw)
                     [event_resize; event_load 1 0; event_resize])
                  [event_load 1 0; event_resize]) [] []).
    + cbn. lia.
    + apply (qs_other unit always_ok
               (append_event unit always_ok event_redraw
                  (set_events
                     (set_events
                        (append_event unit always_ok event_resize
                           pending_redraw)
                        [event_resize; event_load 1 0; event_resize])
                     [event_load 1 0; event_resize]))
               (set_events pending_redraw
                  [event_load 1 0; event_resize; event_redraw]) []).
      reflexivity.
    + cbn. lia.
Defined.

Lemma redraw_keeps_other_entries_witness :
  exists q,
    events (App.app_redraw unit always_ok pending_redraw)
    = q ++ [event_redraw].
Proof.
  apply (proj2 (redraw_keeps_other_entries unit always_ok pending_redraw)).
  reflexivity.
Defined.

Lemma redraw_twice_witness :
  App.app_redraw unit always_ok (App.app_redraw unit always_ok pending_redraw)
  = App.app_redraw unit always_ok pending_redraw.
Proof.
  apply (redraw_twice unit always_ok pending_redraw).
  - reflexivity.
  - cbn. lia.
Defined.

Lemma redraw_lost_without_memory_witness :
  App.app_redraw unit never_ok pending_redraw
  = set_events pending_redraw [event_resize; event_load 1 0].
Proof.
  apply (redraw_lost_without_memory unit never_ok pending_redraw
           [event_resize] [event_load 1 0]).
  - reflexivity.
  - reflexivity.
  - reflexivity.
  - discriminate.
Defined.

Lemma drags_accumulate_witness :
  exists a',
    App.app_on_drags unit always_ok [(3, 4); (-1, 2); (5, 5)] pending_redraw
    = Some a'
    /\ events a' = events pending_redraw ++ [event_drag 7 11]
    /\ notification a' = 4%nat.
Proof.
  apply (drags_accumulate unit always_ok pending_redraw
           [(3, 4); (-1, 2); (5, 5)]).
  - reflexivity.
  - discriminate.
  - reflexivity.
  - cbn. unfold is_int, int_half. lia.
Defined.

Lemma exit_leaves_backlog_witness :
  App.handle_event_queue unit always_ok no_info no_info no_effect no_help
    no_effect quiet_handle 1 exit_pending
  = Some (set_state (set_events (set_notification exit_pending 0)
                       [event_resize]) loop_stop,
          [event_action exit_action]).
Proof.
  apply (proj1 (exit_leaves_backlog unit always_ok no_info no_info no_effect
                  no_help no_effect quiet_handle 0 exit_pending exit_action
                  [event_resize])); reflexivity.
Defined.

Lemma key_actions_in_order_witness :
  exists a',
    App.handle_event_queue unit always_ok no_info no_info no_effect no_help
      no_effect quiet_handle 5
      (App.app_on_keyboard unit always_ok no_info demo_keybind no_name
         113 0 pending_redraw)
    = Some (a', [event_resize; event_redraw; event_load 1 0;
                 event_action reload_action; event_action next_action])
    /\ events a' = [].
Proof.
  apply (key_actions_in_order unit always_ok no_info no_info no_effect
           no_help no_effect quiet_handle demo_keybind no_name
           pending_redraw 113 0 [reload_action; next_action]).
  - reflexivity.
  - intros h ev a. split; reflexivity.
  - reflexivity.
  - reflexivity.
  - reflexivity.
  - reflexivity.
Defined.

Lemma signal_actions_witness :
  events (App.on_signal unit always_ok [reload_action] [next_action]
            SIGUSR2 pending_redraw)
  = events pending_redraw ++ [event_action next_action].
Proof.
  apply (proj1 (signal_actions unit always_ok pending_redraw
                  [reload_action] [next_action])).
  reflexivity.
Defined.

Lemma callbacks_in_order_witness :
  exists a' calls,
    App.call_handlers unit always_ok no_info no_info no_effect no_help
      no_effect quiet_handle exit_callback 0 0 [true; false; true]
      three_watchers = Some (a', calls)
    /\ StronglySorted lt (map fst calls).
Proof.
  destruct (App.call_handlers unit always_ok no_info no_info no_effect
              no_help no_effect quiet_handle exit_callback 0 0
              [true; false; true] three_watchers)
    as [[a' calls]|] eqn:E.
  - exists a', calls. split; [reflexivity|].
    exact (proj1 (callbacks_in_order unit always_ok no_info no_info
                    no_effect no_help no_effect quiet_handle exit_callback
                    0 [true; false; true] 0 three_watchers a' calls E)).
  - vm_compute in E. discriminate E.
Defined.

Lemma switch_mode_flips_witness :
  app_is_viewer
    (App.app_switch_mode unit always_ok no_info no_effect no_help
       quiet_handle no_help "gallery" "viewer" 0 app0)
  = false.
Proof.
  apply (proj1 (switch_mode_flips unit always_ok no_info no_effect no_help
                  quiet_handle no_help "gallery" "viewer" app0 0
                  (fun h ev b => eq_refl))).
Defined.

Lemma execute_shows_trimmed_witness :
  exists msg,
    world (snd (App.app_execute unit always_ok no_info echo_cmd no_text
                  no_text "true" "a.png" app0))
    = no_info msg tt
    /\ fst (App.app_execute unit always_ok no_info echo_cmd no_text
              no_text "true" "a.png" app0) = Some "true"%string
    /\ (String.length msg <= 60)%nat.
Proof.
  destruct (execute_shows_trimmed unit always_ok no_info echo_cmd no_text
              no_text app0 "true" "a.png" "true" eq_refl)
    as (msg & H1 & H2 & H3 & _).
  exists msg. split; [exact H1|]. split; [exact H2|exact H3].
Defined.

End AppExtra.
